(** * cnap_lib.analysis: Graph and the CNA signature / CNAP pipeline

    A shallow embedding of [src/cnap_lib/analysis.py].

    The Python module works on numpy arrays.  The numpy calls it makes are
    modelled first (section "numpy"), as executable functions on lists that
    follow numpy's documented behaviour.  The [Graph] class keeps a
    reference to the caller's adjacency array and [np.fill_diagonal] writes
    into it, so arrays live in an explicit store and the methods of the
    class are computations in a small state-and-exception monad. *)

From Stdlib Require Import ZArith Lia.
From stdpp Require Import base tactics option list numbers sorting.

Local Open Scope Z_scope.

(** ** Exceptions and results *)

(** The Python exceptions the modelled code can raise.  [BadRef] is not a
    Python exception: it is the result of reading a store location that was
    never allocated, which no Python program can do. *)
Inductive exn : Set :=
| IndexError
| TypeError
| ValueError
| BadRef.

Inductive result (A : Type) : Type :=
| Ok (a : A)
| Raise (e : exn).
Arguments Ok {A} a.
Arguments Raise {A} e.

#[global] Instance result_ret : MRet result := @Ok.
#[global] Instance result_bind : MBind result :=
  λ A B f r, match r with Ok a => f a | Raise e => Raise e end.

Definition is_Ok {A} (r : result A) : Prop := ∃ a, r = Ok a.

(** [for x in l: f x], collecting the values, stopping at the first raise. *)
Fixpoint mapR {A B} (f : A → result B) (l : list A) : result (list B) :=
  match l with
  | [] => Ok []
  | x :: t =>
      match f x with
      | Raise e => Raise e
      | Ok y => match mapR f t with
                | Raise e => Raise e
                | Ok ys => Ok (y :: ys)
                end
      end
  end.

(** ** numpy *)

(** Integer arrays of one or two dimensions.  A two-dimensional array is the
    list of its rows; it is well formed when all rows have one length.  (The
    column count of an array without rows is not kept: nothing below can
    observe it.)  Arrays of three or more dimensions are outside the model.

    Entries are numpy's 64-bit integers.  The code compares them, stores 0
    and builds them from indices, sizes and counts of arrays held in
    memory; it does no arithmetic on them that could leave the 64-bit
    range, so they are taken in [Z] without wrap-around. *)
Inductive ndarray : Set :=
| Arr1 (v : list Z)
| Arr2 (rows : list (list Z)).

Definition rectangular (c : nat) (rows : list (list Z)) : Prop :=
  Forall (λ r, length r = c) rows.

Definition square (rows : list (list Z)) : Prop :=
  rectangular (length rows) rows.

(** [a.shape[0]] *)
Definition shape0 (a : ndarray) : Z :=
  match a with
  | Arr1 v => Z.of_nat (length v)
  | Arr2 rows => Z.of_nat (length rows)
  end.

(** [np.fill_diagonal(a, val)].  numpy refuses arrays of fewer than two
    dimensions ("array must be at least 2-d") and accepts rectangular
    two-dimensional ones, writing [a.flat[:c*c:c+1] = val] for [c] columns:
    entry [(k, k)] for every [k] below both the row and the column count. *)
Definition np_fill_diagonal (a : ndarray) (val : Z) : result ndarray :=
  match a with
  | Arr1 _ => Raise ValueError
  | Arr2 rows => Ok (Arr2 (imap (λ k r, <[k:=val]> r) rows))
  end.

(** [row == 1] on one row. *)
Definition eq1 (row : list Z) : list bool :=
  (λ x, bool_decide (x = 1)) <$> row.

(** [np.where(mask)[0]] for a one-dimensional mask: the positions holding
    True, ascending. *)
Fixpoint where_from (k : Z) (mask : list bool) : list Z :=
  match mask with
  | [] => []
  | b :: t => if b then k :: where_from (k + 1) t else where_from (k + 1) t
  end.
Definition np_where (mask : list bool) : list Z := where_from 0 mask.

(** [np.argwhere(a == 1)]: the index vectors of the entries equal to 1, in
    row-major order, one row per entry. *)
Definition np_argwhere_eq1 (a : ndarray) : list (list Z) :=
  match a with
  | Arr1 v => (λ j, [j]) <$> np_where (eq1 v)
  | Arr2 rows =>
      concat (imap (λ i r, (λ j, [Z.of_nat i; j]) <$> np_where (eq1 r)) rows)
  end.

(** Sorting, as numpy's [sort] and [unique] do it, for any comparison. *)
Section Sorting.
Context {A : Type} (cmp : A → A → comparison).

Fixpoint insert_sorted (x : A) (l : list A) : list A :=
  match l with
  | [] => [x]
  | y :: t =>
      match cmp x y with
      | Gt => y :: insert_sorted x t
      | _ => x :: l
      end
  end.

Definition np_sort (l : list A) : list A := foldr insert_sorted [] l.

(** The runs of equal neighbours of a list, with their lengths. *)
Fixpoint runs (l : list A) : list (A * Z) :=
  match l with
  | [] => []
  | x :: t =>
      match runs t with
      | (y, c) :: r =>
          match cmp x y with
          | Eq => (y, c + 1) :: r
          | _ => (x, 1) :: (y, c) :: r
          end
      | [] => [(x, 1)]
      end
  end.

(** [np.unique(l, axis=0, return_counts=True)]: the sorted distinct
    elements, each with the number of times it occurs. *)
Definition np_unique_counts (l : list A) : list (A * Z) := runs (np_sort l).

(** [np.unique(l, axis=0)] *)
Definition np_unique (l : list A) : list A := (np_unique_counts l).*1.
End Sorting.

(** The order numpy sorts rows in: lexicographic, entry by entry. *)
Fixpoint lex_compare (r s : list Z) : comparison :=
  match r, s with
  | [], [] => Eq
  | [], _ :: _ => Lt
  | _ :: _, [] => Gt
  | x :: r', y :: s' =>
      match x ?= y with
      | Eq => lex_compare r' s'
      | c => c
      end
  end.

(** [np.sort(rows, axis=1)]: every row sorted on its own. *)
Definition np_sort_axis1 (rows : list (list Z)) : list (list Z) :=
  np_sort Z.compare <$> rows.

(** [np.intersect1d(a, b)]: the sorted distinct values found in both. *)
Definition np_intersect1d (a b : list Z) : list Z :=
  filter (λ x, x ∈ np_unique Z.compare b) (np_unique Z.compare a).

(** Index normalisation shared by Python lists and numpy axes of length
    [n]: [-n <= i < 0] counts from the end, anything else outside
    [0 <= i < n] is an [IndexError]. *)
Definition py_index (n : nat) (i : Z) : result nat :=
  if decide (0 ≤ i < Z.of_nat n) then Ok (Z.to_nat i)
  else if decide (- Z.of_nat n ≤ i < 0) then Ok (Z.to_nat (Z.of_nat n + i))
  else Raise IndexError.

(** [l[i]] for one integer [i]. *)
Definition getitem {A} (l : list A) (i : Z) : result A :=
  k ← py_index (length l) i;
  match l !! k with
  | Some x => Ok x
  | None => Raise IndexError
  end.

(** [a[idx]] for an integer index array [idx] along the first axis. *)
Definition take {A} (l : list A) (idx : list Z) : result (list A) :=
  mapR (getitem l) idx.

(** The value of [np.array(nodes)] used as an index.  A Python list of
    integers gives an integer array, except the empty list, which numpy
    makes a float64 array; an integer array stays one. *)
Inductive pyseq : Set :=
| PyList (l : list Z)
| NdInt (l : list Z).

Inductive index_array : Set :=
| IntIndex (l : list Z)
| FloatEmpty.

Definition np_array (nodes : pyseq) : index_array :=
  match nodes with
  | PyList [] => FloatEmpty
  | PyList l => IntIndex l
  | NdInt l => IntIndex l
  end.

(** [a[np.ix_(idx, idx)]]: the array of the entries [a[i, j]] for [i] and
    [j] in [idx], a fresh copy.  [np.ix_] leaves an array argument's dtype
    alone, and indexing with float arrays is an [IndexError]; so is indexing
    a one-dimensional array with two index arrays. *)
Definition np_getitem_ix (a : ndarray) (idx : index_array) : result ndarray :=
  match idx with
  | FloatEmpty => Raise IndexError
  | IntIndex nodes =>
      match a with
      | Arr1 _ => Raise IndexError
      | Arr2 rows =>
          sel ← take rows nodes;
          sub ← mapR (λ r, take r nodes) sel;
          Ok (Arr2 sub)
      end
  end.

(** ** The store *)

(** Arrays are objects: a [Graph] made from an array holds that very array,
    not a copy.  The store lists the arrays allocated so far; a reference
    is a position in it. *)
Abbreviation loc := nat.
Abbreviation heap := (list ndarray).

(** Computations that read and write the store and may raise. *)
Definition py (A : Type) : Type := heap → result A * heap.

#[global] Instance py_ret : MRet py := λ A a h, (Ok a, h).
#[global] Instance py_bind : MBind py :=
  λ A B f m h,
    match m h with
    | (Ok a, h') => f a h'
    | (Raise e, h') => (Raise e, h')
    end.

Definition lift {A} (r : result A) : py A := λ h, (r, h).

Definition read (l : loc) : py ndarray :=
  λ h, match h !! l with
       | Some a => (Ok a, h)
       | None => (Raise BadRef, h)
       end.

Definition write (l : loc) (a : ndarray) : py unit :=
  λ h, (Ok tt, <[l:=a]> h).

Definition alloc (a : ndarray) : py loc :=
  λ h, (Ok (length h), h ++ [a]).

Ltac py_unfold :=
  unfold mbind, py_bind, mret, py_ret, lift, read, write, alloc in *.

(** [for x in l: f x] in the store, collecting the values. *)
Fixpoint mapP {A B} (f : A → py B) (l : list A) : py (list B) :=
  match l with
  | [] => mret []
  | x :: t => y ← f x; ys ← mapP f t; mret (y :: ys)
  end.

(** ** class Graph *)

(** A signature [(n, b, l)] and a CNAP, the list of [(signature, count)]. *)
Definition signature : Set := Z * Z * Z.
Definition CNAP : Set := list (signature * Z).

(** The [node_positions] argument.  The default is the Python list [[]];
    callers that have positions pass an array with one item per node.  The
    items are only moved around, never inspected, so their type is left
    open. *)
Inductive positions_t (item : Type) : Type :=
| PosList (l : list item)
| PosArray (rows : list item).
Arguments PosList {item} l.
Arguments PosArray {item} rows.

Record Graph (item : Type) : Type := mkGraph {
  adj_mat : loc;
  adj_list : list (list Z);
  positions : positions_t item;
  root_node : option Z
}.
Arguments mkGraph {item}.
Arguments adj_mat {item}.
Arguments adj_list {item}.
Arguments positions {item}.
Arguments root_node {item}.

Section GraphClass.
Context {item : Type}.

(** [make_adj_list]: one [np.where(row)[0]] per row of [adj_mat == 1].
    The rows of a one-dimensional array are scalars, on which numpy's
    [where] raises [ValueError] (numpy 2.1 and later; earlier versions
    warned).  Only a Graph made with [fill_diag=False] gets that far. *)
Definition make_adj_list_of (a : ndarray) : result (list (list Z)) :=
  match a with
  | Arr1 v => mapR (λ _ : Z, Raise ValueError) v
  | Arr2 rows => Ok ((λ row, np_where (eq1 row)) <$> rows)
  end.

(** [Graph.__init__].  [self.adj_mat = adj_mat] stores the reference, and
    [np.fill_diagonal(self.adj_mat, 0)] then writes through it. *)
Definition Graph_init (adj_mat : loc) (node_positions : positions_t item)
    (fill_diag : bool) (root_node : option Z) : py (Graph item) :=
  (if fill_diag then
     a ← read adj_mat;
     a' ← lift (np_fill_diagonal a 0);
     write adj_mat a'
   else mret tt);;
  a ← read adj_mat;
  al ← lift (make_adj_list_of a);
  mret (mkGraph adj_mat al node_positions root_node).

(** The keyword defaults of [__init__]. *)
Definition default_positions : positions_t item := PosList [].

(** [self.positions is not []]: the identity of [self.positions] is
    compared with that of a list made on the spot, which no existing
    object has. *)
Definition is_not_fresh_list (p : positions_t item) : bool := true.

(** [self.positions[nodes]] with [nodes] an array: a Python list cannot
    be indexed by an array ([TypeError]); an array gives the items at the
    indices. *)
Definition positions_getitem (p : positions_t item) (idx : index_array)
  : result (positions_t item) :=
  match p with
  | PosList _ => Raise TypeError
  | PosArray rows =>
      match idx with
      | FloatEmpty => Raise IndexError
      | IntIndex nodes => sel ← take rows nodes; Ok (PosArray sel)
      end
  end.

(** [make_subgraph] *)
Definition make_subgraph (self : Graph item) (nodes : pyseq)
  : py (Graph item) :=
  let nodes := np_array nodes in
  a ← read (adj_mat self);
  sub ← lift (np_getitem_ix a nodes);
  sub_adj_mat ← alloc sub;
  sub' ← lift (np_fill_diagonal sub 0);
  write sub_adj_mat sub';;
  if is_not_fresh_list (positions self) then
    p ← lift (positions_getitem (positions self) nodes);
    Graph_init sub_adj_mat p true None
  else
    Graph_init sub_adj_mat default_positions true None.

(** The body of [for w in self.adj_list[v]] in [longest_chain_from_node];
    the loop changes [max_lenght] and [stack].  The stack is kept with its
    top first. *)
Definition chain_visit (starting_node l : Z) (discovered : list Z)
    (st : Z * list (Z * Z)) (w : Z) : Z * list (Z * Z) :=
  let '(max_lenght, stack) := st in
  let max_lenght :=
    if (2 <=? l) && bool_decide (w = starting_node)
    then Z.max max_lenght (l + 1) else max_lenght in
  let stack :=
    if bool_decide (w ∉ discovered) then (w, l + 1) :: stack else stack in
  (max_lenght, stack).

(** The [while (len(stack) > 0)] loop, for at most [fuel] rounds; [None]
    when the rounds run out. *)
Fixpoint chain_loop (fuel : nat) (adj : list (list Z)) (starting_node : Z)
    (max_lenght : Z) (discovered : list Z) (stack : list (Z * Z))
  : option (result Z) :=
  match stack with
  | [] => Some (Ok max_lenght)
  | (v, l) :: stack =>
      match fuel with
      | O => None
      | S fuel =>
          if bool_decide (v ∉ discovered) then
            let discovered := discovered ++ [v] in
            let max_lenght := Z.max max_lenght l in
            match getitem adj v with
            | Raise e => Some (Raise e)
            | Ok ws =>
                let '(max_lenght, stack) :=
                  fold_left (chain_visit starting_node l discovered) ws
                            (max_lenght, stack) in
                chain_loop fuel adj starting_node max_lenght discovered stack
            end
          else chain_loop fuel adj starting_node max_lenght discovered stack
      end
  end.

(** Rounds that always suffice: every round pops one entry, and entries
    are pushed only while a node is discovered, at most one per neighbour
    listed for it. *)
Definition chain_fuel (adj : list (list Z)) : nat :=
  S (2 * sum_list (length <$> adj)).

(** [longest_chain_from_node] *)
Definition longest_chain_from_node (self : Graph item) (starting_node : Z)
  : result Z :=
  match chain_loop (chain_fuel (adj_list self)) (adj_list self)
                   starting_node 0 [] [(starting_node, 0)] with
  | Some r => r
  | None => Ok 0
  end.

(** [longest_chain] *)
Definition longest_chain (self : Graph item) : result Z :=
  fold_left
    (λ acc i, max_lenght ← acc;
              c ← longest_chain_from_node self (Z.of_nat i);
              Ok (Z.max c max_lenght))
    (seq 0 (length (adj_list self))) (Ok 0).

(** [unique_bonds] *)
Definition unique_bonds_of (a : ndarray) : list (list Z) :=
  let pairs := np_argwhere_eq1 a in
  let sorted_pairs := np_sort_axis1 pairs in
  let unique_pairs := np_unique lex_compare sorted_pairs in
  unique_pairs.

Definition unique_bonds (self : Graph item) : py (list (list Z)) :=
  a ← read (adj_mat self);
  mret (unique_bonds_of a).

(** [number_of_unique_bonds] *)
Definition number_of_unique_bonds (self : Graph item) : py Z :=
  b ← unique_bonds self;
  mret (Z.of_nat (length b)).

(** [number_of_nodes] *)
Definition number_of_nodes (self : Graph item) : py Z :=
  a ← read (adj_mat self);
  mret (shape0 a).

(** ** The pipeline *)

(** [i, j = bond]: unpacking a row of two entries. *)
Definition unpack2 (bond : list Z) : result (Z * Z) :=
  match bond with
  | [i; j] => Ok (i, j)
  | _ => Raise ValueError
  end.

(** [get_cns_subgraphs] *)
Definition get_cns_subgraphs (graph : Graph item) : py (list (Graph item)) :=
  bonds ← unique_bonds graph;
  mapP (λ bond,
          '(i, j) ← lift (unpack2 bond);
          ai ← lift (getitem (adj_list graph) i);
          aj ← lift (getitem (adj_list graph) j);
          make_subgraph graph (NdInt (np_intersect1d ai aj)))
       bonds.

(** [compute_signatures] *)
Definition compute_signatures (graph : Graph item) : py (list signature) :=
  subgraphs ← get_cns_subgraphs graph;
  mapP (λ subgraph,
          i ← number_of_nodes subgraph;
          j ← number_of_unique_bonds subgraph;
          k ← lift (longest_chain subgraph);
          mret (i, j, k))
       subgraphs.
End GraphClass.

(** The rows numpy makes of a list of signature tuples, and their order. *)
Definition sig_row (s : signature) : list Z :=
  let '(n, b, l) := s in [n; b; l].

Definition sig_compare (s t : signature) : comparison :=
  lex_compare (sig_row s) (sig_row t).

(** [get_occurrences] *)
Definition get_occurrences (signatures : list signature) : CNAP :=
  np_unique_counts sig_compare signatures.

(** [sigs_per_node[n].append(sig)] *)
Definition append_at (sigs_per_node : list (list signature)) (n : Z)
    (sig : signature) : result (list (list signature)) :=
  k ← py_index (length sigs_per_node) n;
  match sigs_per_node !! k with
  | Some l => Ok (<[k := l ++ [sig]]> sigs_per_node)
  | None => Raise IndexError
  end.

(** The body of [for sig, bond in zip(sigs, bonds)] in [get_CNAPs]. *)
Definition record_bond (acc : result (list (list signature)))
    (sb : signature * list Z) : result (list (list signature)) :=
  let '(sig, bond) := sb in
  sigs_per_node ← acc;
  '(n1, n2) ← unpack2 bond;
  sigs_per_node ← append_at sigs_per_node n1 sig;
  append_at sigs_per_node n2 sig.

(** [get_CNAPs] *)
Definition get_CNAPs {item} (graph : Graph item) : py (list CNAP) :=
  sigs ← compute_signatures graph;
  bonds ← unique_bonds graph;
  n ← number_of_nodes graph;
  let sigs_per_node := replicate (Z.to_nat n) [] in
  sigs_per_node ←
    lift (fold_left record_bond (zip sigs bonds) (Ok sigs_per_node));
  mret (get_occurrences <$> sigs_per_node).

(** [unique_CNAPs] *)
Definition unique_CNAPs (CNAPs : list CNAP) : list CNAP :=
  fold_left (λ out i, if bool_decide (i ∉ out) then out ++ [i] else out)
            CNAPs [].

(** [group_CNAPs] *)
Definition group_CNAPs (CNAPs : list CNAP) : list CNAP * list (list nat) :=
  let keys := unique_CNAPs CNAPs in
  let matching_indices :=
    (λ key, (filter (λ ic, ic.2 = key) (imap pair CNAPs)).*1) <$> keys in
  (keys, matching_indices).


(** ** Vocabulary of the statements *)

(** A comparison that decides a strict total order. *)
Class TotalCompare {A : Type} (cmp : A → A → comparison) : Prop := {
  cmp_eq x y : cmp x y = Eq ↔ x = y;
  cmp_antisym x y : cmp y x = CompOpp (cmp x y);
  cmp_trans x y z : cmp x y = Lt → cmp y z = Lt → cmp x z = Lt
}.

(** The orders a comparison decides. *)
Definition cmp_le {A} (cmp : A → A → comparison) (x y : A) : Prop :=
  cmp x y ≠ Gt.
Definition cmp_lt {A} (cmp : A → A → comparison) (x y : A) : Prop :=
  cmp x y = Lt.

(** Entry [(i, j)] of a matrix, when it has one. *)
Definition entry (rows : list (list Z)) (i j : nat) : option Z :=
  rows !! i ≫= (.!! j).

Definition symmetric (rows : list (list Z)) : Prop :=
  ∀ i j, entry rows i j = entry rows j i.

Definition zero_diagonal (rows : list (list Z)) : Prop :=
  ∀ i x, entry rows i i = Some x → x = 0.

Definition zero_one (rows : list (list Z)) : Prop :=
  ∀ i j x, entry rows i j = Some x → x = 0 ∨ x = 1.

(** A matrix with its diagonal set to zero. *)
Definition zeroed (rows : list (list Z)) : list (list Z) :=
  imap (λ k r, <[k:=0]> r) rows.

(** The adjacency list of a matrix. *)
Definition neighbours (rows : list (list Z)) : list (list Z) :=
  (λ row, np_where (eq1 row)) <$> rows.

(** Ascending order of signatures: first by [n], then [b], then [l]. *)
Definition sig_lt (s t : signature) : Prop :=
  let '(n, b, l) := s in
  let '(n', b', l') := t in
  n < n' ∨ (n = n' ∧ (b < b' ∨ (b = b' ∧ l < l'))).

(** How often [x] occurs in [l]. *)
Definition occurrences `{EqDecision A} (x : A) (l : list A) : Z :=
  Z.of_nat (length (filter (x =.) l)).

(** The sum of the counts of a CNAP. *)
Definition total_count (c : CNAP) : Z := foldr Z.add 0 (c.*2).

(** The bonds of a list that touch node [n]. *)
Definition incident (n : nat) (bonds : list (list Z)) : list (list Z) :=
  filter (λ b, Z.of_nat n ∈ b) bonds.

(** Python's reading of an index into a sequence of length [n]. *)
Definition wrap_index (n : nat) (i : Z) : Z :=
  if decide (i < 0) then Z.of_nat n + i else i.

(** The items of a sequence argument. *)
Definition items (nodes : pyseq) : list Z :=
  match nodes with
  | PyList l => l
  | NdInt l => l
  end.

Definition map_items (f : Z → Z) (nodes : pyseq) : pyseq :=
  match nodes with
  | PyList l => PyList (f <$> l)
  | NdInt l => NdInt (f <$> l)
  end.

(** A computation that only adds arrays to the store. *)
Definition grows {A} (m : py A) : Prop :=
  ∀ h r h', m h = (r, h') → h `prefix_of` h'.

(** What is left for the loop of [longest_chain_from_node] to push: the
    neighbours listed for the indices not yet discovered.  A row can be
    reached by its index and by its negative index. *)
Definition chain_weight (adj : list (list Z)) (discovered : list Z) : nat :=
  sum_list (imap (λ k ws, if decide (Z.of_nat k ∈ discovered)
                          then 0%nat else length ws) adj)
  + sum_list (imap (λ k ws, if decide (Z.of_nat k - Z.of_nat (length adj)
                                       ∈ discovered)
                            then 0%nat else length ws) adj).

(** Every neighbour an adjacency list names is one of its own indices. *)
Definition adj_closed (adj : list (list Z)) : Prop :=
  Forall (Forall (λ w, 0 ≤ w < Z.of_nat (length adj))) adj.

(** A Graph as the constructor leaves it: it refers to the matrix [R] in
    the store, and its adjacency list was read off [R]. *)
Definition built_on {item} (g : Graph item) (R : list (list Z)) (h : heap)
  : Prop :=
  h !! adj_mat g = Some (Arr2 R) ∧ adj_list g = neighbours R.

(** What [get_cns_subgraphs] makes of one bond [(i, j)] of [g]: a Graph as
    constructed, over a square matrix with a row per common neighbour of
    [i] and [j]. *)
Definition cns_of {item} (g : Graph item) (bond : list Z) (sg : Graph item)
    (h : heap) : Prop :=
  ∃ (i j : nat) ai aj s,
    bond = [Z.of_nat i; Z.of_nat j]
    ∧ adj_list g !! i = Some ai ∧ adj_list g !! j = Some aj
    ∧ built_on sg s h ∧ square s
    ∧ length s = length (np_intersect1d ai aj).

(** Two indices of a matrix that it joins, in one direction or the
    other. *)
Definition joined (rows : list (list Z)) (i j : nat) : Prop :=
  entry rows i j = Some 1 ∨ entry rows j i = Some 1.

#[global] Instance joined_dec rows i j : Decision (joined rows i j).
Proof. unfold joined. apply _. Defined.

(** The number of pairs of places [a < c] of a list of indices whose
    items are related by [E]. *)
Fixpoint linked_pairs (E : nat → nat → Prop) `{∀ x y, Decision (E x y)}
    (l : list nat) : nat :=
  match l with
  | [] => 0%nat
  | x :: t => (length (filter (E x) t) + linked_pairs E t)%nat
  end.

(** The common neighbours of [i] and [j] in a matrix, each listed once. *)
Definition common_neighbours (R : list (list Z)) (i j : nat)
    (cn : list nat) : Prop :=
  NoDup cn ∧ ∀ k, k ∈ cn ↔ entry R i k = Some 1 ∧ entry R j k = Some 1.

(** [s] is the matrix [R] taken at the rows and columns [idx], with its
    diagonal set to zero. *)
Definition induced_on (R s : list (list Z)) (idx : list nat) : Prop :=
  length s = length idx ∧ square s
  ∧ ∀ a b u v, idx !! a = Some u → idx !! b = Some v →
      entry s a b = if decide (a = b) then Some 0 else entry R u v.

(** [v] is listed as a neighbour of [u]. *)
Definition edge (adj : list (list Z)) (u v : Z) : Prop :=
  ∃ ws, getitem adj u = Ok ws ∧ v ∈ ws.

(** [chain_to adj s p v]: from [s], stepping along the adjacency list
    through the nodes [p], in this order, one arrives at [v]; the walk
    has [length p] steps. *)
Inductive chain_to (adj : list (list Z)) (s : Z) : list Z → Z → Prop :=
| chain_start : chain_to adj s [] s
| chain_step p u v :
    chain_to adj s p u → edge adj u v → chain_to adj s (p ++ [u]) v.

(** A walk of [m] steps from [s] that visits no node twice, or such a
    walk of [m - 1 >= 2] steps closed by a step back to [s]. *)
Definition chain_of_length (adj : list (list Z)) (s : Z) (m : Z) : Prop :=
  ∃ p v, chain_to adj s p v ∧ NoDup (p ++ [v])
         ∧ (Z.of_nat (length p) = m
            ∨ (Z.of_nat (length p) + 1 = m ∧ 2 ≤ Z.of_nat (length p)
               ∧ edge adj v s)).

(** The triangle 0-1, 1-2, 0-2 and the complete graph on four nodes. *)
Definition triangle : ndarray :=
  Arr2 [[0; 1; 1];
        [1; 0; 1];
        [1; 1; 0]].

Definition K4 : ndarray :=
  Arr2 [[0; 1; 1; 1];
        [1; 0; 1; 1];
        [1; 1; 0; 1];
        [1; 1; 1; 0]].

(** * Properties *)

(** ** Comparisons *)

Lemma lex_compare_eq r s : lex_compare r s = Eq ↔ r = s.
Proof.
  revert s. induction r as [|x r IH]; intros [|y s]; simpl; try (split; congruence).
  destruct (Z.compare_spec x y) as [->|Hlt|Hgt].
  - rewrite IH. split; congruence.
  - split; [discriminate | intros [=]; lia].
  - split; [discriminate | intros [=]; lia].
Qed.

Lemma lex_compare_antisym r s : lex_compare s r = CompOpp (lex_compare r s).
Proof.
  revert s. induction r as [|x r IH]; intros [|y s]; simpl; try done.
  rewrite (Z.compare_antisym x y).
  destruct (x ?= y); simpl; auto.
Qed.

Lemma lex_compare_trans r s t :
  lex_compare r s = Lt → lex_compare s t = Lt → lex_compare r t = Lt.
Proof.
  revert s t. induction r as [|x r IH]; intros [|y s] [|z t]; simpl; try done.
  destruct (Z.compare_spec x y) as [->|Hxy|Hxy]; try done.
  - destruct (Z.compare_spec y z) as [->|Hyz|Hyz]; try done. apply IH.
  - intros _. destruct (Z.compare_spec y z) as [->|Hyz|Hyz]; try done.
    + intros _. destruct (Z.compare_spec x z); try done; lia.
    + intros _. destruct (Z.compare_spec x z); try done; lia.
Qed.

#[global] Instance lex_compare_total : TotalCompare lex_compare.
Proof.
  split; [apply lex_compare_eq | apply lex_compare_antisym | apply lex_compare_trans].
Qed.

#[global] Instance Z_compare_total : TotalCompare Z.compare.
Proof.
  split.
  - intros x y. apply Z.compare_eq_iff.
  - intros x y. apply Z.compare_antisym.
  - intros x y z. rewrite !Z.compare_lt_iff. lia.
Qed.

Lemma sig_row_inj s t : sig_row s = sig_row t → s = t.
Proof. destruct s as [[??]?], t as [[??]?]. simpl. congruence. Qed.

#[global] Instance sig_compare_total : TotalCompare sig_compare.
Proof.
  unfold sig_compare. split.
  - intros x y. rewrite lex_compare_eq. split; [apply sig_row_inj | congruence].
  - intros x y. apply lex_compare_antisym.
  - intros x y z. apply lex_compare_trans.
Qed.

Lemma sig_compare_lt s t : sig_compare s t = Lt ↔ sig_lt s t.
Proof.
  destruct s as [[n b] l], t as [[n' b'] l']. unfold sig_compare, sig_lt. simpl.
  destruct (Z.compare_spec n n'), (Z.compare_spec b b'), (Z.compare_spec l l');
    split; try done; try lia; intros _; lia.
Qed.

(** ** Sorting and [np.unique] *)

Section SortingFacts.
Context {A : Type} (cmp : A → A → comparison) `{!TotalCompare cmp}.

Local Abbreviation cle := (cmp_le cmp).
Local Abbreviation clt := (cmp_lt cmp).

Lemma cmp_refl x : cmp x x = Eq.
Proof. by apply cmp_eq. Qed.

Lemma cmp_gt_lt x y : cmp x y = Gt → cmp y x = Lt.
Proof. intros H. by rewrite cmp_antisym, H. Qed.

Lemma cmp_le_cases x y : cle x y → x = y ∨ clt x y.
Proof.
  unfold cmp_le, cmp_lt. destruct (cmp x y) eqn:E; try done; auto.
  left. by apply cmp_eq.
Qed.

Lemma cmp_lt_irrefl x : ¬ clt x x.
Proof. unfold cmp_lt. by rewrite cmp_refl. Qed.

Lemma cmp_le_trans x y z : cle x y → cle y z → cle x z.
Proof.
  intros [->|Hxy]%cmp_le_cases [->|Hyz]%cmp_le_cases; unfold cmp_le, cmp_lt in *;
    try congruence.
  - rewrite cmp_refl. done.
  - by rewrite (cmp_trans _ _ _ Hxy Hyz).
Qed.

Lemma insert_sorted_perm x l : insert_sorted cmp x l ≡ₚ x :: l.
Proof.
  induction l as [|y t IH]; simpl; [done|].
  destruct (cmp x y); try done.
  rewrite IH. apply perm_swap.
Qed.

Lemma np_sort_perm l : np_sort cmp l ≡ₚ l.
Proof.
  induction l as [|x t IH]; simpl; [done|].
  by rewrite insert_sorted_perm, IH.
Qed.

Lemma insert_sorted_sorted x l :
  StronglySorted cle l → StronglySorted cle (insert_sorted cmp x l).
Proof.
  induction 1 as [|y t Ht IH Hy]; simpl.
  - repeat constructor.
  - destruct (cmp x y) eqn:E.
    + constructor; [by constructor|]. constructor; [unfold cmp_le; congruence|].
      apply cmp_eq in E as ->. done.
    + constructor; [by constructor|].
      assert (cle x y) by (unfold cmp_le; congruence).
      constructor; [done|]. eapply Forall_impl; [exact Hy|].
      intros z Hz. by eapply cmp_le_trans.
    + constructor; [done|]. rewrite insert_sorted_perm.
      constructor; [|done]. apply cmp_gt_lt in E. unfold cmp_le. congruence.
Qed.

Lemma np_sort_sorted l : StronglySorted cle (np_sort cmp l).
Proof.
  induction l as [|x t IH]; simpl; [constructor|].
  by apply insert_sorted_sorted.
Qed.

Lemma runs_nil l : runs cmp l = [] → l = [].
Proof.
  destruct l as [|x t]; [done|]. simpl.
  destruct (runs cmp t) as [|[y c] r]; [done|]. by destruct (cmp x y).
Qed.

Lemma runs_total l : foldr Z.add 0 (runs cmp l).*2 = Z.of_nat (length l).
Proof.
  induction l as [|x t IH]; [done|]. simpl.
  destruct (runs cmp t) as [|[y c] r] eqn:E.
  - apply runs_nil in E as ->. done.
  - simpl in IH. destruct (cmp x y); simpl; lia.
Qed.

Context `{!EqDecision A}.

Lemma occurrences_cons x y (l : list A) :
  occurrences x (y :: l) = (if decide (x = y) then 1 else 0) + occurrences x l.
Proof.
  unfold occurrences. rewrite filter_cons.
  destruct (decide (x = y)); simpl; lia.
Qed.

Lemma occurrences_not_elem x (l : list A) : x ∉ l → occurrences x l = 0.
Proof.
  induction l as [|y t IH]; [done|].
  rewrite not_elem_of_cons, occurrences_cons. intros [? ?].
  rewrite decide_False by done. rewrite IH by done. done.
Qed.

Lemma occurrences_perm x (l k : list A) :
  l ≡ₚ k → occurrences x l = occurrences x k.
Proof. intros H. unfold occurrences. by rewrite H. Qed.

Lemma StronglySorted_lt_head_not_elem x (l : list A) :
  Forall (clt x) l → x ∉ l.
Proof.
  intros H Hx. rewrite Forall_forall in H. by apply (cmp_lt_irrefl x), H.
Qed.

Lemma StronglySorted_lt_NoDup (l : list A) : StronglySorted clt l → NoDup l.
Proof.
  induction 1 as [|x l _ IH Hx]; constructor; [|done].
  by apply StronglySorted_lt_head_not_elem.
Qed.

(** What [runs] makes of a sorted list. *)
Lemma runs_sorted l :
  StronglySorted cle l →
  StronglySorted clt (runs cmp l).*1
  ∧ (∀ x, x ∈ (runs cmp l).*1 ↔ x ∈ l)
  ∧ (∀ x c, (x, c) ∈ runs cmp l → c = occurrences x l).
Proof.
  induction 1 as [|x t Ht IH Hx]; simpl.
  { split_and!; [constructor | done | intros ?? []%elem_of_nil]. }
  destruct IH as (S1 & M1 & C1).
  destruct (runs cmp t) as [|[y c] r] eqn:E.
  { apply runs_nil in E as ->. simpl. split_and!.
    - repeat constructor.
    - done.
    - intros z d Hz%list_elem_of_singleton. injection Hz as -> ->.
      rewrite occurrences_cons, decide_True by done. done. }
  simpl in S1, M1.
  assert (Hy : y ∈ t) by (apply M1; left).
  assert (Hxy : cle x y) by (rewrite Forall_forall in Hx; by apply Hx).
  apply StronglySorted_inv in S1 as [Sr Hr].
  destruct (cmp x y) eqn:Exy; [| |done].
  - apply (cmp_eq (cmp:=cmp)) in Exy as <-. simpl. split_and!.
    + by constructor.
    + intros z. rewrite M1, (elem_of_cons t z x). split; [by right|].
      intros [->|?]; [done|done].
    + intros z d [Hz|Hz]%elem_of_cons.
      * injection Hz as -> ->. rewrite occurrences_cons, decide_True by done.
        rewrite <-(C1 x c) by left. lia.
      * rewrite occurrences_cons, decide_False.
        { apply C1. by right. }
        intros ->. apply (StronglySorted_lt_head_not_elem x r.*1 Hr).
        apply list_elem_of_fmap. by exists (x, d).
  - assert (Hall : Forall (clt x) (y :: r.*1)).
    { constructor; [done|]. eapply Forall_impl; [exact Hr|].
      intros z Hz. by eapply (cmp_trans (cmp:=cmp)). }
    assert (Hnx : ∀ z, z ∈ t → z ≠ x).
    { intros z Hz%M1 ->. by apply (StronglySorted_lt_head_not_elem x _ Hall). }
    simpl. split_and!.
    + constructor; [by constructor | done].
    + intros z. rewrite !elem_of_cons, <-(M1 z), elem_of_cons. done.
    + intros z d [Hz|Hz]%elem_of_cons.
      * injection Hz as -> ->. rewrite occurrences_cons, decide_True by done.
        rewrite occurrences_not_elem; [done|]. intros ?. by eapply Hnx.
      * rewrite occurrences_cons, decide_False; [by apply C1|].
        intros ->. eapply Hnx; [|done]. apply M1.
        change (x ∈ ((y, c) :: r).*1).
        apply list_elem_of_fmap. by exists (x, d).
Qed.

Lemma np_unique_sorted l : StronglySorted clt (np_unique cmp l).
Proof. apply runs_sorted, np_sort_sorted. Qed.

Lemma np_unique_NoDup l : NoDup (np_unique cmp l).
Proof. apply StronglySorted_lt_NoDup, np_unique_sorted. Qed.

Lemma elem_of_np_unique x l : x ∈ np_unique cmp l ↔ x ∈ l.
Proof.
  unfold np_unique, np_unique_counts.
  destruct (runs_sorted _ (np_sort_sorted l)) as (_ & M & _).
  by rewrite M, np_sort_perm.
Qed.

Lemma np_unique_counts_occurrences x c l :
  (x, c) ∈ np_unique_counts cmp l → c = occurrences x l.
Proof.
  unfold np_unique_counts. intros H.
  destruct (runs_sorted _ (np_sort_sorted l)) as (_ & _ & C).
  rewrite (C x c H). apply occurrences_perm, np_sort_perm.
Qed.

Lemma np_unique_counts_total l :
  foldr Z.add 0 (np_unique_counts cmp l).*2 = Z.of_nat (length l).
Proof.
  unfold np_unique_counts. by rewrite runs_total, np_sort_perm.
Qed.
End SortingFacts.

(** ** [get_occurrences] *)

Lemma StronglySorted_impl {A} (R1 R2 : A → A → Prop) (l : list A) :
  (∀ x y, R1 x y → R2 x y) → StronglySorted R1 l → StronglySorted R2 l.
Proof.
  intros HR. induction 1 as [|x l _ IH Hx]; constructor; [done|].
  eapply Forall_impl; [exact Hx|]. intros y. apply HR.
Qed.

(** C4: for every list of signature triples, [get_occurrences] returns the
    distinct triples of the input, each once, each paired with the number
    of times it occurs in the input, in ascending lexicographic order of
    the triple (first [n], then [b], then [l]). *)
Theorem get_occurrences_sorted_counts (signatures : list signature) :
  StronglySorted sig_lt (get_occurrences signatures).*1
  ∧ NoDup (get_occurrences signatures).*1
  ∧ (∀ s, s ∈ (get_occurrences signatures).*1 ↔ s ∈ signatures)
  ∧ (∀ s c, (s, c) ∈ get_occurrences signatures →
            c = occurrences s signatures).
Proof.
  unfold get_occurrences. split_and!.
  - eapply StronglySorted_impl; [|apply (np_unique_sorted sig_compare)].
    intros x y. apply sig_compare_lt.
  - apply (np_unique_NoDup sig_compare).
  - intros s. apply (elem_of_np_unique sig_compare).
  - intros s c. apply (np_unique_counts_occurrences sig_compare).
Qed.

Lemma get_occurrences_total (signatures : list signature) :
  total_count (get_occurrences signatures) = Z.of_nat (length signatures).
Proof. apply (np_unique_counts_total sig_compare). Qed.

(** ** [unique_CNAPs] and [group_CNAPs] *)

Lemma unique_CNAPs_acc (l acc : list CNAP) :
  NoDup acc →
  NoDup (fold_left (λ out i, if bool_decide (i ∉ out) then out ++ [i] else out)
                   l acc)
  ∧ ∀ c, c ∈ fold_left (λ out i, if bool_decide (i ∉ out) then out ++ [i]
                                 else out) l acc
         ↔ c ∈ acc ∨ c ∈ l.
Proof.
  revert acc. induction l as [|x l IH]; intros acc Hacc; simpl.
  { split; [done|]. intros c. rewrite elem_of_nil. tauto. }
  case_bool_decide as Hx.
  - destruct (IH (acc ++ [x])) as [IH1 IH2].
    { apply NoDup_app. split_and!; [done| |apply NoDup_singleton].
      intros y Hy ->%list_elem_of_singleton. done. }
    split; [done|]. intros c. rewrite IH2, elem_of_app, list_elem_of_singleton,
      elem_of_cons. tauto.
  - destruct (IH acc Hacc) as [IH1 IH2]. split; [done|].
    intros c. rewrite IH2, elem_of_cons.
    split; [tauto|]. intros [?|[->|?]]; auto.
Qed.

Lemma unique_CNAPs_NoDup (CNAPs : list CNAP) : NoDup (unique_CNAPs CNAPs).
Proof. apply unique_CNAPs_acc, NoDup_nil_2. Qed.

Lemma elem_of_unique_CNAPs (CNAPs : list CNAP) c :
  c ∈ unique_CNAPs CNAPs ↔ c ∈ CNAPs.
Proof.
  unfold unique_CNAPs. destruct (unique_CNAPs_acc CNAPs [] (NoDup_nil_2)) as [_ H].
  rewrite H, elem_of_nil. tauto.
Qed.

(** The indices [group_CNAPs] collects for one key. *)
Lemma elem_of_matching (CNAPs : list CNAP) (key : CNAP) (i : nat) :
  i ∈ (filter (λ ic : nat * CNAP, ic.2 = key) (imap pair CNAPs)).*1
  ↔ CNAPs !! i = Some key.
Proof.
  rewrite list_elem_of_fmap. split.
  - intros ([j c] & -> & [Hc Hin]%list_elem_of_filter). simpl in *.
    apply elem_of_lookup_imap in Hin as (j' & c' & [= -> ->] & Hl). by subst.
  - intros Hl. exists (i, key). split; [done|].
    apply list_elem_of_filter. split; [done|].
    apply elem_of_lookup_imap. eauto.
Qed.

Lemma matching_NoDup (CNAPs : list CNAP) (key : CNAP) :
  NoDup (filter (λ ic : nat * CNAP, ic.2 = key) (imap pair CNAPs)).*1.
Proof.
  apply NoDup_fmap_2_strong.
  - intros [i c] [j d] [Hc Hi]%list_elem_of_filter [Hd Hj]%list_elem_of_filter.
    simpl in *. intros ->. congruence.
  - apply NoDup_filter. apply NoDup_alt. intros i j [k c].
    rewrite !list_lookup_imap. intros Hi Hj.
    destruct (CNAPs !! i), (CNAPs !! j); simpl in *; congruence.
Qed.

Lemma sum_indicator_0 (keys : list CNAP) (c : CNAP) :
  c ∉ keys →
  sum_list ((λ key, if decide (c = key) then 1 else 0)%nat <$> keys) = 0%nat.
Proof.
  induction keys as [|k keys IH]; [done|].
  intros [? ?]%not_elem_of_cons. csimpl.
  rewrite decide_False by done. by rewrite IH.
Qed.

Lemma sum_indicator (keys : list CNAP) (c : CNAP) :
  NoDup keys → c ∈ keys →
  sum_list ((λ key, if decide (c = key) then 1 else 0)%nat <$> keys) = 1%nat.
Proof.
  induction 1 as [|k keys Hk Hnd IH]; [by intros ?%elem_of_nil|].
  intros Hc. csimpl. destruct (decide (c = k)) as [Heq|Hne].
  - subst. by rewrite sum_indicator_0.
  - apply elem_of_cons in Hc as [?|Hc]; [done|]. by rewrite IH.
Qed.

Lemma sum_matching (keys : list CNAP) (L : list (nat * CNAP)) :
  NoDup keys → (∀ ic, ic ∈ L → ic.2 ∈ keys) →
  sum_list ((λ key, length (filter (λ ic : nat * CNAP, ic.2 = key) L).*1)
              <$> keys) = length L.
Proof.
  intros Hnd. induction L as [|x L IH]; intros HL.
  { clear. induction keys as [|k keys IHk]; [done|]. csimpl. exact IHk. }
  assert (Hx := sum_indicator keys x.2 Hnd (HL x ltac:(left))).
  assert (IH' := IH (λ ic Hic, HL ic ltac:(by right))).
  change (length (x :: L)) with (1 + length L)%nat. rewrite <-IH', <-Hx.
  clear. induction keys as [|k keys IHk]; [done|]. csimpl.
  rewrite IHk, filter_cons.
  destruct (decide (x.2 = k)); csimpl; lia.
Qed.

(** C6: for every list of N CNAPs, [group_CNAPs] returns the distinct CNAPs
    and, aligned with them, groups of indices such that group [k] holds
    exactly the indices whose CNAP equals key [k]; every index below N is
    in exactly one group, no group lists an index twice, every listed index
    is below N, and the sizes of the groups add up to N. *)
Theorem group_CNAPs_partition (CNAPs : list CNAP) :
  let keys := (group_CNAPs CNAPs).1 in
  let groups := (group_CNAPs CNAPs).2 in
  length groups = length keys
  ∧ (∀ k key grp, keys !! k = Some key → groups !! k = Some grp →
       ∀ i, i ∈ grp ↔ CNAPs !! i = Some key)
  ∧ (∀ i, (i < length CNAPs)%nat →
       ∃ k grp, groups !! k = Some grp ∧ i ∈ grp
                ∧ ∀ k' grp', groups !! k' = Some grp' → i ∈ grp' → k' = k)
  ∧ Forall NoDup groups
  ∧ (∀ grp i, grp ∈ groups → i ∈ grp → (i < length CNAPs)%nat)
  ∧ sum_list (length <$> groups) = length CNAPs.
Proof.
  unfold group_CNAPs. simpl.
  set (keys := unique_CNAPs CNAPs).
  set (grp_of := λ key : CNAP,
         (filter (λ ic : nat * CNAP, ic.2 = key) (imap pair CNAPs)).*1).
  assert (Hgrp : ∀ k grp, (grp_of <$> keys) !! k = Some grp →
                 ∃ key, keys !! k = Some key ∧ grp = grp_of key).
  { intros k grp. rewrite list_lookup_fmap.
    destruct (keys !! k) as [key|]; [|done]. intros [= <-]. eauto. }
  split_and!.
  - apply length_fmap.
  - intros k key grp Hk (key' & Hk' & ->)%Hgrp i.
    assert (key' = key) as -> by congruence. apply elem_of_matching.
  - intros i Hi. apply lookup_lt_is_Some_2 in Hi as [c Hc].
    assert (c ∈ keys) as [k Hk]%list_elem_of_lookup.
    { apply elem_of_unique_CNAPs, list_elem_of_lookup. eauto. }
    exists k, (grp_of c). split_and!.
    + by rewrite list_lookup_fmap, Hk.
    + by apply elem_of_matching.
    + intros k' grp' (key' & Hk' & ->)%Hgrp Hin%elem_of_matching.
      assert (key' = c) as -> by congruence.
      eapply NoDup_lookup; [apply unique_CNAPs_NoDup|done..].
  - apply Forall_fmap, Forall_forall. intros key _. apply matching_NoDup.
  - intros grp i (key & -> & _)%list_elem_of_fmap Hin%elem_of_matching.
    by eapply lookup_lt_Some.
  - rewrite <-list_fmap_compose. unfold compose, grp_of.
    rewrite sum_matching, length_imap; [done|apply unique_CNAPs_NoDup|].
    intros [i c] (j & c' & [= -> ->] & Hl)%elem_of_lookup_imap. simpl.
    apply elem_of_unique_CNAPs, list_elem_of_lookup. eauto.
Qed.

(** ** The store and [Graph.__init__] *)

Lemma entry_Some rows i j x :
  entry rows i j = Some x ↔ ∃ row, rows !! i = Some row ∧ row !! j = Some x.
Proof.
  unfold entry. destruct (rows !! i) as [row|]; simpl.
  - split; [eauto|]. by intros (? & [= ->] & ?).
  - split; [done|]. by intros (? & ? & ?).
Qed.

Lemma entry_zeroed rows i j :
  entry (zeroed rows) i j
  = if decide (i = j) then (λ _, 0) <$> entry rows i j else entry rows i j.
Proof.
  unfold entry, zeroed. rewrite list_lookup_imap.
  destruct (rows !! i) as [row|]; simpl; [|by destruct (decide _)].
  destruct (decide (i = j)) as [->|Hne].
  - destruct (row !! j) as [x|] eqn:E.
    + apply list_lookup_insert_eq. by eapply lookup_lt_Some.
    + simpl. rewrite list_insert_ge; [done|]. by apply lookup_ge_None.
  - by apply list_lookup_insert_ne.
Qed.

Lemma zeroed_id rows : zero_diagonal rows → zeroed rows = rows.
Proof.
  intros Hz. unfold zeroed. apply list_eq. intros i.
  rewrite list_lookup_imap. destruct (rows !! i) as [row|] eqn:E; [|done].
  simpl. f_equal. destruct (row !! i) as [x|] eqn:Ex.
  - apply list_insert_id. rewrite Ex. f_equal.
    apply (Hz i). apply entry_Some. eauto.
  - apply list_insert_ge. by apply lookup_ge_None.
Qed.

Lemma zeroed_zero_diagonal rows : zero_diagonal (zeroed rows).
Proof.
  intros i x. rewrite entry_zeroed, decide_True by done.
  destruct (entry rows i i); simpl; congruence.
Qed.

Lemma zeroed_idemp rows : zeroed (zeroed rows) = zeroed rows.
Proof. apply zeroed_id, zeroed_zero_diagonal. Qed.

Lemma length_zeroed rows : length (zeroed rows) = length rows.
Proof. apply length_imap. Qed.

Section GraphFacts.
Context {item : Type}.
Implicit Types (g : Graph item) (h : heap).

(** Construction from a two-dimensional array never fails: the diagonal
    is zeroed in the caller's array when [fill_diag] is set, and the
    graph refers to that array. *)
Lemma Graph_init_Arr2 h a rows (pos : positions_t item) fd root :
  h !! a = Some (Arr2 rows) →
  Graph_init a pos fd root h
  = (Ok (mkGraph a (neighbours (if fd then zeroed rows else rows)) pos root),
     if fd then <[a := Arr2 (zeroed rows)]> h else h).
Proof.
  intros Ha. unfold Graph_init. py_unfold. destruct fd.
  - rewrite Ha. simpl.
    rewrite list_lookup_insert_eq by (by eapply lookup_lt_Some). done.
  - rewrite Ha. done.
Qed.

(** With the default [fill_diag], a one-dimensional array is refused. *)
Lemma Graph_init_Arr1 h a v (pos : positions_t item) root :
  h !! a = Some (Arr1 v) →
  Graph_init a pos true root h = (Raise ValueError, h).
Proof. intros Ha. unfold Graph_init. py_unfold. by rewrite Ha. Qed.

(** Whatever the outcome, construction changes no other array. *)
Lemma Graph_init_frame h a (pos : positions_t item) fd root r h' :
  Graph_init a pos fd root h = (r, h') →
  length h' = length h ∧ ∀ l, l ≠ a → h' !! l = h !! l.
Proof.
  unfold Graph_init. py_unfold. destruct fd.
  - destruct (h !! a) as [[v|rows]|] eqn:Ha; simpl.
    + by intros [= <- <-].
    + rewrite list_lookup_insert_eq by (by eapply lookup_lt_Some).
      intros [= <- <-]. split; [apply length_insert|].
      intros l Hl. by apply list_lookup_insert_ne.
    + by intros [= <- <-].
  - destruct (h !! a) as [x|] eqn:Ha; [|by intros [= <- <-]].
    destruct (make_adj_list_of x); by intros [= <- <-].
Qed.

Lemma unique_bonds_read g h a :
  h !! adj_mat g = Some a →
  unique_bonds g h = (Ok (unique_bonds_of a), h).
Proof. intros Ha. unfold unique_bonds. py_unfold. by rewrite Ha. Qed.

Lemma number_of_nodes_read g h a :
  h !! adj_mat g = Some a →
  number_of_nodes g h = (Ok (shape0 a), h).
Proof. intros Ha. unfold number_of_nodes. py_unfold. by rewrite Ha. Qed.

Lemma number_of_unique_bonds_read g h a :
  h !! adj_mat g = Some a →
  number_of_unique_bonds g h
  = (Ok (Z.of_nat (length (unique_bonds_of a))), h).
Proof.
  intros Ha. unfold number_of_unique_bonds.
  unfold mbind, py_bind. rewrite (unique_bonds_read _ _ _ Ha). done.
Qed.
End GraphFacts.

(** ** [unique_bonds] *)

Lemma elem_of_where_from k mask z :
  z ∈ where_from k mask ↔ ∃ n : nat, mask !! n = Some true ∧ z = k + Z.of_nat n.
Proof.
  revert k. induction mask as [|b t IH]; intros k; simpl.
  { rewrite elem_of_nil. split; [done|]. by intros (n & ? & _). }
  assert (Ht : z ∈ where_from (k + 1) t
               ↔ ∃ n : nat, t !! n = Some true ∧ z = k + Z.of_nat (S n)).
  { rewrite IH. split; intros (n & ? & ->); exists n; split; auto; lia. }
  destruct b.
  - rewrite elem_of_cons, Ht. split.
    + intros [->|(n & ? & ->)]; [exists 0%nat | exists (S n)]; split; auto; lia.
    + intros ([|n] & Hn & ->); [left; lia | right; eauto].
  - rewrite Ht. split.
    + intros (n & ? & ->). exists (S n). auto.
    + intros ([|n] & Hn & ->); [done | eauto].
Qed.

Lemma elem_of_np_where_eq1 row z :
  z ∈ np_where (eq1 row) ↔ ∃ n : nat, row !! n = Some 1 ∧ z = Z.of_nat n.
Proof.
  unfold np_where, eq1. rewrite elem_of_where_from.
  split; intros (n & Hn & ->); exists n; (split; [|lia]).
  - rewrite list_lookup_fmap in Hn. destruct (row !! n) as [x|]; [|done].
    simpl in Hn. injection Hn as Hn. apply bool_decide_eq_true in Hn. by subst.
  - rewrite list_lookup_fmap, Hn. done.
Qed.

Lemma elem_of_concat {A} (x : A) (ls : list (list A)) :
  x ∈ concat ls ↔ ∃ l, x ∈ l ∧ l ∈ ls.
Proof.
  induction ls as [|l ls IH]; simpl.
  - rewrite elem_of_nil. split; [done|]. by intros (? & _ & ?%elem_of_nil).
  - rewrite elem_of_app, IH. split.
    + intros [?|(l' & ? & ?)]; [exists l | exists l']; split; auto;
        [left | by right].
    + intros (l' & ? & [->|?]%elem_of_cons); [by left | right; eauto].
Qed.

Lemma elem_of_argwhere rows b :
  b ∈ np_argwhere_eq1 (Arr2 rows)
  ↔ ∃ i j : nat, entry rows i j = Some 1 ∧ b = [Z.of_nat i; Z.of_nat j].
Proof.
  unfold np_argwhere_eq1. rewrite elem_of_concat. split.
  - intros (l & Hb & (i & row & -> & Hi)%elem_of_lookup_imap).
    apply list_elem_of_fmap in Hb as (z & -> & (j & Hj & ->)%elem_of_np_where_eq1).
    exists i, j. split; [|done]. apply entry_Some. eauto.
  - intros (i & j & (row & Hi & Hj)%entry_Some & ->).
    eexists. split; [|by eapply elem_of_lookup_imap_2, Hi].
    apply list_elem_of_fmap. exists (Z.of_nat j). split; [done|].
    apply elem_of_np_where_eq1. eauto.
Qed.

Lemma np_sort_pair (x y : Z) : np_sort Z.compare [x; y] = [Z.min x y; Z.max x y].
Proof.
  simpl. destruct (Z.compare_spec x y); f_equal; try f_equal; lia.
Qed.

Lemma elem_of_unique_bonds_of rows b :
  b ∈ unique_bonds_of (Arr2 rows)
  ↔ ∃ i j : nat, entry rows i j = Some 1
                 ∧ b = [Z.min (Z.of_nat i) (Z.of_nat j);
                        Z.max (Z.of_nat i) (Z.of_nat j)].
Proof.
  unfold unique_bonds_of, np_sort_axis1.
  rewrite (elem_of_np_unique lex_compare), list_elem_of_fmap. split.
  - intros (p & -> & (i & j & He & ->)%elem_of_argwhere).
    exists i, j. split; [done|]. apply np_sort_pair.
  - intros (i & j & He & ->). exists [Z.of_nat i; Z.of_nat j].
    split; [by rewrite np_sort_pair|]. apply elem_of_argwhere. eauto.
Qed.

(** The bonds of a symmetric matrix with a zero diagonal. *)
Lemma unique_bonds_of_symmetric rows :
  symmetric rows → zero_diagonal rows →
  NoDup (unique_bonds_of (Arr2 rows))
  ∧ ∀ b, b ∈ unique_bonds_of (Arr2 rows)
         ↔ ∃ i j : nat, (i < j)%nat ∧ entry rows i j = Some 1
                        ∧ b = [Z.of_nat i; Z.of_nat j].
Proof.
  intros Hsym Hz. split; [apply (np_unique_NoDup lex_compare)|].
  intros b. rewrite elem_of_unique_bonds_of. split.
  - intros (i & j & He & ->).
    destruct (lt_eq_lt_dec i j) as [[Hlt| ->]|Hgt].
    + exists i, j. split_and!; [done..|]. f_equal; [|f_equal]; lia.
    + by apply Hz in He.
    + exists j, i. split_and!; [done|by rewrite Hsym|]. f_equal; [|f_equal]; lia.
  - intros (i & j & Hlt & He & ->). exists i, j. split; [done|].
    f_equal; [|f_equal]; lia.
Qed.

(** C5: for every Graph built from a symmetric 0/1 matrix with zero
    diagonal, [unique_bonds] holds exactly the pairs [(i, j)] with [i < j]
    and [relation[i][j] = 1], each once. *)
Theorem unique_bonds_exact {item} (h : heap) (a : loc) (rows : list (list Z))
    (pos : positions_t item) (fill_diag : bool) (root : option Z)
    (g : Graph item) (h' : heap) :
  h !! a = Some (Arr2 rows) →
  square rows → symmetric rows → zero_diagonal rows → zero_one rows →
  Graph_init a pos fill_diag root h = (Ok g, h') →
  ∃ bonds, unique_bonds g h' = (Ok bonds, h')
    ∧ NoDup bonds
    ∧ ∀ b, b ∈ bonds
           ↔ ∃ i j : nat, (i < j)%nat ∧ entry rows i j = Some 1
                          ∧ b = [Z.of_nat i; Z.of_nat j].
Proof.
  intros Ha _ Hsym Hz _. rewrite (Graph_init_Arr2 _ _ _ _ _ _ Ha).
  rewrite (zeroed_id rows Hz). intros [= <- <-].
  assert (Hh : (if fill_diag then <[a:=Arr2 rows]> h else h) = h).
  { destruct fill_diag; [|done]. by apply list_insert_id. }
  rewrite Hh. exists (unique_bonds_of (Arr2 rows)). split.
  - by apply unique_bonds_read.
  - by apply unique_bonds_of_symmetric.
Qed.

Lemma unique_bonds_exact_witness :
  ∃ bonds,
    unique_bonds (mkGraph 0%nat [[1; 2]; [0; 2]; [0; 1]]
                    (default_positions (item:=unit)) None) [triangle]
    = (Ok bonds, [triangle])
    ∧ NoDup bonds
    ∧ ∀ b, b ∈ bonds
           ↔ ∃ i j : nat, (i < j)%nat
                          ∧ entry [[0; 1; 1]; [1; 0; 1]; [1; 1; 0]] i j = Some 1
                          ∧ b = [Z.of_nat i; Z.of_nat j].
Proof.
  apply (unique_bonds_exact [triangle] 0%nat [[0; 1; 1]; [1; 0; 1]; [1; 1; 0]]
           default_positions true None _ [triangle]).
  - reflexivity.
  - repeat constructor.
  - intros [|[|[|i]]] [|[|[|j]]]; reflexivity.
  - intros [|[|[|i]]] x; unfold entry; simpl; congruence.
  - intros [|[|[|i]]] [|[|[|j]]] x; unfold entry; simpl; intros [= <-]; auto.
  - vm_compute. reflexivity.
Defined.

(** ** [make_subgraph] *)

Lemma np_getitem_ix_Ok a idx sub :
  np_getitem_ix a idx = Ok sub →
  ∃ rows nodes sel s,
    a = Arr2 rows ∧ idx = IntIndex nodes ∧ sub = Arr2 s
    ∧ take rows nodes = Ok sel ∧ mapR (λ r, take r nodes) sel = Ok s.
Proof.
  destruct idx as [nodes|]; [|done]. destruct a as [v|rows]; [done|]. simpl.
  unfold mbind, result_bind.
  destruct (take rows nodes) as [sel|] eqn:E1; [|done].
  destruct (mapR _ sel) as [s|] eqn:E2; [|done].
  intros [= <-]. by exists rows, nodes, sel, s.
Qed.

Lemma snoc_insert_last (h : heap) (x y : ndarray) :
  <[length h := y]> (h ++ [x]) = h ++ [y].
Proof.
  rewrite <-(Nat.add_0_r (length h)) at 1. by rewrite insert_app_r.
Qed.

Section MakeSubgraphFacts.
Context {item : Type}.
Implicit Types (g : Graph item) (h : heap).

(** The steps of [make_subgraph], in order. *)
Lemma make_subgraph_unfold g nodes h :
  make_subgraph g nodes h =
  match h !! adj_mat g with
  | None => (Raise BadRef, h)
  | Some a =>
      match np_getitem_ix a (np_array nodes) with
      | Raise e => (Raise e, h)
      | Ok sub =>
          match np_fill_diagonal sub 0 with
          | Raise e => (Raise e, h ++ [sub])
          | Ok sub' =>
              match positions_getitem (positions g) (np_array nodes) with
              | Raise e => (Raise e, h ++ [sub'])
              | Ok p => Graph_init (length h) p true None (h ++ [sub'])
              end
          end
      end
  end.
Proof.
  unfold make_subgraph, is_not_fresh_list. py_unfold.
  destruct (h !! adj_mat g) as [a|]; [|done].
  destruct (np_getitem_ix a (np_array nodes)) as [sub|]; [|done].
  destruct (np_fill_diagonal sub 0) as [sub'|]; [|done].
  rewrite snoc_insert_last.
  by destruct (positions_getitem (positions g) (np_array nodes)).
Qed.

(** A successful call: the new graph refers to a fresh array, the
    selected entries with the diagonal zeroed. *)
Lemma make_subgraph_Ok g nodes h rows idx sel s p :
  h !! adj_mat g = Some (Arr2 rows) →
  np_array nodes = IntIndex idx →
  take rows idx = Ok sel →
  mapR (λ r, take r idx) sel = Ok s →
  positions_getitem (positions g) (IntIndex idx) = Ok p →
  make_subgraph g nodes h
  = (Ok (mkGraph (length h) (neighbours (zeroed s)) p None),
     h ++ [Arr2 (zeroed s)]).
Proof.
  intros Ha Hn Hsel Hs Hp. rewrite make_subgraph_unfold, Ha, Hn. simpl.
  unfold mbind, result_bind. rewrite Hsel, Hs. simpl.
  fold (zeroed s). rewrite Hp.
  rewrite (Graph_init_Arr2 _ _ (zeroed s)).
  - by rewrite zeroed_idemp, snoc_insert_last.
  - by rewrite lookup_app_r, Nat.sub_diag.
Qed.

(** Every outcome of [make_subgraph] leaves the arrays that existed
    before the call as they were; at most one array is added. *)
Lemma make_subgraph_heap g nodes h r h' :
  make_subgraph g nodes h = (r, h') →
  h' = h ∨ ∃ x, h' = h ++ [x].
Proof.
  rewrite make_subgraph_unfold.
  destruct (h !! adj_mat g) as [a|]; [|intros [= <- <-]; by left].
  destruct (np_getitem_ix a (np_array nodes)) as [sub|] eqn:E;
    [|intros [= <- <-]; by left].
  apply np_getitem_ix_Ok in E as (rows & idx & sel & s & -> & Hn & -> & _ & _).
  simpl. fold (zeroed s).
  destruct (positions_getitem (positions g) (np_array nodes)) as [p|].
  - rewrite (Graph_init_Arr2 _ _ (zeroed s))
      by (by rewrite lookup_app_r, Nat.sub_diag).
    rewrite snoc_insert_last. intros [= <- <-]. right. eauto.
  - intros [= <- <-]. right. eauto.
Qed.

Lemma make_subgraph_prefix g nodes h r h' :
  make_subgraph g nodes h = (r, h') → h `prefix_of` h'.
Proof.
  intros [->|[x ->]]%make_subgraph_heap; [done|]. by apply prefix_app_r.
Qed.

(** A graph whose positions are a Python list, the default among them,
    has no subgraphs: [self.positions[nodes]] is always evaluated. *)
Lemma make_subgraph_PosList g nodes h l :
  positions g = PosList l →
  ∃ e h', make_subgraph g nodes h = (Raise e, h').
Proof.
  intros Hp. rewrite make_subgraph_unfold, Hp.
  destruct (h !! adj_mat g) as [a|]; [|eauto].
  destruct (np_getitem_ix a (np_array nodes)) as [sub|] eqn:E; [|eauto].
  apply np_getitem_ix_Ok in E as (rows & idx & sel & s & -> & Hn & -> & _ & _).
  simpl. eauto.
Qed.
End MakeSubgraphFacts.

(** ** Indices *)

Lemma py_index_Ok n i k :
  py_index n i = Ok k →
  (k < n)%nat ∧ - Z.of_nat n ≤ i < Z.of_nat n ∧ Z.of_nat k = wrap_index n i.
Proof.
  unfold py_index, wrap_index. repeat case_decide; intros [= <-]; lia.
Qed.

Lemma py_index_Raise n i e :
  py_index n i = Raise e →
  e = IndexError ∧ ¬ (- Z.of_nat n ≤ i < Z.of_nat n).
Proof.
  unfold py_index. repeat case_decide; intros [= <-]. split; [done|lia].
Qed.

Lemma py_index_range n i :
  - Z.of_nat n ≤ i < Z.of_nat n →
  py_index n i = Ok (Z.to_nat (wrap_index n i)).
Proof.
  intros Hi. unfold py_index, wrap_index. repeat case_decide; try lia; done.
Qed.

Lemma getitem_Raise {A} (l : list A) i e :
  getitem l i = Raise e →
  e = IndexError ∧ ¬ (- Z.of_nat (length l) ≤ i < Z.of_nat (length l)).
Proof.
  unfold getitem, mbind, result_bind.
  destruct (py_index (length l) i) as [k|e'] eqn:E.
  - apply py_index_Ok in E as (Hk & _ & _).
    apply lookup_lt_is_Some_2 in Hk as [x ->]. done.
  - intros [= <-]. by apply py_index_Raise in E.
Qed.

Lemma getitem_Ok {A} (l : list A) i x :
  getitem l i = Ok x →
  - Z.of_nat (length l) ≤ i < Z.of_nat (length l)
  ∧ l !! Z.to_nat (wrap_index (length l) i) = Some x.
Proof.
  unfold getitem, mbind, result_bind.
  destruct (py_index (length l) i) as [k|e'] eqn:E; [|done].
  apply py_index_Ok in E as (Hk & Hi & Hw).
  destruct (l !! k) as [y|] eqn:Ey; [|done]. intros [= <-].
  split; [done|]. by rewrite <-Hw, Nat2Z.id.
Qed.

Lemma getitem_range {A} (l : list A) i :
  - Z.of_nat (length l) ≤ i < Z.of_nat (length l) →
  ∃ x, getitem l i = Ok x.
Proof.
  intros Hi. destruct (getitem l i) as [x|e] eqn:E; [eauto|].
  apply getitem_Raise in E as [_ ?]. done.
Qed.

Lemma getitem_nat {A} (l : list A) (i : nat) x :
  l !! i = Some x → getitem l (Z.of_nat i) = Ok x.
Proof.
  intros Hl. unfold getitem, py_index, mbind, result_bind.
  apply lookup_lt_Some in Hl as Hi.
  rewrite decide_True by lia. by rewrite Nat2Z.id, Hl.
Qed.

Lemma getitem_wrap {A} (l : list A) i :
  - Z.of_nat (length l) ≤ i < Z.of_nat (length l) →
  getitem l i = getitem l (wrap_index (length l) i).
Proof.
  intros Hi. unfold getitem.
  assert (Hw : - Z.of_nat (length l) ≤ wrap_index (length l) i
               < Z.of_nat (length l))
    by (unfold wrap_index; case_decide; lia).
  rewrite (py_index_range _ _ Hi), (py_index_range _ _ Hw).
  replace (wrap_index (length l) (wrap_index (length l) i))
    with (wrap_index (length l) i); [done|].
  unfold wrap_index. repeat case_decide; lia.
Qed.

(** [take] fails exactly when an index is out of range, with [IndexError]. *)
Lemma take_Raise {A} (l : list A) idx e :
  take l idx = Raise e →
  e = IndexError
  ∧ ∃ i, i ∈ idx ∧ ¬ (- Z.of_nat (length l) ≤ i < Z.of_nat (length l)).
Proof.
  unfold take. induction idx as [|i idx IH]; simpl; [done|].
  destruct (getitem l i) as [x|e'] eqn:E.
  - destruct (mapR (getitem l) idx) as [xs|e''] eqn:E'; [done|].
    intros [= <-]. destruct IH as [-> (j & ? & ?)]; [done|].
    split; [done|]. exists j. split; [by right | done].
  - intros [= <-]. apply getitem_Raise in E as [-> ?].
    split; [done|]. exists i. split; [left | done].
Qed.

Lemma take_out_of_range {A} (l : list A) idx i :
  i ∈ idx → ¬ (- Z.of_nat (length l) ≤ i < Z.of_nat (length l)) →
  take l idx = Raise IndexError.
Proof.
  unfold take. induction idx as [|j idx IH]; [by intros ?%elem_of_nil|].
  intros [Heq|Hin]%elem_of_cons Hr; simpl.
  - subst j. destruct (getitem l i) as [x|e] eqn:E.
    + by apply getitem_Ok in E as [? _].
    + by apply getitem_Raise in E as [-> _].
  - destruct (getitem l j) as [x|e] eqn:E.
    + by rewrite IH.
    + by apply getitem_Raise in E as [-> _].
Qed.

Lemma mapR_Ok_length {A B} (f : A → result B) l ys :
  mapR f l = Ok ys → length ys = length l.
Proof.
  revert ys. induction l as [|x l IH]; intros ys; simpl; [by intros [= <-]|].
  destruct (f x); [|done]. destruct (mapR f l) as [zs|]; [|done].
  intros [= <-]. simpl. by rewrite (IH zs).
Qed.

Lemma mapR_Ok_lookup {A B} (f : A → result B) l ys i x :
  mapR f l = Ok ys → l !! i = Some x → ∃ y, ys !! i = Some y ∧ f x = Ok y.
Proof.
  revert ys i. induction l as [|a l IH]; intros ys i; simpl; [done|].
  destruct (f a) as [b|] eqn:Ea; [|done].
  destruct (mapR f l) as [zs|]; [|done]. intros [= <-].
  destruct i as [|i]; simpl.
  - intros [= <-]. eauto.
  - intros Hl. by apply (IH zs i).
Qed.

Lemma mapR_ext {A B} (f g : A → result B) l :
  (∀ x, x ∈ l → f x = g x) → mapR f l = mapR g l.
Proof.
  induction l as [|x l IH]; intros H; simpl; [done|].
  rewrite (H x) by left. rewrite IH; [done|]. intros y Hy. apply H. by right.
Qed.

Lemma mapR_fmap {A B C} (f : B → result C) (g : A → B) l :
  mapR f (g <$> l) = mapR (f ∘ g) l.
Proof. induction l as [|x l IH]; csimpl; [done|]. by rewrite IH. Qed.

(** ** Construction and shapes *)

(** C7, as stated, fails: a matrix of one row and three columns is not
    square, and [Graph] accepts it. *)
Lemma Graph_init_accepts_non_square :
  ¬ square [[0; 1; 1]]
  ∧ ∃ g h', Graph_init (item:=unit) 0%nat default_positions true None
              [Arr2 [[0; 1; 1]]] = (Ok g, h').
Proof.
  split.
  - intros H. apply Forall_cons in H as [H _]. discriminate H.
  - eexists _, _. vm_compute. reflexivity.
Qed.

(** C7, amended: with the default [fill_diag], [Graph] refuses a
    one-dimensional array with a [ValueError] and leaves it untouched; it
    makes no check on a two-dimensional array, square or not, and returns a
    Graph on that array with one adjacency list per row. *)
Theorem Graph_init_shape {item} (h : heap) (a : loc)
    (pos : positions_t item) (root : option Z) :
  (∀ v, h !! a = Some (Arr1 v) →
        Graph_init a pos true root h = (Raise ValueError, h))
  ∧ (∀ rows fill_diag, h !! a = Some (Arr2 rows) →
       ∃ g h', Graph_init a pos fill_diag root h = (Ok g, h')
               ∧ adj_mat g = a
               ∧ length (adj_list g) = length rows).
Proof.
  split.
  - intros v Ha. by eapply Graph_init_Arr1.
  - intros rows fd Ha. eexists _, _. split; [by apply Graph_init_Arr2|].
    split; [done|]. simpl. unfold neighbours. rewrite length_fmap.
    destruct fd; [apply length_zeroed | done].
Qed.

Lemma Graph_init_shape_witness :
  Graph_init (item:=unit) 0%nat default_positions true None [Arr1 [0; 1]]
  = (Raise ValueError, [Arr1 [0; 1]])
  ∧ ∃ g h', Graph_init (item:=unit) 0%nat default_positions true None
              [Arr2 [[0; 1; 1]]] = (Ok g, h')
            ∧ adj_mat g = 0%nat
            ∧ length (adj_list g) = length [[0; 1; 1]].
Proof.
  split.
  - apply (proj1 (Graph_init_shape [Arr1 [0; 1]] 0%nat default_positions None)
             [0; 1]).
    reflexivity.
  - apply (proj2 (Graph_init_shape [Arr2 [[0; 1; 1]]] 0%nat default_positions
                    None) [[0; 1; 1]] true).
    reflexivity.
Defined.

(** ** Purity *)

(** C9, as stated, fails: constructing a Graph on a matrix of ones with the
    default [fill_diag] changes the caller's matrix. *)
Lemma Graph_init_mutates_argument :
  ∃ g h', Graph_init (item:=unit) 0%nat default_positions true None
            [Arr2 [[1; 1]; [1; 1]]] = (Ok g, h')
          ∧ h' !! 0%nat = Some (Arr2 [[0; 1]; [1; 0]])
          ∧ h' !! 0%nat ≠ [Arr2 [[1; 1]; [1; 1]]] !! 0%nat.
Proof. eexists _, _. split_and!; [vm_compute; reflexivity | done | done]. Qed.

(** C9, amended: constructing a Graph on a matrix with the default
    [fill_diag] sets the diagonal of the caller's matrix to zero in place
    and changes no other entry and no other array; the matrix is unchanged
    when its diagonal is zero already or when [fill_diag] is off.
    [make_subgraph] leaves every array that exists at the call, the
    parent's adjacency matrix among them, unchanged. *)
Theorem core_effects {item} :
  (∀ (h : heap) (a : loc) rows (pos : positions_t item) root r h',
     h !! a = Some (Arr2 rows) →
     Graph_init a pos true root h = (r, h') →
     (∃ rows', h' !! a = Some (Arr2 rows')
        ∧ ∀ i j, entry rows' i j
                 = if decide (i = j) then (λ _, 0) <$> entry rows i j
                   else entry rows i j)
     ∧ (∀ l, l ≠ a → h' !! l = h !! l)
     ∧ (zero_diagonal rows → h' = h))
  ∧ (∀ (h : heap) (a : loc) (pos : positions_t item) root r h',
       Graph_init a pos false root h = (r, h') → h' = h)
  ∧ (∀ (g : Graph item) nodes (h : heap) r h' l x,
       make_subgraph g nodes h = (r, h') →
       h !! l = Some x → h' !! l = Some x).
Proof.
  split_and!.
  - intros h a rows pos root r h' Ha.
    rewrite (Graph_init_Arr2 _ _ _ _ _ _ Ha). intros [= <- <-]. split_and!.
    + exists (zeroed rows). split; [|apply entry_zeroed].
      apply list_lookup_insert_eq. by eapply lookup_lt_Some.
    + intros l Hl. by apply list_lookup_insert_ne.
    + intros Hz. rewrite (zeroed_id _ Hz). by apply list_insert_id.
  - intros h a pos root r h'. unfold Graph_init. py_unfold.
    destruct (h !! a) as [x|]; [|by intros [= _ <-]].
    destruct (make_adj_list_of x); by intros [= _ <-].
  - intros g nodes h r h' l x Hm Hl.
    eapply prefix_lookup_Some; [done|]. by eapply make_subgraph_prefix.
Qed.

Lemma core_effects_witness :
  ((∃ rows', [Arr2 [[0; 1]; [1; 0]]; Arr1 [7]] !! 0%nat = Some (Arr2 rows')
      ∧ ∀ i j, entry rows' i j
               = if decide (i = j)
                 then (λ _, 0) <$> entry [[1; 1]; [1; 1]] i j
                 else entry [[1; 1]; [1; 1]] i j)
   ∧ (∀ l, l ≠ 0%nat →
           [Arr2 [[0; 1]; [1; 0]]; Arr1 [7]] !! l
           = [Arr2 [[1; 1]; [1; 1]]; Arr1 [7]] !! l)
   ∧ (zero_diagonal [[1; 1]; [1; 1]] →
      [Arr2 [[0; 1]; [1; 0]]; Arr1 [7]] = [Arr2 [[1; 1]; [1; 1]]; Arr1 [7]]))
  ∧ [Arr2 [[1; 1]; [1; 1]]] = [Arr2 [[1; 1]; [1; 1]]]
  ∧ [Arr2 [[0; 1]; [1; 0]]; Arr2 [[0; 1]; [1; 0]]] !! 0%nat
    = Some (Arr2 [[0; 1]; [1; 0]]).
Proof.
  destruct (@core_effects unit) as (H1 & H2 & H3). split; [|split].
  - apply (H1 [Arr2 [[1; 1]; [1; 1]]; Arr1 [7]] 0%nat [[1; 1]; [1; 1]]
              default_positions None
              (Ok (mkGraph 0%nat [[1]; [0]] default_positions None))).
    + reflexivity.
    + vm_compute. reflexivity.
  - apply (H2 [Arr2 [[1; 1]; [1; 1]]] 0%nat default_positions None
              (Ok (mkGraph 0%nat [[0; 1]; [0; 1]] default_positions None))).
    vm_compute. reflexivity.
  - apply (H3 (mkGraph 0%nat [[1]; [0]] (PosArray [(); ()]) None)
              (PyList [1; 0]) [Arr2 [[0; 1]; [1; 0]]]
              (Ok (mkGraph 1%nat [[1]; [0]] (PosArray [(); ()]) None))).
    + vm_compute. reflexivity.
    + reflexivity.
Defined.

(** ** Index ranges in [make_subgraph] *)

Lemma np_array_items nodes :
  items nodes ≠ [] → np_array nodes = IntIndex (items nodes).
Proof. by destruct nodes as [[|??]|?]. Qed.

Lemma np_array_map_items f nodes :
  np_array (map_items f nodes)
  = match np_array nodes with
    | IntIndex l => IntIndex (f <$> l)
    | FloatEmpty => FloatEmpty
    end.
Proof. by destruct nodes as [[|??]|?]. Qed.

Lemma take_wrap {A} (l : list A) idx :
  Forall (λ i, - Z.of_nat (length l) ≤ i < Z.of_nat (length l)) idx →
  take l idx = take l (wrap_index (length l) <$> idx).
Proof.
  intros Hr. unfold take. rewrite mapR_fmap. apply mapR_ext.
  intros i Hi. rewrite Forall_forall in Hr. simpl. by apply getitem_wrap, Hr.
Qed.

Lemma take_elem_of {A} (l : list A) idx sel x :
  take l idx = Ok sel → x ∈ sel → x ∈ l.
Proof.
  unfold take. revert sel. induction idx as [|i idx IH]; intros sel; simpl.
  { by intros [= <-] ?%elem_of_nil. }
  destruct (getitem l i) as [y|] eqn:E; [|done].
  destruct (mapR (getitem l) idx) as [ys|]; [|done]. intros [= <-].
  intros [->|Hx]%elem_of_cons; [|by eapply IH].
  apply getitem_Ok in E as [_ E]. by eapply list_elem_of_lookup_2.
Qed.

(** C8, as stated, fails: on a Graph of two nodes the index [-1] lies
    outside [0, 2), and [make_subgraph] returns a Graph. *)
Lemma make_subgraph_accepts_negative :
  ∃ g h sg h',
    Graph_init (item:=unit) 0%nat (PosArray [(); ()]) true None
      [Arr2 [[0; 1]; [1; 0]]] = (Ok g, h)
    ∧ number_of_nodes g h = (Ok 2, h)
    ∧ ¬ (0 ≤ -1 < 2)
    ∧ make_subgraph g (PyList [-1]) h = (Ok sg, h').
Proof.
  eexists _, _, _, _. split_and!.
  - vm_compute. reflexivity.
  - vm_compute. reflexivity.
  - lia.
  - vm_compute. reflexivity.
Qed.

(** C8, amended: for every Graph on an N-row matrix, [make_subgraph] with
    an index list holding a value outside [-N, N) fails with [IndexError],
    returns no Graph and changes nothing.  Values in [-N, 0) are not
    refused: on a square matrix (with positions, if any, for N nodes) a
    list of values in [-N, N) gives what the list with N added to each
    negative value gives. *)
Theorem make_subgraph_index_range {item} (g : Graph item) (h : heap)
    (rows : list (list Z)) (nodes : pyseq) :
  h !! adj_mat g = Some (Arr2 rows) →
  (∀ i, i ∈ items nodes →
        ¬ (- Z.of_nat (length rows) ≤ i < Z.of_nat (length rows)) →
        make_subgraph g nodes h = (Raise IndexError, h))
  ∧ (square rows →
     (∀ ps, positions g = PosArray ps → length ps = length rows) →
     Forall (λ i, - Z.of_nat (length rows) ≤ i < Z.of_nat (length rows))
            (items nodes) →
     make_subgraph g nodes h
     = make_subgraph g (map_items (wrap_index (length rows)) nodes) h).
Proof.
  intros Ha. split.
  - intros i Hi Hr. rewrite make_subgraph_unfold, Ha.
    rewrite np_array_items by (intros Hn; rewrite Hn in Hi; by apply elem_of_nil in Hi).
    simpl. by rewrite (take_out_of_range rows _ i Hi Hr).
  - intros Hsq Hps Hr. rewrite !make_subgraph_unfold, Ha, np_array_map_items.
    destruct (np_array nodes) as [idx|] eqn:Hn; [|done].
    assert (idx = items nodes) as ->.
    { destruct nodes as [[|??]|?]; simpl in *; congruence. }
    assert (Hix : np_getitem_ix (Arr2 rows) (IntIndex (items nodes))
                  = np_getitem_ix (Arr2 rows)
                      (IntIndex (wrap_index (length rows) <$> items nodes))).
    { simpl. rewrite <-take_wrap by done.
      destruct (take rows (items nodes)) as [sel|] eqn:Hsel; [|done]. simpl.
      f_equal. apply mapR_ext. intros r Hin.
      assert (length r = length rows) as <-.
      { eapply (proj1 (Forall_forall _ _) Hsq), take_elem_of; done. }
      apply take_wrap.
      assert (length r = length rows) as ->; [|done].
      eapply (proj1 (Forall_forall _ _) Hsq), take_elem_of; done. }
    rewrite <-Hix.
    destruct (np_getitem_ix (Arr2 rows) (IntIndex (items nodes))); [|done].
    destruct (np_fill_diagonal a 0); [|done].
    assert (Hpg : positions_getitem (positions g) (IntIndex (items nodes))
                  = positions_getitem (positions g)
                      (IntIndex (wrap_index (length rows) <$> items nodes))).
    { destruct (positions g) as [l|ps] eqn:Hp; [done|]. simpl.
      rewrite <-(Hps ps eq_refl). rewrite <-take_wrap; [done|].
      by rewrite (Hps ps eq_refl). }
    by rewrite Hpg.
Qed.

Lemma make_subgraph_index_range_witness :
  make_subgraph (mkGraph 0%nat [[1]; [0]] (PosArray [(); ()]) None)
    (PyList [0; 2]) [Arr2 [[0; 1]; [1; 0]]]
  = (Raise IndexError, [Arr2 [[0; 1]; [1; 0]]])
  ∧ make_subgraph (mkGraph 0%nat [[1]; [0]] (PosArray [(); ()]) None)
      (PyList [-1; 0]) [Arr2 [[0; 1]; [1; 0]]]
    = make_subgraph (mkGraph 0%nat [[1]; [0]] (PosArray [(); ()]) None)
        (map_items (wrap_index 2) (PyList [-1; 0])) [Arr2 [[0; 1]; [1; 0]]].
Proof.
  split.
  - apply (proj1 (make_subgraph_index_range
                    (mkGraph 0%nat [[1]; [0]] (PosArray [(); ()]) None)
                    [Arr2 [[0; 1]; [1; 0]]] [[0; 1]; [1; 0]] (PyList [0; 2])
                    eq_refl) 2).
    + simpl. apply elem_of_cons. right. left.
    + simpl. lia.
  - apply (proj2 (make_subgraph_index_range
                    (mkGraph 0%nat [[1]; [0]] (PosArray [(); ()]) None)
                    [Arr2 [[0; 1]; [1; 0]]] [[0; 1]; [1; 0]] (PyList [-1; 0])
                    eq_refl)).
    + repeat constructor.
    + intros ps [= <-]. reflexivity.
    + simpl. repeat constructor; lia.
Defined.

(** ** The induced subgraph *)

Lemma mapR_total {A B} (f : A → result B) (l : list A) :
  (∀ x, x ∈ l → ∃ y, f x = Ok y) → ∃ ys, mapR f l = Ok ys.
Proof.
  induction l as [|x l IH]; intros H; simpl; [eauto|].
  destruct (H x) as [y ->]; [left|].
  destruct IH as [ys ->]; [|eauto]. intros z Hz. apply H. by right.
Qed.

Lemma take_nat_lookup {A} (l : list A) (idx : list nat) sel :
  take l (Z.of_nat <$> idx) = Ok sel →
  length sel = length idx
  ∧ ∀ a i, idx !! a = Some i → sel !! a = l !! i ∧ (i < length l)%nat.
Proof.
  unfold take. intros H. split.
  { by rewrite (mapR_Ok_length _ _ _ H), length_fmap. }
  intros a i Ha.
  destruct (mapR_Ok_lookup _ _ _ a (Z.of_nat i) H) as (y & Hy & Hg).
  { by rewrite list_lookup_fmap, Ha. }
  apply getitem_Ok in Hg as [Hr Hl]. unfold wrap_index in Hl.
  rewrite decide_False, Nat2Z.id in Hl by lia. split; [congruence | lia].
Qed.

Lemma take_nat_Ok {A} (l : list A) (idx : list nat) :
  Forall (λ i, (i < length l)%nat) idx →
  ∃ sel, take l (Z.of_nat <$> idx) = Ok sel.
Proof.
  intros Hr. apply mapR_total. intros z (i & -> & Hi)%list_elem_of_fmap.
  apply getitem_range. rewrite Forall_forall in Hr. specialize (Hr i Hi). lia.
Qed.

Lemma zeroed_rectangular c rows : rectangular c rows → rectangular c (zeroed rows).
Proof.
  unfold rectangular, zeroed. rewrite !Forall_lookup. intros H k r.
  rewrite list_lookup_imap. destruct (rows !! k) as [r'|] eqn:E; [|done].
  intros [= <-]. rewrite length_insert. by eapply H.
Qed.

(** What [make_subgraph] returns on a Graph that carries a position per
    node, for indices in [0, N): a Graph on a fresh matrix with one row and
    one column per index, in the order given, whose entry [(a, b)] is the
    parent's entry at the [a]-th and [b]-th index off the diagonal and 0 on
    it, and whose positions are the parent's at the indices. *)
Lemma make_subgraph_induced {item} (g : Graph item) (h : heap)
    (rows : list (list Z)) (ps : list item) (nodes : pyseq) (idx : list nat) :
  h !! adj_mat g = Some (Arr2 rows) →
  square rows →
  positions g = PosArray ps → length ps = length rows →
  np_array nodes = IntIndex (Z.of_nat <$> idx) →
  Forall (λ i, (i < length rows)%nat) idx →
  ∃ s ps',
    make_subgraph g nodes h
    = (Ok (mkGraph (length h) (neighbours s) (PosArray ps') None),
       h ++ [Arr2 s])
    ∧ length s = length idx ∧ square s ∧ length ps' = length idx
    ∧ (∀ a b i j, idx !! a = Some i → idx !! b = Some j →
         entry s a b = if decide (a = b) then Some 0 else entry rows i j)
    ∧ (∀ a i, idx !! a = Some i → ps' !! a = ps !! i).
Proof.
  intros Ha Hsq Hp Hlen Hn Hr.
  destruct (take_nat_Ok rows idx Hr) as [sel Hsel].
  destruct (take_nat_lookup _ _ _ Hsel) as [Lsel Hsel'].
  assert (Hrows : ∀ r, r ∈ sel → length r = length rows).
  { intros r Hin. eapply (proj1 (Forall_forall _ _) Hsq), take_elem_of; done. }
  destruct (mapR_total (λ r, take r (Z.of_nat <$> idx)) sel) as [s0 Hs0].
  { intros r Hin. apply take_nat_Ok. by rewrite (Hrows r Hin). }
  destruct (take_nat_Ok ps idx) as [ps' Hps']; [by rewrite Hlen|].
  destruct (take_nat_lookup _ _ _ Hps') as [Lps' Hps''].
  assert (Ls0 : length s0 = length idx).
  { by rewrite (mapR_Ok_length _ _ _ Hs0). }
  assert (Hs0' : ∀ a b i j, idx !! a = Some i → idx !! b = Some j →
                   entry s0 a b = entry rows i j ∧ is_Some (entry rows i j)).
  { intros a b i j Hi Hj. destruct (Hsel' a i Hi) as [Hsa Hlt].
    apply lookup_lt_is_Some_2 in Hlt as [row Hrow]. rewrite Hrow in Hsa.
    destruct (mapR_Ok_lookup _ _ _ a row Hs0 Hsa) as (ra & Hra & Htake).
    destruct (take_nat_lookup _ _ _ Htake) as [_ Hra'].
    destruct (Hra' b j Hj) as [Hrab Hjlt].
    unfold entry. rewrite Hra, Hrow. simpl. split; [done|].
    by apply lookup_lt_is_Some_2. }
  exists (zeroed s0), ps'. split_and!.
  - eapply make_subgraph_Ok; [done..|]. by rewrite Hp; simpl; rewrite Hps'.
  - by rewrite length_zeroed.
  - unfold square. rewrite length_zeroed. apply zeroed_rectangular.
    apply Forall_lookup. intros a ra Hra.
    assert (is_Some (sel !! a)) as [row Hrow].
    { apply lookup_lt_is_Some_2. apply lookup_lt_Some in Hra.
      by rewrite <-(mapR_Ok_length _ _ _ Hs0). }
    destruct (mapR_Ok_lookup _ _ _ a row Hs0 Hrow) as (ra' & Hra2 & Htake).
    assert (ra' = ra) as -> by congruence.
    destruct (take_nat_lookup _ _ _ Htake) as [-> _]. by rewrite Ls0.
  - done.
  - intros a b i j Hi Hj. rewrite entry_zeroed.
    destruct (Hs0' a b i j Hi Hj) as [-> [x ->]].
    by destruct (decide (a = b)).
  - intros a i Hi. by apply Hps''.
Qed.

(** ** Subgraphs without positions *)

(** C1: the claim fails on the code at a Graph without positions.  On the
    Graph of the single bond 0-1 built with the default [node_positions],
    [make_subgraph([0, 1])] extracts the matrix and then raises [TypeError]
    on [self.positions[nodes]]. *)
Theorem make_subgraph_default_positions_raises :
  ∃ g, Graph_init (item:=unit) 0%nat default_positions true None
         [Arr2 [[0; 1]; [1; 0]]] = (Ok g, [Arr2 [[0; 1]; [1; 0]]])
       ∧ make_subgraph g (PyList [0; 1]) [Arr2 [[0; 1]; [1; 0]]]
         = (Raise TypeError, [Arr2 [[0; 1]; [1; 0]]; Arr2 [[0; 1]; [1; 0]]]).
Proof. eexists. split; vm_compute; reflexivity. Qed.

(** No index list helps: a Graph constructed without positions has no
    subgraph at all. *)
Lemma make_subgraph_default_positions_never {item} (h : heap) (a : loc)
    (fill_diag : bool) (root : option Z) (g : Graph item) (h1 : heap)
    (nodes : pyseq) (h2 : heap) :
  Graph_init a default_positions fill_diag root h = (Ok g, h1) →
  ∃ e h3, make_subgraph g nodes h2 = (Raise e, h3).
Proof.
  intros Hg. apply (make_subgraph_PosList g nodes h2 []).
  revert Hg. unfold Graph_init. py_unfold.
  destruct fill_diag.
  - destruct (h !! a) as [x|]; [|done].
    destruct (np_fill_diagonal x 0); [|done]. simpl.
    destruct (_ !! a) as [y|]; [|done].
    destruct (make_adj_list_of y); [|done]. by intros [= <- _].
  - destruct (h !! a) as [y|]; [|done].
    destruct (make_adj_list_of y); [|done]. by intros [= <- _].
Qed.

(** ** The triangle and the complete graph *)

(** The ring closure: at depth 2 or more, a neighbour that is the starting
    node lifts the maximum to one more than the depth, and is not pushed. *)
Lemma chain_visit_ring_closure (s l mx : Z) (discovered : list Z)
    (stack : list (Z * Z)) :
  2 ≤ l → s ∈ discovered →
  chain_visit s l discovered (mx, stack) s
  = (Z.max mx (l + 1), stack).
Proof.
  intros Hl Hs. unfold chain_visit.
  rewrite (proj2 (Z.leb_le 2 l) Hl), bool_decide_eq_true_2 by done. simpl.
  by rewrite bool_decide_eq_false_2 by (intros H; by apply H).
Qed.

(** C2: on the triangle 0-1, 1-2, 0-2, a graph of three nodes,
    [longest_chain_from_node(0)] returns 3.  The value comes from the ring
    closure: node 1 is visited at depth 2 with maximum 2, and its neighbour
    0, the starting node, lifts the maximum to 3. *)
Theorem triangle_longest_chain_from_0 :
  ∃ g h,
    Graph_init (item:=unit) 0%nat default_positions true None [triangle]
    = (Ok g, h)
    ∧ number_of_nodes g h = (Ok 3, h)
    ∧ longest_chain_from_node g 0 = Ok 3
    ∧ chain_loop 1 (adj_list g) 0 1 [0; 2] [(1, 2)] = Some (Ok 3)
    ∧ chain_visit 0 2 [0; 2; 1] (2, []) 0 = (3, []).
Proof. eexists _, _. split_and!; vm_compute; reflexivity. Qed.

(** C3: the claim fails on the code at the Graph of K4 constructed without
    positions: [compute_signatures] and [get_CNAPs] raise [TypeError] in
    the first [make_subgraph].  On the Graph of K4 constructed with a
    position per node, whatever the positions, all six bonds have the
    signature (2, 1, 1), all four nodes have the CNAP [((2, 1, 1), 3)],
    and [group_CNAPs] returns the one group [0; 1; 2; 3]. *)
Theorem K4_signatures_and_groups :
  (∃ g h',
     Graph_init (item:=unit) 0%nat default_positions true None [K4]
     = (Ok g, [K4])
     ∧ compute_signatures g [K4] = (Raise TypeError, h')
     ∧ get_CNAPs g [K4] = (Raise TypeError, h'))
  ∧ (∀ (item : Type) (p0 p1 p2 p3 : item),
       ∃ g bonds h' cnaps,
         Graph_init 0%nat (PosArray [p0; p1; p2; p3]) true None [K4]
         = (Ok g, [K4])
         ∧ unique_bonds g [K4] = (Ok bonds, [K4])
         ∧ length bonds = 6%nat
         ∧ compute_signatures g [K4] = (Ok (replicate 6 (2, 1, 1)), h')
         ∧ get_CNAPs g [K4] = (Ok cnaps, h')
         ∧ cnaps = replicate 4 [((2, 1, 1), 3)]
         ∧ group_CNAPs cnaps
           = ([[((2, 1, 1), 3)]], [[0; 1; 2; 3]%nat])).
Proof.
  split.
  - eexists _, _. split_and!; vm_compute; reflexivity.
  - intros item p0 p1 p2 p3. eexists _, _, _, _.
    split_and!; try (vm_compute; reflexivity).
Qed.

(** ** Termination of [longest_chain_from_node] *)

Lemma sum_imap_le {A} (f g : nat → A → nat) (l : list A) :
  (∀ k x, l !! k = Some x → (f k x ≤ g k x)%nat) →
  (sum_list (imap f l) ≤ sum_list (imap g l))%nat.
Proof.
  revert f g. induction l as [|x l IH]; intros f g H; [done|].
  rewrite !imap_cons. simpl.
  specialize (IH (f ∘ S) (g ∘ S) (λ k y Hk, H (S k) y Hk)).
  specialize (H 0%nat x eq_refl). lia.
Qed.

Lemma sum_imap_drop {A} (f g : nat → A → nat) (l : list A) k x d :
  (∀ k x, l !! k = Some x → (f k x ≤ g k x)%nat) →
  l !! k = Some x → (f k x + d ≤ g k x)%nat →
  (sum_list (imap f l) + d ≤ sum_list (imap g l))%nat.
Proof.
  revert f g k. induction l as [|y l IH]; intros f g k H Hk Hd; [done|].
  rewrite !imap_cons. simpl. destruct k as [|k].
  - injection Hk as ->.
    pose proof (sum_imap_le (f ∘ S) (g ∘ S) l (λ k y Hk, H (S k) y Hk)). lia.
  - specialize (IH (f ∘ S) (g ∘ S) k (λ k y Hk, H (S k) y Hk) Hk Hd).
    specialize (H 0%nat y eq_refl). lia.
Qed.

Lemma chain_weight_bound adj discovered :
  (chain_weight adj discovered ≤ 2 * sum_list (length <$> adj))%nat.
Proof.
  unfold chain_weight. rewrite <-(imap_const length adj).
  pose proof (sum_imap_le
    (λ k ws, if decide (Z.of_nat k ∈ discovered) then 0%nat else length ws)
    (const length) adj) as H1.
  pose proof (sum_imap_le
    (λ k ws, if decide (Z.of_nat k - Z.of_nat (length adj) ∈ discovered)
             then 0%nat else length ws)
    (const length) adj) as H2.
  unfold const in *.
  assert (∀ (P : nat → Prop) `{∀ k, Decision (P k)} (k : nat) (x : list Z),
            adj !! k = Some x →
            ((if decide (P k) then 0 else length x) ≤ length x)%nat) as Hle.
  { intros P ? k x _. destruct (decide (P k)); lia. }
  specialize (H1 (Hle (λ k, Z.of_nat k ∈ discovered) _)).
  specialize (H2 (Hle (λ k, Z.of_nat k - Z.of_nat (length adj) ∈ discovered) _)).
  lia.
Qed.

(** Discovering a node takes its neighbour list off the weight. *)
Lemma chain_weight_discover adj discovered v ws :
  v ∉ discovered → getitem adj v = Ok ws →
  (chain_weight adj (discovered ++ [v]) + length ws
   ≤ chain_weight adj discovered)%nat.
Proof.
  intros Hv Hg. apply getitem_Ok in Hg as [Hr Hl]. unfold chain_weight.
  set (f1 := λ (d : list Z) (k : nat) (ws : list Z),
         if decide (Z.of_nat k ∈ d) then 0%nat else length ws).
  set (f2 := λ (d : list Z) (k : nat) (ws : list Z),
         if decide (Z.of_nat k - Z.of_nat (length adj) ∈ d)
         then 0%nat else length ws).
  change (sum_list (imap (f1 (discovered ++ [v])) adj)
          + sum_list (imap (f2 (discovered ++ [v])) adj) + length ws
          ≤ sum_list (imap (f1 discovered) adj)
            + sum_list (imap (f2 discovered) adj))%nat.
  assert (M1 : ∀ k x, adj !! k = Some x →
                 (f1 (discovered ++ [v]) k x ≤ f1 discovered k x)%nat).
  { intros k x _. unfold f1. repeat case_decide; try lia.
    exfalso. rewrite elem_of_app in *. tauto. }
  assert (M2 : ∀ k x, adj !! k = Some x →
                 (f2 (discovered ++ [v]) k x ≤ f2 discovered k x)%nat).
  { intros k x _. unfold f2. repeat case_decide; try lia.
    exfalso. rewrite elem_of_app in *. tauto. }
  pose proof (sum_imap_le _ _ adj M1). pose proof (sum_imap_le _ _ adj M2).
  unfold wrap_index in Hl. case_decide as Hneg.
  - enough (sum_list (imap (f2 (discovered ++ [v])) adj) + length ws
            ≤ sum_list (imap (f2 discovered) adj))%nat by lia.
    eapply sum_imap_drop; [exact M2 | exact Hl |]. unfold f2.
    rewrite Z2Nat.id by lia.
    replace (Z.of_nat (length adj) + v - Z.of_nat (length adj)) with v by lia.
    rewrite decide_True by (apply elem_of_app; right; left).
    by rewrite decide_False.
  - enough (sum_list (imap (f1 (discovered ++ [v])) adj) + length ws
            ≤ sum_list (imap (f1 discovered) adj))%nat by lia.
    eapply sum_imap_drop; [exact M1 | exact Hl |]. unfold f1.
    rewrite Z2Nat.id by lia.
    rewrite decide_True by (apply elem_of_app; right; left).
    by rewrite decide_False.
Qed.

(** One pass over a neighbour list pushes at most one entry per neighbour. *)
Lemma chain_visit_fold_length s l discovered ws mx stack :
  (length (fold_left (chain_visit s l discovered) ws (mx, stack)).2
   ≤ length stack + length ws)%nat.
Proof.
  revert mx stack. induction ws as [|w ws IH]; intros mx stack; simpl; [lia|].
  match goal with
  | |- context [fold_left _ ws (?m, ?st)] => specialize (IH m st)
  end.
  destruct (bool_decide (w ∉ discovered)); simpl in *; lia.
Qed.

(** The loop ends within any number of rounds that covers the stack and
    the weight. *)
Lemma chain_loop_terminates fuel adj s mx discovered stack :
  (length stack + chain_weight adj discovered ≤ fuel)%nat →
  is_Some (chain_loop fuel adj s mx discovered stack).
Proof.
  revert mx discovered stack.
  induction fuel as [|fuel IH]; intros mx discovered stack Hf.
  { destruct stack as [|[v l] stack]; simpl in *; [eauto | lia]. }
  destruct stack as [|[v l] stack]; simpl in *; [eauto|].
  case_bool_decide as Hv.
  - destruct (getitem adj v) as [ws|e] eqn:Hg; [|eauto].
    pose proof (chain_weight_discover adj discovered v ws Hv Hg).
    pose proof (chain_visit_fold_length s l (discovered ++ [v]) ws
                  (Z.max mx l) stack) as Hlen.
    destruct (fold_left _ ws _) as [mx' stack']. simpl in Hlen.
    apply IH. lia.
  - apply IH. lia.
Qed.

(** More rounds do not change the outcome. *)
Lemma chain_loop_fuel_mono fuel fuel' adj s mx discovered stack r :
  chain_loop fuel adj s mx discovered stack = Some r →
  (fuel ≤ fuel')%nat →
  chain_loop fuel' adj s mx discovered stack = Some r.
Proof.
  revert fuel' mx discovered stack.
  induction fuel as [|fuel IH]; intros fuel' mx discovered stack.
  { destruct stack as [|[v l] stack]; simpl; [|done].
    intros [= <-] _. by destruct fuel'. }
  destruct stack as [|[v l] stack]; simpl.
  { intros [= <-] _. by destruct fuel'. }
  intros Hr Hf. destruct fuel' as [|fuel']; [lia|]. simpl.
  case_bool_decide.
  - destruct (getitem adj v) as [ws|e]; [|done].
    destruct (fold_left _ ws _) as [mx' stack']. apply IH; [done|lia].
  - apply IH; [done|lia].
Qed.

(** [longest_chain_from_node] returns, for every graph and start: the
    rounds allotted to its loop are never used up, and its value is the
    loop's. *)
Lemma longest_chain_from_node_total {item} (g : Graph item) (s : Z) :
  chain_loop (chain_fuel (adj_list g)) (adj_list g) s 0 [] [(s, 0)]
  = Some (longest_chain_from_node g s).
Proof.
  unfold longest_chain_from_node.
  destruct (chain_loop_terminates (chain_fuel (adj_list g)) (adj_list g) s 0
              [] [(s, 0)]) as [r Hr]; [|by rewrite Hr].
  pose proof (chain_weight_bound (adj_list g) []).
  unfold chain_fuel. simpl. lia.
Qed.

(** ** Computations in the store *)

Lemma py_bind_Ok {A B} (m : py A) (f : A → py B) h b h' :
  (m ≫= f) h = (Ok b, h') →
  ∃ a h1, m h = (Ok a, h1) ∧ f a h1 = (Ok b, h').
Proof.
  unfold mbind, py_bind. destruct (m h) as [[a|e] h1]; [eauto|done].
Qed.

Lemma grows_ret {A} (a : A) : grows (mret a).
Proof. intros h r h' [= _ <-]. done. Qed.

Lemma grows_lift {A} (r : result A) : grows (lift r).
Proof. intros h r' h' [= _ <-]. done. Qed.

Lemma grows_bind {A B} (m : py A) (f : A → py B) :
  grows m → (∀ a, grows (f a)) → grows (m ≫= f).
Proof.
  intros Hm Hf h r h'. unfold mbind, py_bind.
  destruct (m h) as [[a|e] h1] eqn:E.
  - intros Hfa. etrans; [by eapply Hm | by eapply Hf].
  - intros [= _ <-]. by eapply Hm.
Qed.

Lemma grows_mapP {A B} (f : A → py B) (l : list A) :
  (∀ x, grows (f x)) → grows (mapP f l).
Proof.
  intros Hf. induction l as [|x l IH]; simpl; [apply grows_ret|].
  apply grows_bind; [done|]. intros y.
  apply grows_bind; [done|]. intros ys. apply grows_ret.
Qed.

Lemma mapP_Ok_length {A B} (f : A → py B) (l : list A) h ys h' :
  mapP f l h = (Ok ys, h') → length ys = length l.
Proof.
  revert h ys h'. induction l as [|x l IH]; intros h ys h'; simpl.
  { by intros [= <- _]. }
  intros (y & h1 & _ & (zs & h2 & Hzs & [= <- _])%py_bind_Ok)%py_bind_Ok.
  simpl. by rewrite (IH _ _ _ Hzs).
Qed.

Section PipelineFacts.
Context {item : Type}.
Implicit Types (g : Graph item) (h : heap).

Lemma grows_make_subgraph g nodes : grows (make_subgraph g nodes).
Proof. intros h r h'. apply make_subgraph_prefix. Qed.

Lemma grows_unique_bonds g : grows (unique_bonds g).
Proof.
  intros h r h'. unfold unique_bonds. py_unfold.
  destruct (h !! adj_mat g); by intros [= _ <-].
Qed.

Lemma grows_number_of_nodes g : grows (number_of_nodes g).
Proof.
  intros h r h'. unfold number_of_nodes. py_unfold.
  destruct (h !! adj_mat g); by intros [= _ <-].
Qed.

Lemma grows_number_of_unique_bonds g : grows (number_of_unique_bonds g).
Proof.
  unfold number_of_unique_bonds. apply grows_bind;
    [apply grows_unique_bonds | intros; apply grows_ret].
Qed.

Lemma grows_get_cns_subgraphs g : grows (get_cns_subgraphs g).
Proof.
  unfold get_cns_subgraphs. apply grows_bind; [apply grows_unique_bonds|].
  intros bonds. apply grows_mapP. intros bond.
  apply grows_bind; [apply grows_lift|]. intros [i j].
  apply grows_bind; [apply grows_lift|]. intros ai.
  apply grows_bind; [apply grows_lift|]. intros aj.
  apply grows_make_subgraph.
Qed.

Lemma grows_compute_signatures g : grows (compute_signatures g).
Proof.
  unfold compute_signatures.
  apply grows_bind; [apply grows_get_cns_subgraphs|].
  intros sgs. apply grows_mapP. intros sg.
  apply grows_bind; [apply grows_number_of_nodes|]. intros i.
  apply grows_bind; [apply grows_number_of_unique_bonds|]. intros j.
  apply grows_bind; [apply grows_lift|]. intros k. apply grows_ret.
Qed.

(** One signature per bond. *)
Lemma compute_signatures_Ok_length g h a sigs h' :
  h !! adj_mat g = Some a →
  compute_signatures g h = (Ok sigs, h') →
  length sigs = length (unique_bonds_of a).
Proof.
  intros Ha. unfold compute_signatures, get_cns_subgraphs.
  intros (sgs & h1 & Hsgs & Hsigs)%py_bind_Ok.
  apply py_bind_Ok in Hsgs as (bonds & h0 & Hb & Hsgs).
  rewrite (unique_bonds_read _ _ _ Ha) in Hb. injection Hb as <- <-.
  apply mapP_Ok_length in Hsgs, Hsigs. congruence.
Qed.
End PipelineFacts.

(** ** [get_CNAPs] *)

Lemma fold_record_bond_Raise zs e :
  fold_left record_bond zs (Raise e) = Raise e.
Proof. induction zs as [|[sig bond] zs IH]; simpl; [done|]. exact IH. Qed.

Lemma append_at_nat spn (i : nat) sig spn' :
  append_at spn (Z.of_nat i) sig = Ok spn' →
  ∃ l, spn !! i = Some l ∧ spn' = <[i := l ++ [sig]]> spn.
Proof.
  unfold append_at, mbind, result_bind.
  destruct (py_index (length spn) (Z.of_nat i)) as [k|] eqn:E; [|done].
  apply py_index_Ok in E as (_ & _ & Hk). unfold wrap_index in Hk.
  rewrite decide_False in Hk by lia. apply Nat2Z.inj in Hk as ->.
  destruct (spn !! i) as [l|]; [|done]. intros [= <-]. eauto.
Qed.

Lemma incident_cons_pair (n i j : nat) bonds :
  i ≠ j →
  length (incident n ([Z.of_nat i; Z.of_nat j] :: bonds))
  = ((if decide (n = i) then 1 else 0) + (if decide (n = j) then 1 else 0)
     + length (incident n bonds))%nat.
Proof.
  intros Hij. unfold incident. rewrite filter_cons.
  destruct (decide (Z.of_nat n ∈ [Z.of_nat i; Z.of_nat j])) as [Hin|Hnin].
  - apply elem_of_cons in Hin as [Hin|Hin%list_elem_of_singleton];
      apply Nat2Z.inj in Hin as ->.
    + rewrite decide_True, decide_False by done. done.
    + rewrite decide_False, decide_True by done. done.
  - rewrite !decide_False; [done|..]; intros ->; apply Hnin.
    + right. left.
    + left.
Qed.

(** After the loop of [get_CNAPs], node [n] has one signature more for
    every bond that touches it. *)
Lemma record_bonds_lengths zs spn spn' :
  Forall (λ sb : signature * list Z,
            ∃ i j : nat, sb.2 = [Z.of_nat i; Z.of_nat j] ∧ i ≠ j) zs →
  fold_left record_bond zs (Ok spn) = Ok spn' →
  length spn' = length spn
  ∧ ∀ n l, spn !! n = Some l →
           ∃ l', spn' !! n = Some l'
                 ∧ length l' = (length l + length (incident n zs.*2))%nat.
Proof.
  intros Hz. revert spn. induction Hz as [|[sig bond] zs Hb Hzs IH]; intros spn.
  { simpl. intros [= <-]. split; [done|]. intros n l Hl. exists l.
    split; [done|]. simpl. lia. }
  destruct Hb as (i & j & Hb & Hij). simpl in Hb. subst bond.
  rewrite fmap_cons. cbn [snd].
  change (fold_left record_bond ((sig, [Z.of_nat i; Z.of_nat j]) :: zs) (Ok spn))
    with (fold_left record_bond zs
            (append_at spn (Z.of_nat i) sig
             ≫= λ s, append_at s (Z.of_nat j) sig)).
  unfold mbind, result_bind.
  destruct (append_at spn (Z.of_nat i) sig) as [spa|e] eqn:Ea;
    [|by rewrite fold_record_bond_Raise].
  destruct (append_at spa (Z.of_nat j) sig) as [spb|e] eqn:Eb;
    [|by rewrite fold_record_bond_Raise].
  apply append_at_nat in Ea as (li & Hli & ->).
  apply append_at_nat in Eb as (lj & Hlj & ->).
  intros Hf. destruct (IH _ Hf) as [Hlen Hn]. split.
  { by rewrite Hlen, !length_insert. }
  intros n l Hl.
  assert (∃ l1, <[j:=lj ++ [sig]]> (<[i:=li ++ [sig]]> spn) !! n = Some l1
            ∧ length l1 = (length l + (if decide (n = i) then 1 else 0)
                           + (if decide (n = j) then 1 else 0))%nat)
    as (l1 & Hl1 & Hlen1).
  { destruct (decide (n = j)) as [->|Hnj].
    - rewrite decide_False by done.
      rewrite list_lookup_insert_ne in Hlj by done.
      assert (lj = l) as -> by congruence.
      eexists. split.
      + apply list_lookup_insert_eq. rewrite length_insert.
        by eapply lookup_lt_Some.
      + rewrite length_app. simpl. lia.
    - rewrite list_lookup_insert_ne by done.
      destruct (decide (n = i)) as [->|Hni].
      + assert (li = l) as -> by congruence.
        eexists. split.
        * apply list_lookup_insert_eq. by eapply lookup_lt_Some.
        * rewrite length_app. simpl. lia.
      + rewrite list_lookup_insert_ne by done. exists l. split; [done|lia]. }
  destruct (Hn n l1 Hl1) as (l' & Hl' & Hlen'). exists l'. split; [done|].
  rewrite incident_cons_pair by done. lia.
Qed.

Lemma total_count_nil_inv (l : list signature) :
  length l = 0%nat → get_occurrences l = [].
Proof. by destruct l. Qed.

(** C10: for every Graph on a symmetric 0/1 matrix with zero diagonal on
    which [get_CNAPs] returns a result, there is one CNAP per node, and
    the counts of the CNAP of node [n] add up to the number of bonds of
    [unique_bonds] that touch [n]; a node that no bond touches has the
    empty CNAP. *)
Theorem CNAP_counts_sum_to_degree {item} (h : heap) (a : loc)
    (rows : list (list Z)) (pos : positions_t item) (fill_diag : bool)
    (root : option Z) (g : Graph item) (h1 : heap) (cnaps : list CNAP)
    (h2 : heap) :
  h !! a = Some (Arr2 rows) →
  square rows → symmetric rows → zero_diagonal rows → zero_one rows →
  Graph_init a pos fill_diag root h = (Ok g, h1) →
  get_CNAPs g h1 = (Ok cnaps, h2) →
  ∃ bonds,
    unique_bonds g h1 = (Ok bonds, h1)
    ∧ length cnaps = length rows
    ∧ ∀ n c, cnaps !! n = Some c →
        total_count c = Z.of_nat (length (incident n bonds))
        ∧ (incident n bonds = [] → c = []).
Proof.
  intros Ha _ Hsym Hz _ Hinit Hcnaps.
  rewrite (Graph_init_Arr2 _ _ _ _ _ _ Ha), (zeroed_id rows Hz) in Hinit.
  assert (Hh : (if fill_diag then <[a:=Arr2 rows]> h else h) = h).
  { destruct fill_diag; [|done]. by apply list_insert_id. }
  assert (Hr : (if fill_diag then rows else rows) = rows) by (by destruct fill_diag).
  rewrite Hh, Hr in Hinit. injection Hinit as <- <-. clear Hh Hr.
  remember (mkGraph a (neighbours rows) pos root) as g eqn:Eg.
  assert (Hg : h !! adj_mat g = Some (Arr2 rows)) by (by subst g).
  clear Eg.
  exists (unique_bonds_of (Arr2 rows)). split; [by apply unique_bonds_read|].
  revert Hcnaps. unfold get_CNAPs.
  intros (sigs & h3 & Hsigs & Hrest)%py_bind_Ok.
  pose proof (compute_signatures_Ok_length _ _ _ _ _ Hg Hsigs) as Hlen.
  pose proof (grows_compute_signatures g _ _ _ Hsigs) as Hpre.
  assert (Hg3 : h3 !! adj_mat g = Some (Arr2 rows))
    by (by eapply prefix_lookup_Some).
  apply py_bind_Ok in Hrest as (bonds & h4 & Hb & Hrest).
  rewrite (unique_bonds_read _ _ _ Hg3) in Hb. injection Hb as <- <-.
  apply py_bind_Ok in Hrest as (N & h4 & HN & Hrest).
  rewrite (number_of_nodes_read _ _ _ Hg3) in HN. injection HN as <- <-.
  apply py_bind_Ok in Hrest as (spn & h4 & Hspn & [= <- _]).
  unfold lift in Hspn. injection Hspn as Hspn _.
  simpl in Hspn. rewrite Nat2Z.id in Hspn.
  destruct (unique_bonds_of_symmetric rows Hsym Hz) as [_ Hbonds].
  apply record_bonds_lengths in Hspn as [Hlspn Hn].
  2:{ apply Forall_forall. intros [sig bond] Hin.
      apply elem_of_zip_r in Hin. apply Hbonds in Hin as (i & j & Hij & _ & ->).
      exists i, j. split; [done|lia]. }
  rewrite snd_zip in Hn by lia.
  split. { by rewrite length_fmap, Hlspn, length_replicate. }
  intros n c. rewrite list_lookup_fmap.
  destruct (spn !! n) as [l'|] eqn:Hl'; [|done]. intros [= <-].
  assert (Hnlt : (n < length rows)%nat).
  { apply lookup_lt_Some in Hl'. by rewrite Hlspn, length_replicate in Hl'. }
  destruct (Hn n [] (lookup_replicate_2 _ _ _ Hnlt)) as (l2 & Hl2 & Hlen2).
  assert (l2 = l') as -> by congruence. simpl in Hlen2.
  split.
  - by rewrite get_occurrences_total, Hlen2.
  - intros Hnil. apply total_count_nil_inv. by rewrite Hlen2, Hnil.
Qed.

Lemma CNAP_counts_sum_to_degree_witness :
  ∃ bonds,
    unique_bonds (mkGraph 0%nat [[1; 2]; [0; 2]; [0; 1]; []]
                    (PosArray [(); (); (); ()]) None)
      [Arr2 [[0; 1; 1; 0]; [1; 0; 1; 0]; [1; 1; 0; 0]; [0; 0; 0; 0]]]
    = (Ok bonds,
       [Arr2 [[0; 1; 1; 0]; [1; 0; 1; 0]; [1; 1; 0; 0]; [0; 0; 0; 0]]])
    ∧ length [[((1, 0, 0), 2)]; [((1, 0, 0), 2)]; [((1, 0, 0), 2)]; []]
      = length [[0; 1; 1; 0]; [1; 0; 1; 0]; [1; 1; 0; 0]; [0; 0; 0; 0]]
    ∧ ∀ n c,
        [[((1, 0, 0), 2)]; [((1, 0, 0), 2)]; [((1, 0, 0), 2)]; []] !! n
        = Some c →
        total_count c = Z.of_nat (length (incident n bonds))
        ∧ (incident n bonds = [] → c = []).
Proof.
  apply (CNAP_counts_sum_to_degree
           [Arr2 [[0; 1; 1; 0]; [1; 0; 1; 0]; [1; 1; 0; 0]; [0; 0; 0; 0]]]
           0%nat [[0; 1; 1; 0]; [1; 0; 1; 0]; [1; 1; 0; 0]; [0; 0; 0; 0]]
           (PosArray [(); (); (); ()]) true None _
           [Arr2 [[0; 1; 1; 0]; [1; 0; 1; 0]; [1; 1; 0; 0]; [0; 0; 0; 0]]]
           _
           [Arr2 [[0; 1; 1; 0]; [1; 0; 1; 0]; [1; 1; 0; 0]; [0; 0; 0; 0]];
            Arr2 [[0]]; Arr2 [[0]]; Arr2 [[0]]]).
  - reflexivity.
  - repeat constructor.
  - intros [|[|[|[|i]]]] [|[|[|[|j]]]]; reflexivity.
  - intros [|[|[|[|i]]]] x; unfold entry; simpl; congruence.
  - intros [|[|[|[|i]]]] [|[|[|[|j]]]] x; unfold entry; simpl; intros [= <-]; auto.
  - vm_compute. reflexivity.
  - vm_compute. reflexivity.
Defined.


(** * Further properties *)

(** ** The adjacency list *)

Lemma where_from_sorted k mask : StronglySorted Z.lt (where_from k mask).
Proof.
  revert k. induction mask as [|b t IH]; intros k; simpl; [constructor|].
  destruct b; [|apply IH]. constructor; [apply IH|].
  apply Forall_forall. intros z (n & _ & ->)%elem_of_where_from. lia.
Qed.

Lemma np_where_range mask z :
  z ∈ np_where mask → 0 ≤ z < Z.of_nat (length mask).
Proof.
  intros (n & Hn%lookup_lt_Some & ->)%elem_of_where_from. lia.
Qed.

Lemma neighbours_lookup R i :
  neighbours R !! i = (λ row, np_where (eq1 row)) <$> R !! i.
Proof. apply list_lookup_fmap. Qed.

Lemma elem_of_neighbours R i nb z :
  neighbours R !! i = Some nb →
  z ∈ nb ↔ ∃ j : nat, z = Z.of_nat j ∧ entry R i j = Some 1.
Proof.
  rewrite neighbours_lookup. destruct (R !! i) as [row|] eqn:E; [|done].
  intros [= <-]. rewrite elem_of_np_where_eq1. unfold entry. rewrite E. simpl.
  split; intros (j & ? & ?); eauto.
Qed.

Lemma neighbours_sorted R i nb :
  neighbours R !! i = Some nb → StronglySorted Z.lt nb.
Proof.
  rewrite neighbours_lookup. destruct (R !! i) as [row|]; [|done].
  intros [= <-]. apply where_from_sorted.
Qed.

Lemma neighbours_closed R : square R → adj_closed (neighbours R).
Proof.
  intros Hsq. unfold adj_closed, neighbours. rewrite length_fmap.
  apply Forall_fmap, Forall_forall. intros row Hrow. simpl.
  apply Forall_forall. intros z Hz%np_where_range.
  unfold eq1 in Hz. rewrite length_fmap in Hz.
  by rewrite <-(proj1 (Forall_forall _ _) Hsq row Hrow).
Qed.

Lemma zeroed_square R : square R → square (zeroed R).
Proof.
  unfold square. rewrite length_zeroed. apply zeroed_rectangular.
Qed.

Lemma Graph_init_built {item} (h : heap) (a : loc) rows
    (pos : positions_t item) fd root g h1 :
  h !! a = Some (Arr2 rows) →
  Graph_init a pos fd root h = (Ok g, h1) →
  built_on g (if fd then zeroed rows else rows) h1
  ∧ positions g = pos ∧ adj_mat g = a
  ∧ h1 = (if fd then <[a := Arr2 (zeroed rows)]> h else h).
Proof.
  intros Ha. rewrite (Graph_init_Arr2 _ _ _ _ _ _ Ha). intros [= <- <-].
  split_and!; try done. split; [|done]. simpl. destruct fd; [|done].
  apply list_lookup_insert_eq. by eapply lookup_lt_Some.
Qed.

(** X1: the adjacency list of a Graph constructed on a two-dimensional
    matrix has one entry per row; entry [i] lists, in strictly ascending
    order, exactly the columns [j] whose entry in row [i] is 1, and with
    [fill_diag] set it never lists [i] itself, whatever the diagonal of
    the matrix was. *)
Theorem Graph_init_adjacency {item} (h : heap) (a : loc)
    (rows : list (list Z)) (pos : positions_t item) (fill_diag : bool)
    (root : option Z) (g : Graph item) (h1 : heap) :
  h !! a = Some (Arr2 rows) →
  Graph_init a pos fill_diag root h = (Ok g, h1) →
  length (adj_list g) = length rows
  ∧ ∀ i nb, adj_list g !! i = Some nb →
      StronglySorted Z.lt nb
      ∧ ∀ z, z ∈ nb ↔ ∃ j : nat, z = Z.of_nat j ∧ entry rows i j = Some 1
                                 ∧ (fill_diag = true → i ≠ j).
Proof.
  intros Ha Hg. destruct (Graph_init_built _ _ _ _ _ _ _ _ Ha Hg)
    as ([_ Hadj] & _ & _ & _).
  rewrite Hadj. split.
  { unfold neighbours. rewrite length_fmap. destruct fill_diag; [|done].
    apply length_zeroed. }
  intros i nb Hnb. split; [by eapply neighbours_sorted|].
  intros z. rewrite (elem_of_neighbours _ _ _ _ Hnb).
  destruct fill_diag.
  - split.
    + intros (j & -> & He). exists j. rewrite entry_zeroed in He.
      destruct (decide (i = j)) as [->|Hne].
      * destruct (entry rows j j); simpl in He; congruence.
      * done.
    + intros (j & -> & He & Hne). exists j. split; [done|].
      rewrite entry_zeroed, decide_False by auto. done.
  - split; intros (j & -> & He); exists j; [split_and!|]; try done.
    by destruct He.
Qed.

Lemma Graph_init_adjacency_witness :
  length [[1]; [0]] = length [[1; 1]; [1; 1]]
  ∧ ∀ i nb, [[1]; [0]] !! i = Some nb →
      StronglySorted Z.lt nb
      ∧ ∀ z, z ∈ nb ↔ ∃ j : nat, z = Z.of_nat j
                                 ∧ entry [[1; 1]; [1; 1]] i j = Some 1
                                 ∧ (true = true → i ≠ j).
Proof.
  apply (Graph_init_adjacency (item:=unit) [Arr2 [[1; 1]; [1; 1]]] 0%nat
           [[1; 1]; [1; 1]] default_positions true None
           (mkGraph 0%nat [[1]; [0]] default_positions None)
           [Arr2 [[0; 1]; [1; 0]]]).
  - reflexivity.
  - vm_compute. reflexivity.
Defined.

(** ** Bounds on [longest_chain_from_node] *)

Lemma NoDup_range_length (l : list Z) (n : nat) :
  NoDup l → Forall (λ v, 0 ≤ v < Z.of_nat n) l → (length l ≤ n)%nat.
Proof.
  intros Hnd Hr. rewrite Forall_forall in Hr.
  assert (l ⊆+ seqZ 0 (Z.of_nat n)) as Hsub.
  { apply NoDup_submseteq; [done|]. intros x Hx. apply elem_of_seqZ.
    specialize (Hr x Hx). lia. }
  apply submseteq_length in Hsub. rewrite length_seqZ in Hsub. lia.
Qed.

(** One pass over a neighbour list: the maximum grows to at most one more
    than the depth, and what is pushed are neighbours at that depth. *)
Lemma chain_visit_fold_spec s l discovered ws mx stack :
  mx ≤ (fold_left (chain_visit s l discovered) ws (mx, stack)).1
     ≤ Z.max mx (l + 1)
  ∧ Forall (λ e, e ∈ stack ∨ (e.1 ∈ ws ∧ e.2 = l + 1))
           (fold_left (chain_visit s l discovered) ws (mx, stack)).2.
Proof.
  revert mx stack. induction ws as [|w ws IH]; intros mx stack.
  { simpl. split; [lia|]. apply Forall_forall. auto. }
  cbn [fold_left].
  set (m' := if (2 <=? l) && bool_decide (w = s)
             then Z.max mx (l + 1) else mx).
  set (st' := if bool_decide (w ∉ discovered)
              then (w, l + 1) :: stack else stack).
  change (chain_visit s l discovered (mx, stack) w) with (m', st').
  destruct (IH m' st') as [IH1 IH2]. split.
  - assert (mx ≤ m' ≤ Z.max mx (l + 1)).
    { subst m'. destruct ((2 <=? l) && bool_decide (w = s)); lia. }
    lia.
  - eapply Forall_impl; [exact IH2|]. intros e. simpl. subst st'.
    intros [He|[He ->]].
    + destruct (bool_decide (w ∉ discovered)); [|by left].
      apply elem_of_cons in He as [->|He]; [right|by left].
      split; [left|done].
    + right. split; [by right|done].
Qed.

(** On an adjacency list that names only its own indices, started inside
    it, the loop never raises, and its maximum stays within the number of
    nodes discovered. *)
Lemma chain_loop_bounds fuel adj s mx discovered stack r :
  adj_closed adj →
  NoDup discovered →
  Forall (λ v, 0 ≤ v < Z.of_nat (length adj)) discovered →
  Forall (λ e : Z * Z, 0 ≤ e.1 < Z.of_nat (length adj)
                       ∧ 0 ≤ e.2 ≤ Z.of_nat (length discovered)) stack →
  0 ≤ mx ≤ Z.of_nat (length discovered) →
  chain_loop fuel adj s mx discovered stack = Some r →
  ∃ z, r = Ok z ∧ mx ≤ z ≤ Z.of_nat (length adj).
Proof.
  intros Hadj. revert mx discovered stack.
  induction fuel as [|fuel IH]; intros mx discovered stack Hnd Hd Hst Hmx.
  { destruct stack as [|[v l] stack]; simpl; [|done]. intros [= <-].
    exists mx. split; [done|]. pose proof (NoDup_range_length _ _ Hnd Hd). lia. }
  destruct stack as [|[v l] stack]; simpl.
  { intros [= <-]. exists mx. split; [done|].
    pose proof (NoDup_range_length _ _ Hnd Hd). lia. }
  apply Forall_cons in Hst as [[Hv Hl] Hst]. simpl in Hv, Hl.
  case_bool_decide as Hvd; [|by apply IH].
  destruct (adj !! Z.to_nat v) as [ws|] eqn:Hws.
  2:{ apply lookup_ge_None in Hws. lia. }
  rewrite <-(Z2Nat.id v) at 1 by lia. rewrite (getitem_nat _ _ _ Hws).
  destruct (chain_visit_fold_spec s l (discovered ++ [v]) ws (Z.max mx l) stack)
    as [Hm Hs].
  destruct (fold_left _ ws _) as [mx' stack']. simpl in Hm, Hs.
  intros Hr. apply IH in Hr as (z & -> & Hz).
  - exists z. split; [done|]. lia.
  - apply NoDup_app. split_and!; [done| |apply NoDup_singleton].
    intros x Hx ->%list_elem_of_singleton. done.
  - apply Forall_app. split; [done|]. by apply Forall_singleton.
  - rewrite length_app. simpl.
    assert (Hwsr : Forall (λ w, 0 ≤ w < Z.of_nat (length adj)) ws).
    { apply (proj1 (Forall_forall _ _) Hadj). by eapply list_elem_of_lookup_2. }
    rewrite Forall_forall in Hwsr. rewrite Forall_forall in Hst.
    eapply Forall_impl; [exact Hs|]. intros [w d]. simpl.
    intros [He|[He ->]].
    + specialize (Hst _ He). simpl in Hst. lia.
    + specialize (Hwsr _ He). lia.
  - rewrite length_app. simpl. lia.
Qed.

Lemma longest_chain_from_node_closed {item} (g : Graph item) (s : Z) :
  adj_closed (adj_list g) →
  0 ≤ s < Z.of_nat (length (adj_list g)) →
  ∃ z, longest_chain_from_node g s = Ok z
       ∧ 0 ≤ z ≤ Z.of_nat (length (adj_list g)).
Proof.
  intros Hadj Hs.
  eapply (chain_loop_bounds _ _ s 0 [] [(s, 0)]);
    [done | constructor | constructor | | done
     | apply longest_chain_from_node_total].
  apply Forall_singleton. simpl. lia.
Qed.

(** X2: on a Graph constructed on a square matrix, [longest_chain_from_node]
    from any node [0 <= s < N] raises nothing and returns a length between 0
    and N, the number of nodes. *)
Theorem longest_chain_from_node_range {item} (h : heap) (a : loc)
    (rows : list (list Z)) (pos : positions_t item) (fill_diag : bool)
    (root : option Z) (g : Graph item) (h1 : heap) (s : Z) :
  h !! a = Some (Arr2 rows) → square rows →
  Graph_init a pos fill_diag root h = (Ok g, h1) →
  0 ≤ s < Z.of_nat (length rows) →
  ∃ z, longest_chain_from_node g s = Ok z ∧ 0 ≤ z ≤ Z.of_nat (length rows).
Proof.
  intros Ha Hsq Hg Hs.
  destruct (Graph_init_built _ _ _ _ _ _ _ _ Ha Hg) as ([_ Hadj] & _ & _ & _).
  assert (Hlen : length (adj_list g) = length rows).
  { rewrite Hadj. unfold neighbours. rewrite length_fmap.
    destruct fill_diag; [apply length_zeroed | done]. }
  rewrite <-Hlen in *. apply longest_chain_from_node_closed; [|done].
  rewrite Hadj. apply neighbours_closed.
  destruct fill_diag; [by apply zeroed_square | done].
Qed.

Lemma longest_chain_from_node_range_witness :
  ∃ z, longest_chain_from_node
         (mkGraph 0%nat [[1; 2]; [0; 2]; [0; 1]]
            (default_positions (item:=unit)) None) 0 = Ok z
       ∧ 0 ≤ z ≤ Z.of_nat (length [[0; 1; 1]; [1; 0; 1]; [1; 1; 0]]).
Proof.
  apply (longest_chain_from_node_range [triangle] 0%nat
           [[0; 1; 1]; [1; 0; 1]; [1; 1; 0]] default_positions true None _
           [triangle]).
  - reflexivity.
  - repeat constructor.
  - vm_compute. reflexivity.
  - simpl. lia.
Defined.

(** X3: [longest_chain_from_node] on any Graph.  A start outside [-N, N),
    N the length of the adjacency list, raises [IndexError]; a start whose
    adjacency entry is empty, an isolated node, gives 0. *)
Theorem longest_chain_from_node_edges {item} (g : Graph item) (s : Z) :
  (¬ (- Z.of_nat (length (adj_list g)) ≤ s < Z.of_nat (length (adj_list g))) →
   longest_chain_from_node g s = Raise IndexError)
  ∧ (getitem (adj_list g) s = Ok [] → longest_chain_from_node g s = Ok 0).
Proof.
  unfold longest_chain_from_node, chain_fuel. cbn [chain_loop].
  rewrite bool_decide_eq_true_2 by apply not_elem_of_nil. split.
  - intros Hs. destruct (getitem (adj_list g) s) as [ws|e] eqn:E.
    + by apply getitem_Ok in E as [? _].
    + by apply getitem_Raise in E as [-> _].
  - intros ->. simpl. by destruct (sum_list _ + _)%nat.
Qed.

Lemma longest_chain_from_node_edges_witness :
  longest_chain_from_node
    (mkGraph 0%nat [[1]; [0]; []] (default_positions (item:=unit)) None) 3
  = Raise IndexError
  ∧ longest_chain_from_node
      (mkGraph 0%nat [[1]; [0]; []] (default_positions (item:=unit)) None) 2
    = Ok 0.
Proof.
  split.
  - apply (proj1 (longest_chain_from_node_edges
                    (mkGraph 0%nat [[1]; [0]; []] default_positions None) 3)).
    simpl. lia.
  - apply (proj2 (longest_chain_from_node_edges
                    (mkGraph 0%nat [[1]; [0]; []] default_positions None) 2)).
    reflexivity.
Defined.

(** X4: the [while] loop of [longest_chain_from_node] ends, for every
    adjacency list and every start, within one round more than twice the
    number of neighbours listed; with that many rounds or more it yields the
    value of [longest_chain_from_node]. *)
Theorem longest_chain_from_node_terminates {item} (g : Graph item) (s : Z)
    (fuel : nat) :
  (chain_fuel (adj_list g) ≤ fuel)%nat →
  chain_fuel (adj_list g) = S (2 * sum_list (length <$> adj_list g))
  ∧ chain_loop fuel (adj_list g) s 0 [] [(s, 0)]
    = Some (longest_chain_from_node g s).
Proof.
  intros Hf. split; [done|].
  eapply chain_loop_fuel_mono; [apply longest_chain_from_node_total | done].
Qed.

Lemma longest_chain_from_node_terminates_witness :
  chain_fuel [[1]; [0]] = S (2 * sum_list (length <$> [[1]; [0]]))
  ∧ chain_loop 9 [[1]; [0]] 0 0 [] [(0, 0)]
    = Some (longest_chain_from_node
              (mkGraph 0%nat [[1]; [0]] (default_positions (item:=unit)) None)
              0).
Proof.
  apply (longest_chain_from_node_terminates
           (mkGraph 0%nat [[1]; [0]] (default_positions (item:=unit)) None)
           0 9).
  vm_compute. lia.
Defined.

(** ** [longest_chain] *)

Lemma fold_max_spec (f : nat → result Z) (F : nat → Z) (l : list nat) (m0 : Z) :
  (∀ i, i ∈ l → f i = Ok (F i)) →
  ∃ z, fold_left (λ acc i, max_lenght ← acc; c ← f i; Ok (Z.max c max_lenght))
                 l (Ok m0) = Ok z
       ∧ m0 ≤ z
       ∧ (∀ i, i ∈ l → F i ≤ z)
       ∧ (z = m0 ∨ ∃ i, i ∈ l ∧ z = F i).
Proof.
  revert m0. induction l as [|i l IH]; intros m0 Hf.
  { exists m0. split_and!; [done | lia | by intros ? ?%elem_of_nil | by left]. }
  cbn [fold_left]. unfold mbind at 2 3, result_bind. rewrite (Hf i) by left.
  destruct (IH (Z.max (F i) m0)) as (z & Hz & Hm & Hall & Hex).
  { intros j Hj. apply Hf. by right. }
  exists z. split_and!; [done | lia | |].
  - intros j [->|Hj]%elem_of_cons; [lia | by apply Hall].
  - destruct Hex as [->|(j & Hj & ->)].
    + destruct (Z.max_spec (F i) m0) as [[_ ->]|[_ ->]]; [by left|].
      right. exists i. split; [left|done].
    + right. exists j. split; [by right|done].
Qed.

Lemma longest_chain_closed {item} (g : Graph item) :
  adj_closed (adj_list g) →
  ∃ z, longest_chain g = Ok z
       ∧ 0 ≤ z ≤ Z.of_nat (length (adj_list g))
       ∧ (∀ i : nat, (i < length (adj_list g))%nat →
            ∃ zi, longest_chain_from_node g (Z.of_nat i) = Ok zi ∧ zi ≤ z)
       ∧ (z = 0 ∨ ∃ i : nat, (i < length (adj_list g))%nat
                             ∧ longest_chain_from_node g (Z.of_nat i) = Ok z).
Proof.
  intros Hcl.
  set (F := λ i : nat,
         match longest_chain_from_node g (Z.of_nat i) with
         | Ok z => z
         | Raise _ => 0
         end).
  assert (HF : ∀ i : nat, (i < length (adj_list g))%nat →
                 longest_chain_from_node g (Z.of_nat i) = Ok (F i)
                 ∧ 0 ≤ F i ≤ Z.of_nat (length (adj_list g))).
  { intros i Hi. destruct (longest_chain_from_node_closed g (Z.of_nat i) Hcl)
      as (z & Hz & Hr); [lia|]. unfold F. rewrite Hz. split; [done|lia]. }
  destruct (fold_max_spec (λ i, longest_chain_from_node g (Z.of_nat i)) F
              (seq 0 (length (adj_list g))) 0) as (z & Hz & Hm & Hall & Hex).
  { intros i Hi%elem_of_seq. apply HF. lia. }
  exists z. unfold longest_chain. split; [done|]. split; [|split].
  - split; [done|]. destruct Hex as [->|(i & Hi%elem_of_seq & ->)]; [lia|].
    apply HF. lia.
  - intros i Hi. exists (F i). split; [by apply HF|].
    apply Hall, elem_of_seq. lia.
  - destruct Hex as [->|(i & Hi%elem_of_seq & ->)]; [by left|].
    right. exists i. split; [lia|]. apply HF. lia.
Qed.

(** X5: on a Graph constructed on a square matrix, [longest_chain] raises
    nothing and returns the largest of the values [longest_chain_from_node]
    has on the nodes, or 0 when there is no node; the value lies between 0
    and the number of nodes. *)
Theorem longest_chain_is_max {item} (h : heap) (a : loc)
    (rows : list (list Z)) (pos : positions_t item) (fill_diag : bool)
    (root : option Z) (g : Graph item) (h1 : heap) :
  h !! a = Some (Arr2 rows) → square rows →
  Graph_init a pos fill_diag root h = (Ok g, h1) →
  ∃ z, longest_chain g = Ok z
       ∧ 0 ≤ z ≤ Z.of_nat (length rows)
       ∧ (∀ i : nat, (i < length rows)%nat →
            ∃ zi, longest_chain_from_node g (Z.of_nat i) = Ok zi ∧ zi ≤ z)
       ∧ (z = 0 ∨ ∃ i : nat, (i < length rows)%nat
                             ∧ longest_chain_from_node g (Z.of_nat i) = Ok z).
Proof.
  intros Ha Hsq Hg.
  destruct (Graph_init_built _ _ _ _ _ _ _ _ Ha Hg) as ([_ Hadj] & _ & _ & _).
  assert (Hlen : length (adj_list g) = length rows).
  { rewrite Hadj. unfold neighbours. rewrite length_fmap.
    destruct fill_diag; [apply length_zeroed | done]. }
  rewrite <-Hlen. apply longest_chain_closed.
  rewrite Hadj. apply neighbours_closed.
  destruct fill_diag; [by apply zeroed_square | done].
Qed.

Lemma longest_chain_is_max_witness :
  ∃ z, longest_chain (mkGraph 0%nat [[1; 2]; [0; 2]; [0; 1]]
                        (default_positions (item:=unit)) None) = Ok z
       ∧ 0 ≤ z ≤ Z.of_nat (length [[0; 1; 1]; [1; 0; 1]; [1; 1; 0]])
       ∧ (∀ i : nat, (i < length [[0; 1; 1]; [1; 0; 1]; [1; 1; 0]])%nat →
            ∃ zi, longest_chain_from_node
                    (mkGraph 0%nat [[1; 2]; [0; 2]; [0; 1]]
                       (default_positions (item:=unit)) None) (Z.of_nat i)
                  = Ok zi ∧ zi ≤ z)
       ∧ (z = 0 ∨ ∃ i : nat,
            (i < length [[0; 1; 1]; [1; 0; 1]; [1; 1; 0]])%nat
            ∧ longest_chain_from_node
                (mkGraph 0%nat [[1; 2]; [0; 2]; [0; 1]]
                   (default_positions (item:=unit)) None) (Z.of_nat i)
              = Ok z).
Proof.
  apply (longest_chain_is_max [triangle] 0%nat
           [[0; 1; 1]; [1; 0; 1]; [1; 1; 0]] default_positions true None _
           [triangle]).
  - reflexivity.
  - repeat constructor.
  - vm_compute. reflexivity.
Defined.

(** ** [get_occurrences] and the order of its input *)

Section SortingPermutation.
Context {A : Type} (cmp : A → A → comparison) `{!TotalCompare cmp}.

Lemma cmp_le_antisym x y : cmp_le cmp x y → cmp_le cmp y x → x = y.
Proof.
  unfold cmp_le. intros Hxy Hyx. rewrite (cmp_antisym (cmp:=cmp) x y) in Hyx.
  destruct (cmp x y) eqn:E; simpl in *; try done. by apply (cmp_eq (cmp:=cmp)).
Qed.

Lemma np_sort_perm_eq l l' : l ≡ₚ l' → np_sort cmp l = np_sort cmp l'.
Proof.
  intros Hp. apply (StronglySorted_unique_strong (cmp_le cmp)).
  - intros x y _ _. apply cmp_le_antisym.
  - by apply np_sort_sorted.
  - by apply np_sort_sorted.
  - by rewrite !np_sort_perm.
Qed.

Lemma np_unique_counts_perm_eq l l' :
  l ≡ₚ l' → np_unique_counts cmp l = np_unique_counts cmp l'.
Proof. intros Hp. unfold np_unique_counts. by rewrite (np_sort_perm_eq l l'). Qed.

Lemma occurrences_elem_of `{!EqDecision A} x (l : list A) :
  x ∈ l → 0 < occurrences x l.
Proof.
  induction l as [|y l IH]; [by intros ?%elem_of_nil|].
  rewrite occurrences_cons. intros [->|Hx]%elem_of_cons.
  - rewrite decide_True by done. unfold occurrences. lia.
  - specialize (IH Hx). destruct (decide (x = y)); lia.
Qed.
End SortingPermutation.

(** X6: [get_occurrences] depends only on which signatures its input holds
    and how often, not on their order: two lists that are permutations of
    one another give the same list of pairs.  Every count it returns is
    positive, and the counts add up to the length of the input. *)
Theorem get_occurrences_permutation (l l' : list signature) :
  l ≡ₚ l' →
  get_occurrences l = get_occurrences l'
  ∧ (∀ s c, (s, c) ∈ get_occurrences l → 0 < c)
  ∧ total_count (get_occurrences l) = Z.of_nat (length l).
Proof.
  intros Hp. split_and!.
  - by apply (np_unique_counts_perm_eq sig_compare).
  - intros s c Hsc.
    rewrite (np_unique_counts_occurrences sig_compare s c l Hsc).
    apply occurrences_elem_of, (elem_of_np_unique sig_compare).
    apply list_elem_of_fmap. by exists (s, c).
  - apply get_occurrences_total.
Qed.

Lemma get_occurrences_permutation_witness :
  get_occurrences [(2, 1, 1); (1, 0, 0); (2, 1, 1)]
  = get_occurrences [(2, 1, 1); (2, 1, 1); (1, 0, 0)]
  ∧ (∀ s c, (s, c) ∈ get_occurrences [(2, 1, 1); (1, 0, 0); (2, 1, 1)] →
            0 < c)
  ∧ total_count (get_occurrences [(2, 1, 1); (1, 0, 0); (2, 1, 1)])
    = Z.of_nat (length [(2, 1, 1); (1, 0, 0); (2, 1, 1)]).
Proof.
  apply (get_occurrences_permutation [(2, 1, 1); (1, 0, 0); (2, 1, 1)]
           [(2, 1, 1); (2, 1, 1); (1, 0, 0)]).
  apply perm_skip, perm_swap.
Defined.

(** ** [unique_CNAPs]: first occurrences *)

Lemma unique_CNAPs_fold (l acc : list CNAP) :
  fold_left (λ out i, if bool_decide (i ∉ out) then out ++ [i] else out) l acc
  = acc ++ filter (λ x, x ∉ acc) (unique_CNAPs l).
Proof.
  unfold unique_CNAPs. revert acc. induction l as [|x l IH]; intros acc.
  { simpl. by rewrite app_nil_r. }
  cbn [fold_left].
  rewrite (bool_decide_eq_true_2 (x ∉ [])) by apply not_elem_of_nil.
  rewrite (IH ([] ++ [x])). cbn [app].
  case_bool_decide as Hx.
  - rewrite IH, filter_cons, decide_True by done.
    rewrite <-app_assoc. simpl. do 2 f_equal.
    rewrite list_filter_filter. apply list_filter_iff. intros y.
    apply not_elem_of_app.
  - rewrite IH, filter_cons, decide_False by (intros H; by apply H).
    f_equal. rewrite list_filter_filter. apply list_filter_iff. intros y.
    split; [|by intros [? _]]. intros Hy. split; [done|].
    intros ->%list_elem_of_singleton. by apply Hy.
Qed.

Lemma filter_id {B} (P : B → Prop) `{!∀ x, Decision (P x)} (l : list B) :
  (∀ x, x ∈ l → P x) → filter P l = l.
Proof.
  induction l as [|x l IH]; intros HP; [done|].
  rewrite filter_cons, decide_True by (apply HP; left).
  f_equal. apply IH. intros y Hy. apply HP. by right.
Qed.

Lemma unique_CNAPs_cons (x : CNAP) (l : list CNAP) :
  unique_CNAPs (x :: l) = x :: filter (λ y, y ≠ x) (unique_CNAPs l).
Proof.
  unfold unique_CNAPs at 1. cbn [fold_left].
  rewrite bool_decide_eq_true_2 by apply not_elem_of_nil.
  rewrite unique_CNAPs_fold. simpl. f_equal. apply list_filter_iff.
  intros y. by rewrite list_elem_of_singleton.
Qed.

Lemma unique_CNAPs_NoDup_id (l : list CNAP) : NoDup l → unique_CNAPs l = l.
Proof.
  induction 1 as [|x l Hx _ IH]; [done|].
  rewrite unique_CNAPs_cons, IH. f_equal. apply filter_id.
  intros y Hy ->. done.
Qed.

(** X7: [unique_CNAPs] keeps, in order, the first occurrence of every CNAP
    and drops the later ones: the head of the input comes first, followed
    by the result for the tail without that head.  The result is a sublist
    of the input, and applying [unique_CNAPs] to it changes nothing. *)
Theorem unique_CNAPs_first_occurrences (x : CNAP) (l : list CNAP) :
  unique_CNAPs [] = []
  ∧ unique_CNAPs (x :: l) = x :: filter (λ y, y ≠ x) (unique_CNAPs l)
  ∧ unique_CNAPs l `sublist_of` l
  ∧ unique_CNAPs (unique_CNAPs l) = unique_CNAPs l.
Proof.
  split_and!.
  - done.
  - apply unique_CNAPs_cons.
  - clear x. induction l as [|y l IH]; [done|].
    rewrite unique_CNAPs_cons. apply sublist_skip.
    etrans; [apply sublist_filter | exact IH].
  - apply unique_CNAPs_NoDup_id, unique_CNAPs_NoDup.
Qed.

(** ** [group_CNAPs]: the order inside a group *)

Lemma fst_imap_pair {B} (l : list B) : (imap pair l).*1 = seq 0 (length l).
Proof.
  apply list_eq. intros i. rewrite list_lookup_fmap, list_lookup_imap.
  destruct (l !! i) as [x|] eqn:E; simpl.
  - symmetry. apply lookup_seq. split; [done|]. by eapply lookup_lt_Some.
  - symmetry. apply lookup_seq_ge. by apply lookup_ge_None.
Qed.

Lemma fmap_sublist {B C} (f : B → C) (l k : list B) :
  l `sublist_of` k → f <$> l `sublist_of` f <$> k.
Proof.
  induction 1; csimpl; [constructor | by apply sublist_skip
                        | by apply sublist_cons].
Qed.

Lemma StronglySorted_sublist {B} (R : B → B → Prop) (l k : list B) :
  l `sublist_of` k → StronglySorted R k → StronglySorted R l.
Proof.
  induction 1 as [|x l k Hs IH|x l k Hs IH]; intros Hk; [done|..].
  - apply StronglySorted_inv in Hk as [Hk Hx]. constructor; [by apply IH|].
    apply Forall_forall. intros y Hy.
    apply (proj1 (Forall_forall _ _) Hx). by eapply elem_of_sublist.
  - apply StronglySorted_inv in Hk as [Hk _]. by apply IH.
Qed.

Lemma seq_sorted j n : StronglySorted lt (seq j n).
Proof.
  revert j. induction n as [|n IH]; intros j; simpl; constructor; [apply IH|].
  apply Forall_forall. intros i Hi%elem_of_seq. lia.
Qed.

(** X8: every group [group_CNAPs] returns is non-empty and lists its
    indices in strictly ascending order. *)
Theorem group_CNAPs_groups_ascending (CNAPs : list CNAP) :
  Forall (λ grp, grp ≠ [] ∧ StronglySorted lt grp) (group_CNAPs CNAPs).2.
Proof.
  unfold group_CNAPs. cbn [snd]. apply Forall_fmap, Forall_forall.
  intros key Hkey. unfold compose. split.
  - apply (proj1 (elem_of_unique_CNAPs CNAPs key)) in Hkey.
    apply list_elem_of_lookup in Hkey as [i Hi].
    apply (proj2 (elem_of_matching CNAPs key i)) in Hi. intros Hnil.
    rewrite Hnil in Hi. by apply elem_of_nil in Hi.
  - eapply StronglySorted_sublist; [|apply (seq_sorted 0 (length CNAPs))].
    rewrite <-fst_imap_pair. apply fmap_sublist, sublist_filter.
Qed.

(** ** [unique_bonds] on any matrix *)

Lemma StronglySorted_lookup_lt {B} (R : B → B → Prop) (l : list B) p q x y :
  StronglySorted R l → (p < q)%nat → l !! p = Some x → l !! q = Some y → R x y.
Proof.
  intros Hs. revert p q. induction Hs as [|z l Hs IH Hz]; intros p q Hpq; [done|].
  destruct q as [|q]; [lia|]. destruct p as [|p]; simpl.
  - intros [= ->] Hy. apply (proj1 (Forall_forall _ _) Hz).
    by eapply list_elem_of_lookup_2.
  - apply IH. lia.
Qed.

Lemma lex_compare_pair (i j i' j' : Z) :
  lex_compare [i; j] [i'; j'] = Lt ↔ i < i' ∨ (i = i' ∧ j < j').
Proof.
  simpl. destruct (Z.compare_spec i i'), (Z.compare_spec j j');
    split; try done; try lia; intros _; lia.
Qed.

(** X9: on a Graph that refers to a two-dimensional matrix, symmetric or
    not, [unique_bonds] lists the pair [i, j] with [i <= j] exactly when
    the matrix has a 1 at [(i, j)] or at [(j, i)]; a 1 on the diagonal is
    listed as [i, i].  The pairs come in ascending lexicographic order, so
    none is repeated, and [number_of_unique_bonds] is their number. *)
Theorem unique_bonds_any_matrix {item} (g : Graph item) (h : heap)
    (rows : list (list Z)) :
  h !! adj_mat g = Some (Arr2 rows) →
  ∃ bonds,
    unique_bonds g h = (Ok bonds, h)
    ∧ number_of_unique_bonds g h = (Ok (Z.of_nat (length bonds)), h)
    ∧ (∀ b, b ∈ bonds
            ↔ ∃ i j : nat, (i ≤ j)%nat
                ∧ (entry rows i j = Some 1 ∨ entry rows j i = Some 1)
                ∧ b = [Z.of_nat i; Z.of_nat j])
    ∧ (∀ p q i j i' j', (p < q)%nat →
         bonds !! p = Some [i; j] → bonds !! q = Some [i'; j'] →
         i < i' ∨ (i = i' ∧ j < j')).
Proof.
  intros Ha. exists (unique_bonds_of (Arr2 rows)). split_and!.
  - by apply unique_bonds_read.
  - by apply number_of_unique_bonds_read.
  - intros b. rewrite elem_of_unique_bonds_of. split.
    + intros (i & j & He & ->). destruct (le_lt_dec i j).
      * exists i, j. split_and!; [done | by left |]. f_equal; [|f_equal]; lia.
      * exists j, i. split_and!; [lia | by right |]. f_equal; [|f_equal]; lia.
    + intros (i & j & Hij & [He|He] & ->).
      * exists i, j. split; [done|]. f_equal; [|f_equal]; lia.
      * exists j, i. split; [done|]. f_equal; [|f_equal]; lia.
  - intros p q i j i' j' Hpq Hp Hq. apply lex_compare_pair.
    eapply (StronglySorted_lookup_lt (cmp_lt lex_compare)); [|done..].
    apply (np_unique_sorted lex_compare).
Qed.

Lemma unique_bonds_any_matrix_witness :
  ∃ bonds,
    unique_bonds (mkGraph 0%nat [[0; 1]; []]
                    (default_positions (item:=unit)) None)
      [Arr2 [[1; 1]; [0; 0]]]
    = (Ok bonds, [Arr2 [[1; 1]; [0; 0]]])
    ∧ number_of_unique_bonds
        (mkGraph 0%nat [[0; 1]; []] (default_positions (item:=unit)) None)
        [Arr2 [[1; 1]; [0; 0]]]
      = (Ok (Z.of_nat (length bonds)), [Arr2 [[1; 1]; [0; 0]]])
    ∧ (∀ b, b ∈ bonds
            ↔ ∃ i j : nat, (i ≤ j)%nat
                ∧ (entry [[1; 1]; [0; 0]] i j = Some 1
                   ∨ entry [[1; 1]; [0; 0]] j i = Some 1)
                ∧ b = [Z.of_nat i; Z.of_nat j])
    ∧ (∀ p q i j i' j', (p < q)%nat →
         bonds !! p = Some [i; j] → bonds !! q = Some [i'; j'] →
         i < i' ∨ (i = i' ∧ j < j')).
Proof.
  apply (unique_bonds_any_matrix
           (mkGraph 0%nat [[0; 1]; []] (default_positions (item:=unit)) None)
           [Arr2 [[1; 1]; [0; 0]]] [[1; 1]; [0; 0]]).
  reflexivity.
Defined.

(** ** Subgraphs of a Graph with positions *)

Lemma of_nat_to_nat_fmap (l : list Z) :
  Forall (λ z, 0 ≤ z) l → Z.of_nat <$> (Z.to_nat <$> l) = l.
Proof.
  induction 1 as [|z l Hz _ IH]; csimpl; [done|].
  by rewrite IH, Z2Nat.id.
Qed.

Lemma built_on_prefix {item} (g : Graph item) R h h' :
  built_on g R h → h `prefix_of` h' → built_on g R h'.
Proof. intros [Ha Hl] Hp. split; [by eapply prefix_lookup_Some | done]. Qed.

(** [make_subgraph] with an index array inside [0, N), on a Graph as
    constructed over a square matrix with a position per node: the result
    is again such a Graph, over a fresh square matrix. *)
Lemma make_subgraph_built {item} (g : Graph item) R h (ps : list item)
    (idx : list Z) :
  built_on g R h → square R →
  positions g = PosArray ps → length ps = length R →
  Forall (λ z, 0 ≤ z < Z.of_nat (length R)) idx →
  ∃ sg s ps',
    make_subgraph g (NdInt idx) h = (Ok sg, h ++ [Arr2 s])
    ∧ built_on sg s (h ++ [Arr2 s]) ∧ square s
    ∧ length s = length idx
    ∧ positions sg = PosArray ps' ∧ length ps' = length s.
Proof.
  intros [Ha _] Hsq Hp Hlen Hidx.
  destruct (make_subgraph_induced g h R ps (NdInt idx) (Z.to_nat <$> idx))
    as (s & ps' & Hm & Ls & Ss & Lp & _ & _); [done..| | |].
  { simpl. f_equal. symmetry. apply of_nat_to_nat_fmap.
    eapply Forall_impl; [exact Hidx|]. simpl. lia. }
  { apply Forall_fmap. eapply Forall_impl; [exact Hidx|]. simpl. lia. }
  rewrite length_fmap in Ls, Lp. eexists _, s, ps'. split; [exact Hm|].
  split_and!; try done; [|congruence].
  split; [|done]. simpl. by rewrite lookup_app_r, Nat.sub_diag.
Qed.

(** X10: [make_subgraph] on a Graph that carries a position per node.  For
    a non-empty list (or any index array) of indices in [0, N) the call
    returns a Graph on a fresh matrix and leaves the store otherwise as it
    was.  The new Graph has one node per index given, in the order given
    (an index given twice gives two nodes); its matrix is square, has the
    parent's entry at the two indices off the diagonal and 0 on it; its
    adjacency list is read off that matrix; its positions are the parent's
    at the indices; its root node is [None]. *)
Theorem make_subgraph_with_positions {item} (g : Graph item) (h : heap)
    (rows : list (list Z)) (ps : list item) (nodes : pyseq)
    (idx : list nat) :
  h !! adj_mat g = Some (Arr2 rows) → square rows →
  positions g = PosArray ps → length ps = length rows →
  nodes ≠ PyList [] → items nodes = Z.of_nat <$> idx →
  Forall (λ i, (i < length rows)%nat) idx →
  ∃ sg s ps',
    make_subgraph g nodes h = (Ok sg, h ++ [Arr2 s])
    ∧ adj_mat sg = length h ∧ adj_list sg = neighbours s
    ∧ positions sg = PosArray ps' ∧ root_node sg = None
    ∧ number_of_nodes sg (h ++ [Arr2 s])
      = (Ok (Z.of_nat (length idx)), h ++ [Arr2 s])
    ∧ square s ∧ length ps' = length idx
    ∧ (∀ a b i j, idx !! a = Some i → idx !! b = Some j →
         entry s a b = if decide (a = b) then Some 0 else entry rows i j)
    ∧ (∀ a i, idx !! a = Some i → ps' !! a = ps !! i).
Proof.
  intros Ha Hsq Hp Hlen Hne Hit Hr.
  destruct (make_subgraph_induced g h rows ps nodes idx)
    as (s & ps' & Hm & Ls & Ss & Lp & He & Hps); [done..| |done|].
  { rewrite <-Hit. destruct nodes as [[|??]|?]; done. }
  eexists _, s, ps'. split; [exact Hm|]. split_and!; try done.
  rewrite <-Ls. apply (number_of_nodes_read _ _ (Arr2 s)). simpl.
  by rewrite lookup_app_r, Nat.sub_diag.
Qed.

Lemma make_subgraph_with_positions_witness :
  ∃ sg s ps',
    make_subgraph (mkGraph 0%nat [[1; 2]; [0; 2]; [0; 1]]
                     (PosArray [10; 11; 12]) None)
      (PyList [2; 0]) [triangle]
    = (Ok sg, [triangle] ++ [Arr2 s])
    ∧ adj_mat sg = length [triangle] ∧ adj_list sg = neighbours s
    ∧ positions sg = PosArray ps' ∧ root_node sg = None
    ∧ number_of_nodes sg ([triangle] ++ [Arr2 s])
      = (Ok (Z.of_nat (length [2; 0]%nat)), [triangle] ++ [Arr2 s])
    ∧ square s ∧ length ps' = length [2; 0]%nat
    ∧ (∀ a b i j, [2; 0]%nat !! a = Some i → [2; 0]%nat !! b = Some j →
         entry s a b = if decide (a = b) then Some 0
                       else entry [[0; 1; 1]; [1; 0; 1]; [1; 1; 0]] i j)
    ∧ (∀ a i, [2; 0]%nat !! a = Some i → ps' !! a = [10; 11; 12] !! i).
Proof.
  apply (make_subgraph_with_positions
           (mkGraph 0%nat [[1; 2]; [0; 2]; [0; 1]] (PosArray [10; 11; 12]) None)
           [triangle] [[0; 1; 1]; [1; 0; 1]; [1; 1; 0]] [10; 11; 12]
           (PyList [2; 0]) [2; 0]%nat).
  - reflexivity.
  - repeat constructor.
  - reflexivity.
  - reflexivity.
  - discriminate.
  - reflexivity.
  - repeat constructor.
Defined.

(** X11: a Graph constructed with the default [node_positions] has no
    subgraphs: whatever array it was constructed on and whatever index
    list is passed, in whatever store, [make_subgraph] raises. *)
Theorem make_subgraph_needs_positions {item} (h : heap) (a : loc)
    (fill_diag : bool) (root : option Z) (g : Graph item) (h1 : heap)
    (nodes : pyseq) (h2 : heap) :
  Graph_init a default_positions fill_diag root h = (Ok g, h1) →
  ∃ e h3, make_subgraph g nodes h2 = (Raise e, h3)
          ∧ ∀ l x, h2 !! l = Some x → h3 !! l = Some x.
Proof.
  intros Hg.
  destruct (make_subgraph_default_positions_never _ _ _ _ _ _ nodes h2 Hg)
    as (e & h3 & Hm).
  exists e, h3. split; [done|]. intros l x Hl.
  eapply prefix_lookup_Some; [done|]. by eapply make_subgraph_prefix.
Qed.

Lemma make_subgraph_needs_positions_witness :
  ∃ e h3,
    make_subgraph (mkGraph 0%nat [[1]; [0]] (default_positions (item:=unit))
                     None)
      (PyList [0]) [Arr2 [[0; 1]; [1; 0]]] = (Raise e, h3)
    ∧ ∀ l x, [Arr2 [[0; 1]; [1; 0]]] !! l = Some x → h3 !! l = Some x.
Proof.
  apply (make_subgraph_needs_positions [Arr2 [[0; 1]; [1; 0]]] 0%nat true None
           _ [Arr2 [[0; 1]; [1; 0]]]).
  vm_compute. reflexivity.
Defined.

(** ** [make_neighbors_subgraph] *)





(** ** The pipeline on a Graph with positions *)

(** A loop in the store whose every round succeeds and keeps an invariant
    of the store: the loop succeeds, and what each round established still
    holds at the end if it is stable as the store grows. *)
Lemma mapP_Ok_Forall2 {A B} (f : A → py B) (I : heap → Prop)
    (Q : A → B → heap → Prop) (l : list A) :
  (∀ x y h h', Q x y h → I h' → h `prefix_of` h' → Q x y h') →
  (∀ x h, x ∈ l → I h →
     ∃ y h', f x h = (Ok y, h') ∧ I h' ∧ h `prefix_of` h' ∧ Q x y h') →
  ∀ h, I h →
    ∃ ys h', mapP f l h = (Ok ys, h') ∧ I h' ∧ h `prefix_of` h'
             ∧ Forall2 (λ x y, Q x y h') l ys.
Proof.
  intros Hst. induction l as [|x l IH]; intros Hf h Hh.
  { exists [], h. split_and!; [done..|constructor]. }
  destruct (Hf x h) as (y & h1 & Hy & Hh1 & Hp1 & HQ); [left|done|].
  destruct (IH (λ x' h' Hx', Hf x' h' (list_elem_of_further _ _ _ Hx')) h1 Hh1)
    as (ys & h2 & Hys & Hh2 & Hp2 & HF).
  exists (y :: ys), h2. split_and!.
  - simpl. unfold mbind, py_bind, mret, py_ret. by rewrite Hy, Hys.
  - done.
  - by etrans.
  - constructor; [by eapply Hst | done].
Qed.

Lemma Forall2_chain {A B C} (P : A → B → Prop) (Q : B → C → Prop)
    (R : A → C → Prop) la lb lc :
  (∀ x y z, P x y → Q y z → R x z) →
  Forall2 P la lb → Forall2 Q lb lc → Forall2 R la lc.
Proof.
  intros H HP. revert lc. induction HP as [|x y la lb Hxy _ IH]; intros lc HQ.
  - inversion HQ. constructor.
  - inversion HQ as [|? z ? lc' Hyz HQ']; subst. constructor; eauto.
Qed.

Lemma elem_of_np_intersect1d (a b : list Z) z :
  z ∈ np_intersect1d a b ↔ z ∈ a ∧ z ∈ b.
Proof.
  unfold np_intersect1d. rewrite list_elem_of_filter.
  rewrite !(elem_of_np_unique Z.compare). tauto.
Qed.

Lemma np_intersect1d_NoDup (a b : list Z) : NoDup (np_intersect1d a b).
Proof. apply NoDup_filter, (np_unique_NoDup Z.compare). Qed.

Lemma unique_bonds_of_range R b :
  square R → b ∈ unique_bonds_of (Arr2 R) →
  ∃ i j : nat, b = [Z.of_nat i; Z.of_nat j]
               ∧ (i < length R)%nat ∧ (j < length R)%nat.
Proof.
  intros Hsq (i & j & (row & Hi & Hj)%entry_Some & ->)%elem_of_unique_bonds_of.
  assert (length row = length R) as Hlen.
  { apply (proj1 (Forall_forall _ _) Hsq). by eapply list_elem_of_lookup_2. }
  apply lookup_lt_Some in Hi, Hj. rewrite Hlen in Hj.
  destruct (Z.min_spec (Z.of_nat i) (Z.of_nat j)) as [[_ ->]|[_ ->]],
           (Z.max_spec (Z.of_nat i) (Z.of_nat j)) as [[_ ->]|[_ ->]]; eauto.
Qed.

Section PipelineSuccess.
Context {item : Type}.
Implicit Types (g : Graph item) (h : heap).

Lemma get_cns_subgraphs_Ok g R h (ps : list item) :
  built_on g R h → square R →
  positions g = PosArray ps → length ps = length R →
  ∃ sgs h', get_cns_subgraphs g h = (Ok sgs, h') ∧ h `prefix_of` h'
            ∧ Forall2 (λ bond sg, cns_of g bond sg h')
                      (unique_bonds_of (Arr2 R)) sgs.
Proof.
  intros Hb Hsq Hp Hlen. unfold get_cns_subgraphs.
  unfold mbind at 1, py_bind at 1. rewrite (unique_bonds_read _ _ _ (proj1 Hb)).
  edestruct (mapP_Ok_Forall2
    (λ bond, '(i, j) ← lift (unpack2 bond);
             ai ← lift (getitem (adj_list g) i);
             aj ← lift (getitem (adj_list g) j);
             make_subgraph g (NdInt (np_intersect1d ai aj)))
    (λ h', h `prefix_of` h') (cns_of g) (unique_bonds_of (Arr2 R)))
    as (sgs & h' & Hm & _ & Hpre & HF); [| |reflexivity|].
  - intros bond sg h1 h2 (i & j & ai & aj & s & -> & Hai & Haj & Hs & Hss & Hl) _ Hp12.
    exists i, j, ai, aj, s. split_and!; try done. by eapply built_on_prefix.
  - intros bond h1 Hbond Hh1.
    destruct (unique_bonds_of_range R bond Hsq Hbond) as (i & j & -> & Hi & Hj).
    destruct Hb as [HR Hadj].
    assert (is_Some (neighbours R !! i)) as [ai Hai].
    { apply lookup_lt_is_Some_2. unfold neighbours. by rewrite length_fmap. }
    assert (is_Some (neighbours R !! j)) as [aj Haj].
    { apply lookup_lt_is_Some_2. unfold neighbours. by rewrite length_fmap. }
    destruct (make_subgraph_built g R h1 ps (np_intersect1d ai aj))
      as (sg & s & ps' & Hm & Hbs & Hss & Hls & _ & _); [|done|done|done| |].
    { split; [by eapply prefix_lookup_Some | done]. }
    { apply Forall_forall. intros z [Hz _]%elem_of_np_intersect1d.
      pose proof (neighbours_closed R Hsq) as Hc. unfold adj_closed in Hc.
      unfold neighbours in Hc at 1. rewrite length_fmap in Hc.
      apply (proj1 (Forall_forall _ _)
               (proj1 (Forall_forall _ _) Hc ai
                  (list_elem_of_lookup_2 _ _ _ Hai)) z Hz). }
    exists sg, (h1 ++ [Arr2 s]). split_and!.
    + unfold mbind, py_bind, lift. simpl.
      rewrite Hadj, (getitem_nat _ _ _ Hai), (getitem_nat _ _ _ Haj). exact Hm.
    + etrans; [done|]. by apply prefix_app_r.
    + by apply prefix_app_r.
    + exists i, j, ai, aj, s. rewrite Hadj. by split_and!.
  - exists sgs, h'. by split_and!.
Qed.
End PipelineSuccess.

Lemma append_at_Ok_nat spn (i : nat) sig :
  (i < length spn)%nat →
  ∃ spn', append_at spn (Z.of_nat i) sig = Ok spn'
          ∧ length spn' = length spn.
Proof.
  intros Hi. apply lookup_lt_is_Some_2 in Hi as [l Hl].
  exists (<[i := l ++ [sig]]> spn). split; [|apply length_insert].
  unfold append_at, py_index, mbind, result_bind.
  apply lookup_lt_Some in Hl as Hi.
  rewrite decide_True by lia. by rewrite Nat2Z.id, Hl.
Qed.

Lemma record_bonds_Ok zs spn :
  Forall (λ sb : signature * list Z,
            ∃ i j : nat, sb.2 = [Z.of_nat i; Z.of_nat j]
                         ∧ (i < length spn)%nat ∧ (j < length spn)%nat) zs →
  ∃ spn', fold_left record_bond zs (Ok spn) = Ok spn'
          ∧ length spn' = length spn.
Proof.
  revert spn. induction zs as [|[sig bond] zs IH]; intros spn Hz.
  { exists spn. done. }
  apply Forall_cons in Hz as [(i & j & Hb & Hi & Hj) Hz]. simpl in Hb. subst bond.
  destruct (append_at_Ok_nat spn i sig Hi) as (spa & Ha & La).
  destruct (append_at_Ok_nat spa j sig) as (spb & Hb & Lb); [lia|].
  destruct (IH spb) as (spn' & Hf & Ln).
  { eapply Forall_impl; [exact Hz|]. intros sb (i' & j' & ? & ? & ?).
    exists i', j'. split; [done|]. lia. }
  exists spn'. split; [|lia].
  cbn [fold_left record_bond unpack2]. unfold mbind, result_bind.
  by rewrite Ha, Hb.
Qed.

Section PipelineResults.
Context {item : Type}.
Implicit Types (g : Graph item) (h : heap).

Lemma compute_signatures_Ok g R h (ps : list item) :
  built_on g R h → square R →
  positions g = PosArray ps → length ps = length R →
  ∃ sigs h', compute_signatures g h = (Ok sigs, h') ∧ h `prefix_of` h'
    ∧ Forall2 (λ bond (sig : signature),
                 ∃ (i j : nat) ai aj,
                   bond = [Z.of_nat i; Z.of_nat j]
                   ∧ adj_list g !! i = Some ai ∧ adj_list g !! j = Some aj
                   ∧ sig.1.1 = Z.of_nat (length (np_intersect1d ai aj))
                   ∧ 0 ≤ sig.1.2 ∧ 0 ≤ sig.2 ≤ sig.1.1)
              (unique_bonds_of (Arr2 R)) sigs.
Proof.
  intros Hb Hsq Hp Hlen.
  destruct (get_cns_subgraphs_Ok g R h ps Hb Hsq Hp Hlen)
    as (sgs & h1 & Hsgs & Hpre & HF).
  unfold compute_signatures. unfold mbind at 1, py_bind at 1. rewrite Hsgs.
  edestruct (mapP_Ok_Forall2
    (λ subgraph : Graph item,
       i ← number_of_nodes subgraph;
       j ← number_of_unique_bonds subgraph;
       k ← lift (longest_chain subgraph);
       mret (i, j, k))
    (λ h', h' = h1)
    (λ (sg : Graph item) (sig : signature) (_ : heap),
       ∃ s, built_on sg s h1 ∧ sig.1.1 = Z.of_nat (length s)
            ∧ 0 ≤ sig.1.2 ∧ 0 ≤ sig.2 ≤ sig.1.1) sgs)
    as (sigs & h' & Hm & -> & _ & HF2); [| |reflexivity|].
  - intros sg sig h2 h3 HQ _ _. exact HQ.
  - intros sg h2 Hsg ->.
    apply list_elem_of_lookup in Hsg as [k Hk].
    destruct (Forall2_lookup_r _ _ _ _ _ HF Hk)
      as (bond & _ & (i & j & ai & aj & s & _ & _ & _ & Hbs & Hss & _)).
    destruct Hbs as [Hs Hadj].
    destruct (longest_chain_closed sg) as (z & Hz & Hzr & _).
    { rewrite Hadj. by apply neighbours_closed. }
    rewrite Hadj in Hzr. unfold neighbours in Hzr. rewrite length_fmap in Hzr.
    eexists _, h1. split_and!; [|done|done|].
    + unfold mbind, py_bind.
      rewrite (number_of_nodes_read _ _ _ Hs),
              (number_of_unique_bonds_read _ _ _ Hs).
      unfold lift. rewrite Hz. reflexivity.
    + exists s. simpl. split; [by split|]. split; [done|]. split; [lia|done].
  - exists sigs, h1. split_and!; [done..|].
    eapply Forall2_chain; [|exact HF|exact HF2]. simpl.
    intros bond sg sig (i & j & ai & aj & s & -> & Hai & Haj & [Hs _] & _ & Hl)
      (s' & [Hs' _] & Hn & Hbnd & Hch).
    assert (s' = s) as -> by congruence.
    exists i, j, ai, aj. split_and!; try done; try lia; congruence.
Qed.

Lemma get_CNAPs_Ok g R h (ps : list item) :
  built_on g R h → square R →
  positions g = PosArray ps → length ps = length R →
  ∃ cnaps h', get_CNAPs g h = (Ok cnaps, h') ∧ h `prefix_of` h'
              ∧ length cnaps = length R.
Proof.
  intros Hb Hsq Hp Hlen.
  destruct (compute_signatures_Ok g R h ps Hb Hsq Hp Hlen)
    as (sigs & h1 & Hsigs & Hpre & HF).
  pose proof (built_on_prefix _ _ _ _ Hb Hpre) as [HR1 _].
  destruct (record_bonds_Ok (zip sigs (unique_bonds_of (Arr2 R)))
              (replicate (length R) [])) as (spn & Hspn & Lspn).
  { apply Forall_forall. intros [sig bond] Hin%elem_of_zip_r.
    destruct (unique_bonds_of_range R bond Hsq Hin) as (i & j & -> & Hi & Hj).
    exists i, j. rewrite length_replicate. done. }
  exists (get_occurrences <$> spn), h1. split_and!; [|done|].
  - unfold get_CNAPs. unfold mbind, py_bind. rewrite Hsigs.
    rewrite (unique_bonds_read _ _ _ HR1), (number_of_nodes_read _ _ _ HR1).
    unfold lift. simpl. rewrite Nat2Z.id, Hspn. reflexivity.
  - by rewrite length_fmap, Lspn, length_replicate.
Qed.
End PipelineResults.

(** X13: on a Graph constructed on a square matrix, symmetric or not, with
    an array of one position per node, the whole pipeline returns:
    [compute_signatures] gives one signature [(n, b, l)] per bond of
    [unique_bonds], in the same order, where for the bond [(i, j)] the
    number [n] is the number of entries the adjacency lists of [i] and [j]
    have in common, [b] is not negative and [0 <= l <= n]; [get_CNAPs]
    gives one CNAP per node.  Arrays that existed before the calls are
    unchanged. *)
Theorem pipeline_returns_with_positions {item} (h0 : heap) (a : loc)
    (rows : list (list Z)) (ps : list item) (fill_diag : bool)
    (root : option Z) (g : Graph item) (h : heap) :
  h0 !! a = Some (Arr2 rows) → square rows → length ps = length rows →
  Graph_init a (PosArray ps) fill_diag root h0 = (Ok g, h) →
  ∃ bonds sigs h1 cnaps h2,
    unique_bonds g h = (Ok bonds, h)
    ∧ compute_signatures g h = (Ok sigs, h1)
    ∧ Forall2 (λ bond (sig : signature),
                 ∃ (i j : nat) ai aj,
                   bond = [Z.of_nat i; Z.of_nat j]
                   ∧ adj_list g !! i = Some ai ∧ adj_list g !! j = Some aj
                   ∧ sig.1.1 = Z.of_nat (length (np_intersect1d ai aj))
                   ∧ (∀ z, z ∈ np_intersect1d ai aj ↔ z ∈ ai ∧ z ∈ aj)
                   ∧ 0 ≤ sig.1.2 ∧ 0 ≤ sig.2 ≤ sig.1.1)
              bonds sigs
    ∧ get_CNAPs g h = (Ok cnaps, h2)
    ∧ length cnaps = length rows
    ∧ (∀ l x, h !! l = Some x → h1 !! l = Some x ∧ h2 !! l = Some x).
Proof.
  intros Ha Hsq Hlen Hg.
  destruct (Graph_init_built _ _ _ _ _ _ _ _ Ha Hg) as (Hb & Hp & _ & _).
  set (R := if fill_diag then zeroed rows else rows) in *.
  assert (HsqR : square R).
  { subst R. destruct fill_diag; [by apply zeroed_square | done]. }
  assert (HlenR : length R = length rows).
  { subst R. destruct fill_diag; [apply length_zeroed | done]. }
  destruct (compute_signatures_Ok g R h ps Hb HsqR Hp) as
    (sigs & h1 & Hsigs & Hpre1 & HF); [lia|].
  destruct (get_CNAPs_Ok g R h ps Hb HsqR Hp) as
    (cnaps & h2 & Hcn & Hpre2 & Lcn); [lia|].
  exists (unique_bonds_of (Arr2 R)), sigs, h1, cnaps, h2. split_and!.
  - apply unique_bonds_read, Hb.
  - done.
  - eapply Forall2_impl; [exact HF|]. simpl.
    intros bond sig (i & j & ai & aj & ? & ? & ? & ? & ? & ?).
    exists i, j, ai, aj. split_and!; try done; try lia.
    intros z. apply elem_of_np_intersect1d.
  - done.
  - lia.
  - intros l x Hl. split; by eapply prefix_lookup_Some.
Qed.

Lemma pipeline_returns_with_positions_witness :
  ∃ bonds sigs h1 cnaps h2,
    unique_bonds (mkGraph 0%nat [[1; 2]; [0; 2]; [0; 1]]
                    (PosArray [10; 11; 12]) None) [triangle]
    = (Ok bonds, [triangle])
    ∧ compute_signatures (mkGraph 0%nat [[1; 2]; [0; 2]; [0; 1]]
                            (PosArray [10; 11; 12]) None) [triangle]
      = (Ok sigs, h1)
    ∧ Forall2 (λ bond (sig : signature),
                 ∃ (i j : nat) ai aj,
                   bond = [Z.of_nat i; Z.of_nat j]
                   ∧ [[1; 2]; [0; 2]; [0; 1]] !! i = Some ai
                   ∧ [[1; 2]; [0; 2]; [0; 1]] !! j = Some aj
                   ∧ sig.1.1 = Z.of_nat (length (np_intersect1d ai aj))
                   ∧ (∀ z, z ∈ np_intersect1d ai aj ↔ z ∈ ai ∧ z ∈ aj)
                   ∧ 0 ≤ sig.1.2 ∧ 0 ≤ sig.2 ≤ sig.1.1)
              bonds sigs
    ∧ get_CNAPs (mkGraph 0%nat [[1; 2]; [0; 2]; [0; 1]]
                   (PosArray [10; 11; 12]) None) [triangle]
      = (Ok cnaps, h2)
    ∧ length cnaps = length [[0; 1; 1]; [1; 0; 1]; [1; 1; 0]]
    ∧ (∀ l x, [triangle] !! l = Some x →
              h1 !! l = Some x ∧ h2 !! l = Some x).
Proof.
  apply (pipeline_returns_with_positions [triangle] 0%nat
           [[0; 1; 1]; [1; 0; 1]; [1; 1; 0]] [10; 11; 12] true None
           (mkGraph 0%nat [[1; 2]; [0; 2]; [0; 1]] (PosArray [10; 11; 12]) None)
           [triangle]).
  - reflexivity.
  - repeat constructor.
  - reflexivity.
  - vm_compute. reflexivity.
Defined.

(** ** The pipeline on a Graph without positions *)

Lemma np_getitem_ix_Ok_range R (idx : list Z) :
  square R → Forall (λ z, 0 ≤ z < Z.of_nat (length R)) idx →
  ∃ s, np_getitem_ix (Arr2 R) (IntIndex idx) = Ok (Arr2 s).
Proof.
  intros Hsq Hidx.
  assert (Hnat : Z.of_nat <$> (Z.to_nat <$> idx) = idx).
  { apply of_nat_to_nat_fmap. eapply Forall_impl; [exact Hidx|]. simpl. lia. }
  assert (Hr : ∀ l : list (list Z), length l = length R →
                 Forall (λ i, (i < length l)%nat) (Z.to_nat <$> idx)).
  { intros l Hl. apply Forall_fmap. eapply Forall_impl; [exact Hidx|].
    simpl. lia. }
  destruct (take_nat_Ok R (Z.to_nat <$> idx) (Hr R eq_refl)) as [sel Hsel].
  rewrite Hnat in Hsel.
  destruct (mapR_total (λ r, take r idx) sel) as [s Hs].
  { intros r Hin. rewrite <-Hnat. apply take_nat_Ok.
    assert (length r = length R) as Hlr.
    { eapply (proj1 (Forall_forall _ _) Hsq), take_elem_of; done. }
    apply Forall_fmap. eapply Forall_impl; [exact Hidx|]. simpl. lia. }
  exists s. simpl. unfold mbind, result_bind. by rewrite Hsel, Hs.
Qed.

Lemma make_subgraph_PosList_TypeError {item} (g : Graph item) R h l idx :
  h !! adj_mat g = Some (Arr2 R) → square R → positions g = PosList l →
  Forall (λ z, 0 ≤ z < Z.of_nat (length R)) idx →
  ∃ s, make_subgraph g (NdInt idx) h = (Raise TypeError, h ++ [Arr2 s]).
Proof.
  intros Ha Hsq Hp Hidx. rewrite make_subgraph_unfold, Ha, Hp.
  destruct (np_getitem_ix_Ok_range R idx Hsq Hidx) as [s Hs].
  cbn [np_array]. rewrite Hs. simpl. eauto.
Qed.

Lemma mapP_Raise_head {A B} (f : A → py B) x l h e h' :
  f x h = (Raise e, h') → mapP f (x :: l) h = (Raise e, h').
Proof. intros Hf. simpl. unfold mbind, py_bind. by rewrite Hf. Qed.

(** X14: on a Graph constructed on a square matrix with the default
    [node_positions], the pipeline returns only when there is no bond:
    then [compute_signatures] gives the empty list and [get_CNAPs] an empty
    CNAP for every node, and the store is unchanged.  With one bond or
    more, both raise [TypeError], in the first [make_subgraph], leaving
    the one matrix it extracted in the store. *)
Theorem pipeline_without_positions {item} (h0 : heap) (a : loc)
    (rows : list (list Z)) (fill_diag : bool) (root : option Z)
    (g : Graph item) (h : heap) :
  h0 !! a = Some (Arr2 rows) → square rows →
  Graph_init a default_positions fill_diag root h0 = (Ok g, h) →
  ∃ bonds,
    unique_bonds g h = (Ok bonds, h)
    ∧ (bonds = [] →
       compute_signatures g h = (Ok [], h)
       ∧ get_CNAPs g h = (Ok (replicate (length rows) []), h))
    ∧ (bonds ≠ [] →
       ∃ s, compute_signatures g h = (Raise TypeError, h ++ [Arr2 s])
            ∧ get_CNAPs g h = (Raise TypeError, h ++ [Arr2 s])).
Proof.
  intros Ha Hsq Hg.
  destruct (Graph_init_built _ _ _ _ _ _ _ _ Ha Hg) as ([HR Hadj] & Hp & _ & _).
  set (R := if fill_diag then zeroed rows else rows) in *.
  assert (HsqR : square R).
  { subst R. destruct fill_diag; [by apply zeroed_square | done]. }
  assert (HlenR : length R = length rows).
  { subst R. destruct fill_diag; [apply length_zeroed | done]. }
  exists (unique_bonds_of (Arr2 R)). split; [by apply unique_bonds_read|].
  split.
  - intros Hnil.
    assert (Hcs : compute_signatures g h = (Ok [], h)).
    { unfold compute_signatures, get_cns_subgraphs. unfold mbind, py_bind.
      rewrite (unique_bonds_read _ _ _ HR), Hnil. reflexivity. }
    split; [done|]. unfold get_CNAPs. unfold mbind, py_bind. rewrite Hcs.
    rewrite (unique_bonds_read _ _ _ HR), (number_of_nodes_read _ _ _ HR).
    unfold lift, mret, py_ret. simpl. rewrite Nat2Z.id, HlenR.
    by rewrite fmap_replicate.
  - intros Hne. destruct (unique_bonds_of (Arr2 R)) as [|bond bonds] eqn:Eb; [done|].
    destruct (unique_bonds_of_range R bond HsqR) as (i & j & -> & Hi & Hj).
    { rewrite Eb. left. }
    assert (is_Some (neighbours R !! i)) as [ai Hai].
    { apply lookup_lt_is_Some_2. unfold neighbours. by rewrite length_fmap. }
    assert (is_Some (neighbours R !! j)) as [aj Haj].
    { apply lookup_lt_is_Some_2. unfold neighbours. by rewrite length_fmap. }
    destruct (make_subgraph_PosList_TypeError g R h [] (np_intersect1d ai aj))
      as [s Hs]; [done..| |].
    { apply Forall_forall. intros z [Hz _]%elem_of_np_intersect1d.
      pose proof (neighbours_closed R HsqR) as Hc. unfold adj_closed in Hc.
      unfold neighbours in Hc at 1. rewrite length_fmap in Hc.
      apply (proj1 (Forall_forall _ _)
               (proj1 (Forall_forall _ _) Hc ai
                  (list_elem_of_lookup_2 _ _ _ Hai)) z Hz). }
    exists s.
    assert (Hcs : compute_signatures g h = (Raise TypeError, h ++ [Arr2 s])).
    { assert (Hgc : get_cns_subgraphs g h
                    = (Raise TypeError, h ++ [Arr2 s])).
      { unfold get_cns_subgraphs. unfold mbind at 1, py_bind at 1.
        rewrite (unique_bonds_read _ _ _ HR), Eb. apply mapP_Raise_head.
        unfold mbind, py_bind, lift. simpl.
        rewrite Hadj, (getitem_nat _ _ _ Hai), (getitem_nat _ _ _ Haj).
        exact Hs. }
      unfold compute_signatures. unfold mbind at 1, py_bind at 1.
      by rewrite Hgc. }
    split; [done|]. unfold get_CNAPs. unfold mbind at 1, py_bind at 1.
    by rewrite Hcs.
Qed.

Lemma pipeline_without_positions_witness :
  ∃ bonds,
    unique_bonds (mkGraph 0%nat [[1]; [0]] (default_positions (item:=unit))
                    None) [Arr2 [[0; 1]; [1; 0]]]
    = (Ok bonds, [Arr2 [[0; 1]; [1; 0]]])
    ∧ (bonds = [] →
       compute_signatures
         (mkGraph 0%nat [[1]; [0]] (default_positions (item:=unit)) None)
         [Arr2 [[0; 1]; [1; 0]]] = (Ok [], [Arr2 [[0; 1]; [1; 0]]])
       ∧ get_CNAPs
           (mkGraph 0%nat [[1]; [0]] (default_positions (item:=unit)) None)
           [Arr2 [[0; 1]; [1; 0]]]
         = (Ok (replicate (length [[0; 1]; [1; 0]]) []),
            [Arr2 [[0; 1]; [1; 0]]]))
    ∧ (bonds ≠ [] →
       ∃ s, compute_signatures
              (mkGraph 0%nat [[1]; [0]] (default_positions (item:=unit)) None)
              [Arr2 [[0; 1]; [1; 0]]]
            = (Raise TypeError, [Arr2 [[0; 1]; [1; 0]]] ++ [Arr2 s])
            ∧ get_CNAPs
                (mkGraph 0%nat [[1]; [0]] (default_positions (item:=unit))
                   None) [Arr2 [[0; 1]; [1; 0]]]
              = (Raise TypeError, [Arr2 [[0; 1]; [1; 0]]] ++ [Arr2 s])).
Proof.
  apply (pipeline_without_positions [Arr2 [[0; 1]; [1; 0]]] 0%nat
           [[0; 1]; [1; 0]] true None
           (mkGraph 0%nat [[1]; [0]] default_positions None)
           [Arr2 [[0; 1]; [1; 0]]]).
  - reflexivity.
  - repeat constructor.
  - vm_compute. reflexivity.
Defined.

(** ** Degrees *)

Lemma minmax_pair_inj (n z1 z2 : Z) :
  [Z.min n z1; Z.max n z1] = [Z.min n z2; Z.max n z2] → z1 = z2.
Proof. intros [= Hmin Hmax]. lia. Qed.

(** In a symmetric matrix with zero diagonal, a node is touched by as many
    bonds as its adjacency list has entries. *)
Lemma incident_degree R (n : nat) nb :
  symmetric R → zero_diagonal R →
  neighbours R !! n = Some nb →
  length (incident n (unique_bonds_of (Arr2 R))) = length nb.
Proof.
  intros Hsym Hz Hnb.
  destruct (unique_bonds_of_symmetric R Hsym Hz) as [Hnd Hb].
  rewrite <-(length_fmap (λ z, [Z.min (Z.of_nat n) z; Z.max (Z.of_nat n) z]) nb).
  apply Permutation_length, NoDup_Permutation.
  - by apply NoDup_filter.
  - apply NoDup_fmap_2_strong.
    + intros z1 z2 _ _. apply minmax_pair_inj.
    + apply (StronglySorted_lt_NoDup Z.compare).
      by apply (neighbours_sorted R n).
  - intros b. unfold incident. rewrite list_elem_of_filter, Hb, list_elem_of_fmap.
    split.
    + intros [Hin (i & j & Hij & He & ->)].
      apply elem_of_cons in Hin as [Hin|Hin%list_elem_of_singleton];
        apply Nat2Z.inj in Hin as ->.
      * exists (Z.of_nat j). split; [f_equal; [|f_equal]; lia|].
        apply (elem_of_neighbours _ _ _ _ Hnb). eauto.
      * exists (Z.of_nat i). split; [f_equal; [|f_equal]; lia|].
        apply (elem_of_neighbours _ _ _ _ Hnb). exists i. by rewrite Hsym.
    + intros (z & -> & (j & -> & He)%(elem_of_neighbours _ _ _ _ Hnb)).
      assert (n ≠ j) as Hne by (intros ->; by apply Hz in He).
      destruct (lt_eq_lt_dec n j) as [[Hlt|?]|Hgt]; [|done|].
      * split; [apply elem_of_cons; left; lia|].
        exists n, j. split_and!; [done..|]. f_equal; [|f_equal]; lia.
      * split; [apply elem_of_cons; right; apply list_elem_of_singleton; lia|].
        exists j, n.
        split_and!; [done | by rewrite Hsym |]. f_equal; [|f_equal]; lia.
Qed.

Lemma sum_list_fmap_add {B} (f1 f2 : B → nat) (l : list B) :
  sum_list ((λ x, f1 x + f2 x)%nat <$> l)
  = (sum_list (f1 <$> l) + sum_list (f2 <$> l))%nat.
Proof. induction l as [|x l IH]; csimpl; [done|]. rewrite IH. lia. Qed.

Lemma sum_indicator_seq (i N : nat) :
  (i < N)%nat →
  sum_list ((λ n, if decide (n = i) then 1 else 0)%nat <$> seq 0 N) = 1%nat.
Proof.
  intros Hi. replace N with (i + S (N - S i))%nat by lia.
  rewrite seq_app, fmap_app, sum_list_with_app. csimpl.
  rewrite decide_True by done.
  assert (∀ j m, (∀ n, n ∈ seq j m → n ≠ i) →
            sum_list ((λ n, if decide (n = i) then 1 else 0)%nat <$> seq j m)
            = 0%nat) as H0.
  { intros j m. revert j. induction m as [|m IH]; intros j H; csimpl; [done|].
    rewrite decide_False by (apply H; left). rewrite IH; [done|].
    intros n Hn. apply H. by right. }
  rewrite !H0; [lia|..].
  - intros n Hn%elem_of_seq. lia.
  - intros n Hn%elem_of_seq. lia.
Qed.

Lemma incident_sum (bonds : list (list Z)) (N : nat) :
  Forall (λ b, ∃ i j : nat, b = [Z.of_nat i; Z.of_nat j] ∧ i ≠ j
                            ∧ (i < N)%nat ∧ (j < N)%nat) bonds →
  sum_list ((λ n, length (incident n bonds)) <$> seq 0 N)
  = (2 * length bonds)%nat.
Proof.
  induction 1 as [|b bonds (i & j & -> & Hij & Hi & Hj) _ IH].
  { simpl. induction (seq 0 N) as [|x l IHl]; csimpl; [done|]. by rewrite IHl. }
  rewrite (list_fmap_ext _
    (λ n, ((if decide (n = i) then 1 else 0) + (if decide (n = j) then 1 else 0)
           + length (incident n bonds))%nat) (seq 0 N)).
  2:{ intros k n _. by apply incident_cons_pair. }
  rewrite (sum_list_fmap_add
    (λ n, ((if decide (n = i) then 1 else 0)
           + (if decide (n = j) then 1 else 0))%nat)
    (λ n, length (incident n bonds))).
  rewrite (sum_list_fmap_add (λ n, if decide (n = i) then 1 else 0)%nat
                             (λ n, if decide (n = j) then 1 else 0)%nat).
  rewrite !sum_indicator_seq, IH by done. simpl. lia.
Qed.

(** X15: on a Graph constructed on a square, symmetric matrix with zero
    diagonal, the bonds of [unique_bonds] that touch a node are as many as
    the entries of its adjacency list, and the lengths of all adjacency
    lists add up to twice [number_of_unique_bonds]. *)
Theorem degree_and_bond_count {item} (h0 : heap) (a : loc)
    (rows : list (list Z)) (pos : positions_t item) (fill_diag : bool)
    (root : option Z) (g : Graph item) (h : heap) :
  h0 !! a = Some (Arr2 rows) →
  square rows → symmetric rows → zero_diagonal rows →
  Graph_init a pos fill_diag root h0 = (Ok g, h) →
  ∃ bonds,
    unique_bonds g h = (Ok bonds, h)
    ∧ number_of_unique_bonds g h = (Ok (Z.of_nat (length bonds)), h)
    ∧ (∀ n nb, adj_list g !! n = Some nb →
         length (incident n bonds) = length nb)
    ∧ sum_list (length <$> adj_list g) = (2 * length bonds)%nat.
Proof.
  intros Ha Hsq Hsym Hz Hg.
  destruct (Graph_init_built _ _ _ _ _ _ _ _ Ha Hg) as ([HR Hadj] & _ & _ & _).
  assert (HRr : (if fill_diag then zeroed rows else rows) = rows).
  { destruct fill_diag; [by apply zeroed_id | done]. }
  rewrite HRr in HR, Hadj. rewrite Hadj.
  exists (unique_bonds_of (Arr2 rows)). split_and!.
  - by apply unique_bonds_read.
  - by apply number_of_unique_bonds_read.
  - intros n nb Hnb. by apply incident_degree.
  - rewrite <-(incident_sum _ (length rows)).
    + f_equal. apply list_eq. intros n.
      rewrite !list_lookup_fmap.
      destruct (neighbours rows !! n) as [nb|] eqn:Hnb; simpl.
      * assert (n < length rows)%nat as Hn.
        { apply lookup_lt_Some in Hnb. unfold neighbours in Hnb.
          by rewrite length_fmap in Hnb. }
        rewrite lookup_seq_lt by done. simpl.
        by rewrite (incident_degree rows n nb).
      * apply lookup_ge_None in Hnb. unfold neighbours in Hnb.
        rewrite length_fmap in Hnb. by rewrite lookup_seq_ge.
    + apply Forall_forall. intros b Hb.
      destruct (unique_bonds_of_symmetric rows Hsym Hz) as [_ Hbs].
      apply Hbs in Hb as (i & j & Hij & He & ->).
      destruct (unique_bonds_of_range rows [Z.of_nat i; Z.of_nat j] Hsq)
        as (i' & j' & [= Hi' Hj'] & ? & ?).
      { apply Hbs. eauto. }
      apply Nat2Z.inj in Hi', Hj'. subst. exists i', j'.
      split_and!; [done | lia | done | done].
Qed.

Lemma degree_and_bond_count_witness :
  ∃ bonds,
    unique_bonds (mkGraph 0%nat [[1; 2]; [0; 2]; [0; 1]]
                    (default_positions (item:=unit)) None) [triangle]
    = (Ok bonds, [triangle])
    ∧ number_of_unique_bonds
        (mkGraph 0%nat [[1; 2]; [0; 2]; [0; 1]]
           (default_positions (item:=unit)) None) [triangle]
      = (Ok (Z.of_nat (length bonds)), [triangle])
    ∧ (∀ n nb, [[1; 2]; [0; 2]; [0; 1]] !! n = Some nb →
         length (incident n bonds) = length nb)
    ∧ sum_list (length <$> [[1; 2]; [0; 2]; [0; 1]])
      = (2 * length bonds)%nat.
Proof.
  apply (degree_and_bond_count [triangle] 0%nat
           [[0; 1; 1]; [1; 0; 1]; [1; 1; 0]] default_positions true None
           (mkGraph 0%nat [[1; 2]; [0; 2]; [0; 1]] default_positions None)
           [triangle]).
  - reflexivity.
  - repeat constructor.
  - intros [|[|[|i]]] [|[|[|j]]]; reflexivity.
  - intros [|[|[|i]]] x; unfold entry; simpl; congruence.
  - vm_compute. reflexivity.
Defined.

(** ** The sum of a node's counts *)

Lemma get_CNAPs_counts {item} (g : Graph item) R h cnaps h2 :
  built_on g R h → symmetric R → zero_diagonal R →
  get_CNAPs g h = (Ok cnaps, h2) →
  ∀ n c, cnaps !! n = Some c →
    total_count c
    = Z.of_nat (length (incident n (unique_bonds_of (Arr2 R)))).
Proof.
  intros [HR _] Hsym Hz. unfold get_CNAPs.
  intros (sigs & h3 & Hsigs & Hrest)%py_bind_Ok.
  pose proof (compute_signatures_Ok_length _ _ _ _ _ HR Hsigs) as Hlen.
  pose proof (grows_compute_signatures g _ _ _ Hsigs) as Hpre.
  assert (HR3 : h3 !! adj_mat g = Some (Arr2 R))
    by (by eapply prefix_lookup_Some).
  apply py_bind_Ok in Hrest as (bonds & h4 & Hb & Hrest).
  rewrite (unique_bonds_read _ _ _ HR3) in Hb. injection Hb as <- <-.
  apply py_bind_Ok in Hrest as (N & h4 & HN & Hrest).
  rewrite (number_of_nodes_read _ _ _ HR3) in HN. injection HN as <- <-.
  apply py_bind_Ok in Hrest as (spn & h4 & Hspn & [= <- _]).
  unfold lift in Hspn. injection Hspn as Hspn _.
  simpl in Hspn. rewrite Nat2Z.id in Hspn.
  destruct (unique_bonds_of_symmetric R Hsym Hz) as [_ Hbonds].
  apply record_bonds_lengths in Hspn as [Hlspn Hn].
  2:{ apply Forall_forall. intros [sig bond] Hin.
      apply elem_of_zip_r in Hin. apply Hbonds in Hin as (i & j & Hij & _ & ->).
      exists i, j. split; [done|lia]. }
  rewrite snd_zip in Hn by lia.
  intros n c. rewrite list_lookup_fmap.
  destruct (spn !! n) as [l'|] eqn:Hl'; [|done]. intros [= <-].
  assert (Hnlt : (n < length R)%nat).
  { apply lookup_lt_Some in Hl'. by rewrite Hlspn, length_replicate in Hl'. }
  destruct (Hn n [] (lookup_replicate_2 _ _ _ Hnlt)) as (l2 & Hl2 & Hlen2).
  assert (l2 = l') as -> by congruence. simpl in Hlen2.
  by rewrite get_occurrences_total, Hlen2.
Qed.

(** X16: whenever [get_CNAPs] returns on a Graph constructed on a square,
    symmetric matrix with zero diagonal, the counts in the CNAP of a node
    add up to the length of that node's adjacency list: the sum of the
    counts is the number of neighbours of the node. *)
Theorem CNAP_counts_sum_to_neighbours {item} (h0 : heap) (a : loc)
    (rows : list (list Z)) (pos : positions_t item) (fill_diag : bool)
    (root : option Z) (g : Graph item) (h : heap) (cnaps : list CNAP)
    (h2 : heap) :
  h0 !! a = Some (Arr2 rows) →
  square rows → symmetric rows → zero_diagonal rows →
  Graph_init a pos fill_diag root h0 = (Ok g, h) →
  get_CNAPs g h = (Ok cnaps, h2) →
  length cnaps = length (adj_list g)
  ∧ ∀ n c nb, cnaps !! n = Some c → adj_list g !! n = Some nb →
      total_count c = Z.of_nat (length nb).
Proof.
  intros Ha Hsq Hsym Hz Hg Hcn.
  destruct (Graph_init_built _ _ _ _ _ _ _ _ Ha Hg) as (Hb & _ & _ & _).
  assert (HRr : (if fill_diag then zeroed rows else rows) = rows).
  { destruct fill_diag; [by apply zeroed_id | done]. }
  rewrite HRr in Hb. split.
  - destruct Hb as [HR Hadj]. rewrite Hadj. unfold neighbours.
    rewrite length_fmap. revert Hcn. unfold get_CNAPs.
    intros (sigs & h3 & Hsigs & Hrest)%py_bind_Ok.
    pose proof (grows_compute_signatures g _ _ _ Hsigs) as Hpre.
    assert (HR3 : h3 !! adj_mat g = Some (Arr2 rows))
      by (by eapply prefix_lookup_Some).
    apply py_bind_Ok in Hrest as (bonds & h4 & Hbd & Hrest).
    rewrite (unique_bonds_read _ _ _ HR3) in Hbd. injection Hbd as <- <-.
    apply py_bind_Ok in Hrest as (N & h4 & HN & Hrest).
    rewrite (number_of_nodes_read _ _ _ HR3) in HN. injection HN as <- <-.
    apply py_bind_Ok in Hrest as (spn & h4 & Hspn & [= <- _]).
    unfold lift in Hspn. injection Hspn as Hspn _.
    simpl in Hspn. rewrite Nat2Z.id in Hspn.
    destruct (unique_bonds_of_symmetric rows Hsym Hz) as [_ Hbonds].
    apply record_bonds_lengths in Hspn as [Hlspn _].
    + by rewrite length_fmap, Hlspn, length_replicate.
    + apply Forall_forall. intros [sig bond] Hin.
      apply elem_of_zip_r in Hin. apply Hbonds in Hin as (i & j & Hij & _ & ->).
      exists i, j. split; [done|lia].
  - intros n c nb Hc Hnb.
    rewrite (get_CNAPs_counts g rows h cnaps h2 Hb Hsym Hz Hcn n c Hc).
    f_equal. apply incident_degree; [done..|]. by rewrite <-(proj2 Hb).
Qed.

Lemma CNAP_counts_sum_to_neighbours_witness :
  length [[((1, 0, 0), 2)]; [((1, 0, 0), 2)]; [((1, 0, 0), 2)]; []]
  = length [[1; 2]; [0; 2]; [0; 1]; []]
  ∧ ∀ n c nb,
      [[((1, 0, 0), 2)]; [((1, 0, 0), 2)]; [((1, 0, 0), 2)]; []] !! n
      = Some c →
      [[1; 2]; [0; 2]; [0; 1]; []] !! n = Some nb →
      total_count c = Z.of_nat (length nb).
Proof.
  apply (CNAP_counts_sum_to_neighbours
           [Arr2 [[0; 1; 1; 0]; [1; 0; 1; 0]; [1; 1; 0; 0]; [0; 0; 0; 0]]]
           0%nat [[0; 1; 1; 0]; [1; 0; 1; 0]; [1; 1; 0; 0]; [0; 0; 0; 0]]
           (PosArray [(); (); (); ()]) true None
           (mkGraph 0%nat [[1; 2]; [0; 2]; [0; 1]; []]
              (PosArray [(); (); (); ()]) None)
           [Arr2 [[0; 1; 1; 0]; [1; 0; 1; 0]; [1; 1; 0; 0]; [0; 0; 0; 0]]]
           _
           [Arr2 [[0; 1; 1; 0]; [1; 0; 1; 0]; [1; 1; 0; 0]; [0; 0; 0; 0]];
            Arr2 [[0]]; Arr2 [[0]]; Arr2 [[0]]]).
  - reflexivity.
  - repeat constructor.
  - intros [|[|[|[|i]]]] [|[|[|[|j]]]]; reflexivity.
  - intros [|[|[|[|i]]]] x; unfold entry; simpl; congruence.
  - vm_compute. reflexivity.
  - vm_compute. reflexivity.
Defined.

(** ** Two Graphs on one array *)

(** X17: two Graphs constructed on the same array share it.  When a Graph
    is constructed with [fill_diag=False] on a matrix and then a second
    one on the same matrix with the default [fill_diag], the first Graph's
    [unique_bonds] changes: the two Graphs now report the same bonds, and
    a node with a 1 on the diagonal, which had the bond [(i, i)] in the
    first Graph, has it no longer.  The adjacency list of the first Graph
    is not recomputed and still lists such a node as its own neighbour. *)
Theorem graphs_share_their_matrix {item} (h : heap) (a : loc)
    (rows : list (list Z)) (p1 p2 : positions_t item) (r1 r2 : option Z)
    (g1 g2 : Graph item) (h1 h2 : heap) :
  h !! a = Some (Arr2 rows) →
  Graph_init a p1 false r1 h = (Ok g1, h1) →
  Graph_init a p2 true r2 h1 = (Ok g2, h2) →
  ∃ before after,
    unique_bonds g1 h1 = (Ok before, h1)
    ∧ unique_bonds g1 h2 = (Ok after, h2)
    ∧ unique_bonds g2 h2 = (Ok after, h2)
    ∧ ∀ i : nat, entry rows i i = Some 1 →
        [Z.of_nat i; Z.of_nat i] ∈ before
        ∧ ([Z.of_nat i; Z.of_nat i] ∉ after)
        ∧ ∃ nb, adj_list g1 !! i = Some nb ∧ Z.of_nat i ∈ nb.
Proof.
  intros Ha Hg1 Hg2.
  destruct (Graph_init_built _ _ _ _ _ _ _ _ Ha Hg1)
    as ([HR1 Hadj1] & _ & Ha1 & Hh1).
  subst h1.
  destruct (Graph_init_built _ _ _ _ _ _ _ _ Ha Hg2)
    as ([HR2 Hadj2] & _ & Ha2 & Hh2).
  subst h2.
  exists (unique_bonds_of (Arr2 rows)), (unique_bonds_of (Arr2 (zeroed rows))).
  split_and!.
  - by apply unique_bonds_read.
  - apply unique_bonds_read. rewrite Ha1. rewrite Ha2 in HR2. exact HR2.
  - by apply unique_bonds_read.
  - intros i Hi. split_and!.
    + apply elem_of_unique_bonds_of. exists i, i. split; [done|].
      f_equal; [|f_equal]; lia.
    + intros (i' & j' & He & [= Hmin Hmax])%elem_of_unique_bonds_of.
      assert (i' = j') as Heq by lia. subst j'.
      apply zeroed_zero_diagonal in He. lia.
    + rewrite Hadj1. apply entry_Some in Hi as (row & Hrow & Hii).
      exists (np_where (eq1 row)). split.
      * by rewrite neighbours_lookup, Hrow.
      * apply elem_of_np_where_eq1. eauto.
Qed.

Lemma graphs_share_their_matrix_witness :
  ∃ before after,
    unique_bonds (mkGraph 0%nat [[0; 1]; [0]]
                    (default_positions (item:=unit)) None)
      [Arr2 [[1; 1]; [1; 0]]] = (Ok before, [Arr2 [[1; 1]; [1; 0]]])
    ∧ unique_bonds (mkGraph 0%nat [[0; 1]; [0]]
                      (default_positions (item:=unit)) None)
        [Arr2 [[0; 1]; [1; 0]]] = (Ok after, [Arr2 [[0; 1]; [1; 0]]])
    ∧ unique_bonds (mkGraph 0%nat [[1]; [0]]
                      (default_positions (item:=unit)) None)
        [Arr2 [[0; 1]; [1; 0]]] = (Ok after, [Arr2 [[0; 1]; [1; 0]]])
    ∧ ∀ i : nat, entry [[1; 1]; [1; 0]] i i = Some 1 →
        [Z.of_nat i; Z.of_nat i] ∈ before
        ∧ ([Z.of_nat i; Z.of_nat i] ∉ after)
        ∧ ∃ nb, [[0; 1]; [0]] !! i = Some nb ∧ Z.of_nat i ∈ nb.
Proof.
  apply (graphs_share_their_matrix [Arr2 [[1; 1]; [1; 0]]] 0%nat
           [[1; 1]; [1; 0]] default_positions default_positions None None
           (mkGraph 0%nat [[0; 1]; [0]] default_positions None)
           (mkGraph 0%nat [[1]; [0]] default_positions None)
           [Arr2 [[1; 1]; [1; 0]]] [Arr2 [[0; 1]; [1; 0]]]).
  - reflexivity.
  - vm_compute. reflexivity.
  - vm_compute. reflexivity.
Defined.

(** ** The CNAP of a node *)

Lemma touching_cons_pair (n i j : nat) (sig : signature) zs :
  i ≠ j →
  (filter (λ sb : signature * list Z, Z.of_nat n ∈ sb.2)
          ((sig, [Z.of_nat i; Z.of_nat j]) :: zs)).*1
  = (if decide (n = i ∨ n = j) then [sig] else [])
    ++ (filter (λ sb : signature * list Z, Z.of_nat n ∈ sb.2) zs).*1.
Proof.
  intros Hij. rewrite filter_cons. cbn [snd].
  destruct (decide (Z.of_nat n ∈ [Z.of_nat i; Z.of_nat j])) as [Hin|Hnin].
  - rewrite decide_True; [done|].
    apply elem_of_cons in Hin as [Hin|Hin%list_elem_of_singleton]; lia.
  - rewrite decide_False; [done|]. intros [->| ->]; apply Hnin.
    + left.
    + right. left.
Qed.

(** After the loop of [get_CNAPs], the list of node [n] has grown by the
    signatures of the bonds that touch [n], in the order of the bonds. *)
Lemma record_bonds_contents zs spn spn' :
  Forall (λ sb : signature * list Z,
            ∃ i j : nat, sb.2 = [Z.of_nat i; Z.of_nat j] ∧ i ≠ j) zs →
  fold_left record_bond zs (Ok spn) = Ok spn' →
  ∀ n l, spn !! n = Some l →
    spn' !! n
    = Some (l ++ (filter (λ sb : signature * list Z, Z.of_nat n ∈ sb.2) zs).*1).
Proof.
  intros Hz. revert spn. induction Hz as [|[sig bond] zs Hb Hzs IH]; intros spn.
  { simpl. intros [= <-] n l Hl. by rewrite app_nil_r. }
  destruct Hb as (i & j & Hb & Hij). simpl in Hb. subst bond.
  change (fold_left record_bond ((sig, [Z.of_nat i; Z.of_nat j]) :: zs) (Ok spn))
    with (fold_left record_bond zs
            (append_at spn (Z.of_nat i) sig
             ≫= λ s, append_at s (Z.of_nat j) sig)).
  unfold mbind, result_bind.
  destruct (append_at spn (Z.of_nat i) sig) as [spa|e] eqn:Ea;
    [|by rewrite fold_record_bond_Raise].
  destruct (append_at spa (Z.of_nat j) sig) as [spb|e] eqn:Eb;
    [|by rewrite fold_record_bond_Raise].
  apply append_at_nat in Ea as (li & Hli & ->).
  apply append_at_nat in Eb as (lj & Hlj & ->).
  intros Hf n l Hl. rewrite touching_cons_pair by done.
  rewrite app_assoc. apply (IH _ Hf).
  destruct (decide (n = j)) as [->|Hnj].
  - rewrite list_lookup_insert_ne in Hlj by done.
    assert (lj = l) as -> by congruence.
    rewrite decide_True by auto.
    apply list_lookup_insert_eq. rewrite length_insert. by eapply lookup_lt_Some.
  - rewrite list_lookup_insert_ne by done.
    destruct (decide (n = i)) as [->|Hni].
    + assert (li = l) as -> by congruence. rewrite decide_True by auto.
      apply list_lookup_insert_eq. by eapply lookup_lt_Some.
    + rewrite list_lookup_insert_ne by done.
      rewrite decide_False by (intros [?|?]; done). by rewrite app_nil_r.
Qed.

(** X18: whenever [get_CNAPs] returns on a Graph constructed on a square,
    symmetric matrix with zero diagonal, the CNAP of node [n] is
    [get_occurrences] of the signatures that [compute_signatures] gives for
    the bonds touching [n]; so a pair [(s, c)] is in it exactly when [c]
    of the bonds touching [n] have the signature [s], and [c] is not 0. *)
Theorem CNAP_is_histogram_of_incident_bonds {item} (h0 : heap) (a : loc)
    (rows : list (list Z)) (pos : positions_t item) (fill_diag : bool)
    (root : option Z) (g : Graph item) (h : heap) (cnaps : list CNAP)
    (h2 : heap) :
  h0 !! a = Some (Arr2 rows) →
  square rows → symmetric rows → zero_diagonal rows →
  Graph_init a pos fill_diag root h0 = (Ok g, h) →
  get_CNAPs g h = (Ok cnaps, h2) →
  ∃ bonds sigs,
    unique_bonds g h = (Ok bonds, h)
    ∧ compute_signatures g h = (Ok sigs, h2)
    ∧ length sigs = length bonds
    ∧ ∀ n c, cnaps !! n = Some c →
        c = get_occurrences
              (filter (λ sb : signature * list Z, Z.of_nat n ∈ sb.2)
                      (zip sigs bonds)).*1
        ∧ ∀ s k, (s, k) ∈ c ↔
            0 < k
            ∧ k = occurrences s
                    (filter (λ sb : signature * list Z, Z.of_nat n ∈ sb.2)
                            (zip sigs bonds)).*1.
Proof.
  intros Ha Hsq Hsym Hz Hg Hcn.
  destruct (Graph_init_built _ _ _ _ _ _ _ _ Ha Hg) as ([HR Hadj] & _ & _ & _).
  assert (HRr : (if fill_diag then zeroed rows else rows) = rows).
  { destruct fill_diag; [by apply zeroed_id | done]. }
  rewrite HRr in HR. clear HRr Hadj.
  revert Hcn. unfold get_CNAPs.
  intros (sigs & h3 & Hsigs & Hrest)%py_bind_Ok.
  pose proof (compute_signatures_Ok_length _ _ _ _ _ HR Hsigs) as Hlen.
  pose proof (grows_compute_signatures g _ _ _ Hsigs) as Hpre.
  assert (HR3 : h3 !! adj_mat g = Some (Arr2 rows))
    by (by eapply prefix_lookup_Some).
  apply py_bind_Ok in Hrest as (bonds & h4 & Hb & Hrest).
  rewrite (unique_bonds_read _ _ _ HR3) in Hb. injection Hb as <- <-.
  apply py_bind_Ok in Hrest as (N & h4 & HN & Hrest).
  rewrite (number_of_nodes_read _ _ _ HR3) in HN. injection HN as <- <-.
  apply py_bind_Ok in Hrest as (spn & h4 & Hspn & [= <- <-]).
  unfold lift in Hspn. injection Hspn as Hspn <-.
  simpl in Hspn. rewrite Nat2Z.id in Hspn.
  exists (unique_bonds_of (Arr2 rows)), sigs.
  split; [by apply unique_bonds_read|]. split; [done|]. split; [done|].
  destruct (unique_bonds_of_symmetric rows Hsym Hz) as [_ Hbonds].
  assert (Hform : Forall (λ sb : signature * list Z,
                    ∃ i j : nat, sb.2 = [Z.of_nat i; Z.of_nat j] ∧ i ≠ j)
                    (zip sigs (unique_bonds_of (Arr2 rows)))).
  { apply Forall_forall. intros [sig bond] Hin.
    apply elem_of_zip_r in Hin. apply Hbonds in Hin as (i & j & Hij & _ & ->).
    exists i, j. split; [done|lia]. }
  pose proof (record_bonds_lengths _ _ _ Hform Hspn) as [Hlspn _].
  pose proof (record_bonds_contents _ _ _ Hform Hspn) as Hcont.
  intros n c. rewrite list_lookup_fmap.
  destruct (spn !! n) as [l'|] eqn:Hl'; [|done]. intros [= <-].
  assert (Hnlt : (n < length rows)%nat).
  { apply lookup_lt_Some in Hl'. by rewrite Hlspn, length_replicate in Hl'. }
  rewrite (Hcont n [] (lookup_replicate_2 _ _ _ Hnlt)) in Hl'.
  injection Hl' as <-. cbn [app]. split; [done|].
  intros s k. split.
  - intros Hsk. split.
    + rewrite (np_unique_counts_occurrences sig_compare s k _ Hsk).
      apply occurrences_elem_of, (elem_of_np_unique sig_compare).
      apply list_elem_of_fmap. by exists (s, k).
    + by apply (np_unique_counts_occurrences sig_compare).
  - intros [Hk ->].
    set (l := (filter _ _).*1) in *.
    assert (s ∈ l) as Hs.
    { destruct (decide (s ∈ l)) as [|Hn]; [done|].
      rewrite occurrences_not_elem in Hk by done. lia. }
    apply (elem_of_np_unique sig_compare) in Hs.
    apply list_elem_of_fmap in Hs as ([s' k'] & -> & Hin).
    simpl. by rewrite <-(np_unique_counts_occurrences sig_compare _ _ _ Hin).
Qed.

Lemma CNAP_is_histogram_of_incident_bonds_witness :
  ∃ bonds sigs,
    unique_bonds (mkGraph 0%nat [[1; 2]; [0; 2]; [0; 1]; []]
                    (PosArray [(); (); (); ()]) None)
      [Arr2 [[0; 1; 1; 0]; [1; 0; 1; 0]; [1; 1; 0; 0]; [0; 0; 0; 0]]]
    = (Ok bonds,
       [Arr2 [[0; 1; 1; 0]; [1; 0; 1; 0]; [1; 1; 0; 0]; [0; 0; 0; 0]]])
    ∧ compute_signatures (mkGraph 0%nat [[1; 2]; [0; 2]; [0; 1]; []]
                            (PosArray [(); (); (); ()]) None)
        [Arr2 [[0; 1; 1; 0]; [1; 0; 1; 0]; [1; 1; 0; 0]; [0; 0; 0; 0]]]
      = (Ok sigs,
         [Arr2 [[0; 1; 1; 0]; [1; 0; 1; 0]; [1; 1; 0; 0]; [0; 0; 0; 0]];
          Arr2 [[0]]; Arr2 [[0]]; Arr2 [[0]]])
    ∧ length sigs = length bonds
    ∧ ∀ n c,
        [[((1, 0, 0), 2)]; [((1, 0, 0), 2)]; [((1, 0, 0), 2)]; []] !! n
        = Some c →
        c = get_occurrences
              (filter (λ sb : signature * list Z, Z.of_nat n ∈ sb.2)
                      (zip sigs bonds)).*1
        ∧ ∀ s k, (s, k) ∈ c ↔
            0 < k
            ∧ k = occurrences s
                    (filter (λ sb : signature * list Z, Z.of_nat n ∈ sb.2)
                            (zip sigs bonds)).*1.
Proof.
  apply (CNAP_is_histogram_of_incident_bonds
           [Arr2 [[0; 1; 1; 0]; [1; 0; 1; 0]; [1; 1; 0; 0]; [0; 0; 0; 0]]]
           0%nat [[0; 1; 1; 0]; [1; 0; 1; 0]; [1; 1; 0; 0]; [0; 0; 0; 0]]
           (PosArray [(); (); (); ()]) true None
           (mkGraph 0%nat [[1; 2]; [0; 2]; [0; 1]; []]
              (PosArray [(); (); (); ()]) None)
           [Arr2 [[0; 1; 1; 0]; [1; 0; 1; 0]; [1; 1; 0; 0]; [0; 0; 0; 0]]]).
  - reflexivity.
  - repeat constructor.
  - intros [|[|[|[|i]]]] [|[|[|[|j]]]]; reflexivity.
  - intros [|[|[|[|i]]]] x; unfold entry; simpl; congruence.
  - vm_compute. reflexivity.
  - vm_compute. reflexivity.
Defined.

(** ** Relabelling a subgraph *)

Lemma linked_pairs_perm (E : nat → nat → Prop) `{∀ x y, Decision (E x y)}
    (l l' : list nat) :
  (∀ x y, E x y → E y x) → l ≡ₚ l' →
  linked_pairs E l = linked_pairs E l'.
Proof.
  intros Hsym Hp.
  induction Hp as [|x l l' Hp IH|x y l|l l' l'' _ IH1 _ IH2]; simpl.
  - done.
  - by rewrite IH, Hp.
  - rewrite !filter_cons. repeat case_decide; simpl; try lia; exfalso; eauto.
  - congruence.
Qed.

Lemma length_filter_split {A} (P : A → Prop) `{∀ x, Decision (P x)}
    (l : list A) :
  length l = (length (filter P l) + length (filter (λ x, ¬ P x) l))%nat.
Proof.
  induction l as [|x l IH]; [done|]. rewrite !filter_cons.
  repeat case_decide; simpl; try lia; done.
Qed.

(** The places of a list whose item satisfies [Q]. *)
Lemma filter_positions {A} (Q : A → Prop) `{∀ x, Decision (Q x)}
    (t : list A) :
  ∃ ks : list nat,
    NoDup ks ∧ (∀ k, k ∈ ks ↔ ∃ j, t !! k = Some j ∧ Q j)
    ∧ length ks = length (filter Q t).
Proof.
  induction t as [|y t (ks & Hnd & Hks & Hlen)].
  - exists []. split; [constructor|]. split; [|done]. intros k. split.
    + by intros ?%elem_of_nil.
    + by intros (j & ? & _).
  - assert (Hnd' : NoDup (S <$> ks)) by by apply (NoDup_fmap_2 S).
    assert (HS : ∀ k, S k ∈ S <$> ks ↔ ∃ j, t !! k = Some j ∧ Q j).
    { intros k. by rewrite (list_elem_of_fmap_inj S). }
    assert (H0 : 0%nat ∉ S <$> ks).
    { by intros (k & ? & _)%list_elem_of_fmap. }
    destruct (decide (Q y)) as [Hy|Hy].
    + exists (0%nat :: (S <$> ks)). split; [by constructor|]. split.
      * intros [|k]; rewrite elem_of_cons; simpl.
        -- split; [eauto|by left].
        -- rewrite HS. split; [by intros [?|?]|by right].
      * rewrite filter_cons_True by done. simpl.
        by rewrite length_fmap, Hlen.
    + exists (S <$> ks). split; [done|]. split.
      * intros [|k]; simpl; [|apply HS]. split; [done|].
        by intros (j & [= ->] & ?).
      * rewrite filter_cons_False by done. by rewrite length_fmap.
Qed.

(** A list without repetition that holds [a, c] exactly for the places
    [a < c] of [idx] whose items are related has one pair per such pair
    of places. *)
Lemma linked_pairs_count (E : nat → nat → Prop) `{∀ x y, Decision (E x y)}
    (idx : list nat) (L : list (list Z)) :
  NoDup L →
  (∀ b, b ∈ L ↔ ∃ a c i j : nat,
          (a < c)%nat ∧ idx !! a = Some i ∧ idx !! c = Some j ∧ E i j
          ∧ b = [Z.of_nat a; Z.of_nat c]) →
  length L = linked_pairs E idx.
Proof.
  revert L. induction idx as [|x t IH]; intros L Hnd HL.
  - destruct L as [|b L]; [done|].
    destruct (proj1 (HL b)) as (a & c & i & j & _ & Ha & _); [by left|done].
  - set (P := λ b : list Z, b !! 0%nat = Some 0).
    rewrite (length_filter_split P L). simpl. f_equal.
    + destruct (filter_positions (E x) t) as (ks & Hks & Hin & <-).
      rewrite <-(length_fmap (λ k : nat, [0; Z.of_nat (S k)]) ks).
      apply Permutation_length, NoDup_Permutation.
      * by apply NoDup_filter.
      * apply NoDup_fmap_2_strong; [|done]. intros k k' _ _ [= Heq]. lia.
      * intros b. rewrite list_elem_of_filter, HL, list_elem_of_fmap. split.
        -- intros (Hb & a & c & i & j & Hac & Ha & Hc & He & ->).
           unfold P in Hb. simpl in Hb. injection Hb as Hb.
           assert (a = 0%nat) as -> by lia. simpl in Ha. injection Ha as <-.
           destruct c as [|c]; [lia|]. simpl in Hc. exists c. split; [done|].
           apply Hin. eauto.
        -- intros (k & -> & (j & Hk & He)%Hin). split; [done|].
           exists 0%nat, (S k), x, j. split_and!; try done. lia.
    + rewrite <-(IH ((λ b : list Z, Z.pred <$> b) <$> filter (λ b, ¬ P b) L)).
      * by rewrite length_fmap.
      * apply NoDup_fmap_2_strong; [|by apply NoDup_filter].
        intros b b' [_ Hb]%list_elem_of_filter [_ Hb']%list_elem_of_filter.
        apply HL in Hb as (a & c & _ & _ & _ & _ & _ & _ & ->).
        apply HL in Hb' as (a' & c' & _ & _ & _ & _ & _ & _ & ->).
        csimpl. intros [= H1 H2]. f_equal; [|f_equal]; lia.
      * intros b. rewrite list_elem_of_fmap. split.
        -- intros (b0 & -> & [Hb Hin]%list_elem_of_filter).
           apply HL in Hin as (a & c & i & j & Hac & Ha & Hc & He & ->).
           destruct a as [|a]; [by destruct Hb|].
           destruct c as [|c]; [lia|]. simpl in Ha, Hc.
           exists a, c, i, j. split_and!; try done; [lia|].
           csimpl. f_equal; [|f_equal]; lia.
        -- intros (a & c & i & j & Hac & Ha & Hc & He & ->).
           exists [Z.of_nat (S a); Z.of_nat (S c)]. split.
           { csimpl. f_equal; [|f_equal]; lia. }
           apply list_elem_of_filter. split.
           { unfold P. simpl. intros [= Heq]; lia. }
           apply HL. exists (S a), (S c), i, j. split_and!; try done. lia.
Qed.

Lemma joined_sym rows i j : joined rows i j → joined rows j i.
Proof. unfold joined. tauto. Qed.

(** The bonds of an induced subgraph, counted on the parent. *)
Lemma induced_bonds_count (rows s : list (list Z)) (idx : list nat) :
  length s = length idx → square s →
  (∀ a b i j, idx !! a = Some i → idx !! b = Some j →
     entry s a b = if decide (a = b) then Some 0 else entry rows i j) →
  length (unique_bonds_of (Arr2 s)) = linked_pairs (joined rows) idx.
Proof.
  intros Ls Ss He. apply linked_pairs_count.
  { apply (np_unique_NoDup lex_compare). }
  assert (Hin : ∀ a c, entry s a c = Some 1 →
            a ≠ c ∧ ∃ i j, idx !! a = Some i ∧ idx !! c = Some j
                           ∧ entry rows i j = Some 1).
  { intros a c H1. pose proof H1 as (row & Ha & Hc)%entry_Some.
    assert (a < length idx)%nat as [i Hi]%lookup_lt_is_Some.
    { rewrite <-Ls. by eapply lookup_lt_Some. }
    assert (c < length idx)%nat as [j Hj]%lookup_lt_is_Some.
    { rewrite <-Ls, <-(proj1 (Forall_forall _ _) Ss row).
      - by eapply lookup_lt_Some.
      - by eapply list_elem_of_lookup_2. }
    rewrite (He a c i j Hi Hj) in H1. case_decide; [done|]. eauto 10. }
  intros b. rewrite elem_of_unique_bonds_of. split.
  - intros (a & c & (Hne & i & j & Hi & Hj & H1)%Hin & ->).
    destruct (le_lt_dec a c).
    + exists a, c, i, j. split_and!; try done; [lia|by left|].
      f_equal; [|f_equal]; lia.
    + exists c, a, j, i. split_and!; try done; [by right|].
      f_equal; [|f_equal]; lia.
  - intros (a & c & i & j & Hac & Hi & Hj & [H1|H1] & ->).
    + exists a, c. split; [|f_equal; [|f_equal]; lia].
      rewrite (He a c i j Hi Hj). case_decide; [lia|done].
    + exists c, a. split; [|f_equal; [|f_equal]; lia].
      rewrite (He c a j i Hj Hi). case_decide; [lia|done].
Qed.

(** X19: the number of bonds of a subgraph does not depend on the order in
    which its nodes are given.  On a Graph over a square matrix with a
    position per node, [make_subgraph] on a non-empty list of indices in
    [0, N) and on any rearrangement of that list both return, and
    [number_of_unique_bonds] gives the same number on the two subgraphs:
    the number of pairs of places of the list whose indices the parent's
    matrix joins in one direction or the other (an index given twice
    counts at each of its places). *)
Theorem subgraph_bond_count_relabelling {item} (g : Graph item) (h : heap)
    (rows : list (list Z)) (ps : list item) (idx idx' : list nat) :
  h !! adj_mat g = Some (Arr2 rows) → square rows →
  positions g = PosArray ps → length ps = length rows →
  idx ≠ [] → Forall (λ i, (i < length rows)%nat) idx →
  idx ≡ₚ idx' →
  ∃ sg s sg' s',
    make_subgraph g (PyList (Z.of_nat <$> idx)) h = (Ok sg, h ++ [Arr2 s])
    ∧ make_subgraph g (PyList (Z.of_nat <$> idx')) h
      = (Ok sg', h ++ [Arr2 s'])
    ∧ number_of_unique_bonds sg (h ++ [Arr2 s])
      = (Ok (Z.of_nat (linked_pairs (joined rows) idx)), h ++ [Arr2 s])
    ∧ number_of_unique_bonds sg' (h ++ [Arr2 s'])
      = (Ok (Z.of_nat (linked_pairs (joined rows) idx)), h ++ [Arr2 s']).
Proof.
  intros Ha Hsq Hp Hlen Hne Hr Hperm.
  assert (Hne' : idx' ≠ []).
  { intros ->. by apply Permutation_nil_r in Hperm. }
  assert (Hr' : Forall (λ i, (i < length rows)%nat) idx') by by rewrite <-Hperm.
  destruct (make_subgraph_induced g h rows ps (PyList (Z.of_nat <$> idx)) idx)
    as (s & q & Hm & Ls & Ss & _ & He & _); [done..| |done|].
  { by destruct idx. }
  destruct (make_subgraph_induced g h rows ps (PyList (Z.of_nat <$> idx')) idx')
    as (s' & q' & Hm' & Ls' & Ss' & _ & He' & _); [done..| |done|].
  { by destruct idx'. }
  eexists _, s, _, s'. split; [exact Hm|]. split; [exact Hm'|].
  rewrite (linked_pairs_perm (joined rows) idx idx' (joined_sym rows) Hperm)
    at 2.
  rewrite <-(induced_bonds_count rows s idx Ls Ss He).
  rewrite <-(induced_bonds_count rows s' idx' Ls' Ss' He').
  split; apply number_of_unique_bonds_read; simpl;
    by rewrite lookup_app_r, Nat.sub_diag.
Qed.

Lemma subgraph_bond_count_relabelling_witness :
  ∃ sg s sg' s',
    make_subgraph (mkGraph 0%nat [[1; 2]; [0; 2]; [0; 1]; []]
                     (PosArray [10; 11; 12; 13]) None)
      (PyList (Z.of_nat <$> [3; 0; 1]%nat))
      [Arr2 [[0; 1; 1; 0]; [1; 0; 1; 0]; [1; 1; 0; 0]; [0; 0; 0; 0]]]
    = (Ok sg,
       [Arr2 [[0; 1; 1; 0]; [1; 0; 1; 0]; [1; 1; 0; 0]; [0; 0; 0; 0]]]
       ++ [Arr2 s])
    ∧ make_subgraph (mkGraph 0%nat [[1; 2]; [0; 2]; [0; 1]; []]
                       (PosArray [10; 11; 12; 13]) None)
        (PyList (Z.of_nat <$> [0; 3; 1]%nat))
        [Arr2 [[0; 1; 1; 0]; [1; 0; 1; 0]; [1; 1; 0; 0]; [0; 0; 0; 0]]]
      = (Ok sg',
         [Arr2 [[0; 1; 1; 0]; [1; 0; 1; 0]; [1; 1; 0; 0]; [0; 0; 0; 0]]]
         ++ [Arr2 s'])
    ∧ number_of_unique_bonds sg
        ([Arr2 [[0; 1; 1; 0]; [1; 0; 1; 0]; [1; 1; 0; 0]; [0; 0; 0; 0]]]
         ++ [Arr2 s])
      = (Ok (Z.of_nat
               (linked_pairs
                  (joined [[0; 1; 1; 0]; [1; 0; 1; 0]; [1; 1; 0; 0];
                           [0; 0; 0; 0]])
                  [3; 0; 1]%nat)),
         [Arr2 [[0; 1; 1; 0]; [1; 0; 1; 0]; [1; 1; 0; 0]; [0; 0; 0; 0]]]
         ++ [Arr2 s])
    ∧ number_of_unique_bonds sg'
        ([Arr2 [[0; 1; 1; 0]; [1; 0; 1; 0]; [1; 1; 0; 0]; [0; 0; 0; 0]]]
         ++ [Arr2 s'])
      = (Ok (Z.of_nat
               (linked_pairs
                  (joined [[0; 1; 1; 0]; [1; 0; 1; 0]; [1; 1; 0; 0];
                           [0; 0; 0; 0]])
                  [3; 0; 1]%nat)),
         [Arr2 [[0; 1; 1; 0]; [1; 0; 1; 0]; [1; 1; 0; 0]; [0; 0; 0; 0]]]
         ++ [Arr2 s']).
Proof.
  apply (subgraph_bond_count_relabelling
           (mkGraph 0%nat [[1; 2]; [0; 2]; [0; 1]; []]
              (PosArray [10; 11; 12; 13]) None)
           [Arr2 [[0; 1; 1; 0]; [1; 0; 1; 0]; [1; 1; 0; 0]; [0; 0; 0; 0]]]
           [[0; 1; 1; 0]; [1; 0; 1; 0]; [1; 1; 0; 0]; [0; 0; 0; 0]]
           [10; 11; 12; 13] [3; 0; 1]%nat [0; 3; 1]%nat).
  - reflexivity.
  - repeat constructor.
  - reflexivity.
  - reflexivity.
  - discriminate.
  - repeat constructor.
  - apply perm_swap.
Defined.

(** ** The chain behind a length *)

Lemma chain_visit_fold_max s l discovered ws mx stack :
  (fold_left (chain_visit s l discovered) ws (mx, stack)).1 = mx
  ∨ ((fold_left (chain_visit s l discovered) ws (mx, stack)).1 = l + 1
     ∧ 2 ≤ l ∧ s ∈ ws).
Proof.
  revert mx stack. induction ws as [|w ws IH]; intros mx stack; [by left|].
  cbn [fold_left].
  set (m' := if (2 <=? l) && bool_decide (w = s)
             then Z.max mx (l + 1) else mx).
  set (st' := if bool_decide (w ∉ discovered)
              then (w, l + 1) :: stack else stack).
  change (chain_visit s l discovered (mx, stack) w) with (m', st').
  destruct (IH m' st') as [->|(-> & Hl & Hin)].
  - subst m'. destruct (2 <=? l) eqn:E2; simpl; [|by left].
    case_bool_decide as Hw; [|by left]. subst w.
    destruct (Z.max_spec mx (l + 1)) as [[_ ->]|[_ ->]]; [right|by left].
    split; [done|]. split; [lia|left].
  - right. split; [done|]. split; [done|by right].
Qed.

Lemma chain_visit_fold_push s l discovered ws mx stack (e : Z * Z) :
  e ∈ stack ∨ (e.1 ∈ ws ∧ (e.1 ∉ discovered) ∧ e.2 = l + 1) →
  e ∈ (fold_left (chain_visit s l discovered) ws (mx, stack)).2.
Proof.
  revert mx stack. induction ws as [|w ws IH]; intros mx stack.
  { simpl. intros [?|[?%elem_of_nil _]]; done. }
  cbn [fold_left].
  set (m' := if (2 <=? l) && bool_decide (w = s)
             then Z.max mx (l + 1) else mx).
  set (st' := if bool_decide (w ∉ discovered)
              then (w, l + 1) :: stack else stack).
  change (chain_visit s l discovered (mx, stack) w) with (m', st').
  intros [He|(Hin & Hd & Hl)]; apply IH.
  - left. subst st'. destruct (bool_decide (w ∉ discovered)); [by right|done].
  - apply elem_of_cons in Hin as [Hw|Hin]; [left|by right].
    subst st'. rewrite bool_decide_eq_true_2 by by rewrite <-Hw.
    destruct e as [e1 e2]. simpl in *. subst. left.
Qed.

Lemma chain_visit_fold_self s ws :
  Forall (λ w, w = s) ws →
  fold_left (chain_visit s 0 [s]) ws (0, []) = (0, []).
Proof.
  induction 1 as [|w ws -> _ IH]; [done|]. cbn [fold_left].
  unfold chain_visit at 2. simpl.
  rewrite bool_decide_eq_false_2; [done|]. intros H. apply H. left.
Qed.

(** The maximum of the loop is the length of a chain, and so is its
    result. *)
Lemma chain_loop_sound fuel adj s mx discovered stack r :
  chain_of_length adj s mx →
  Forall (λ e : Z * Z, ∃ q, chain_to adj s q e.1 ∧ NoDup q
                            ∧ (∀ x, x ∈ q → x ∈ discovered)
                            ∧ Z.of_nat (length q) = e.2) stack →
  chain_loop fuel adj s mx discovered stack = Some (Ok r) →
  chain_of_length adj s r.
Proof.
  revert mx discovered stack.
  induction fuel as [|fuel IH]; intros mx discovered stack Hmx Hst.
  { destruct stack as [|[v l] stack]; simpl; [|done]. by intros [= <-]. }
  destruct stack as [|[v l] stack]; simpl; [by intros [= <-]|].
  apply Forall_cons in Hst as [(q & Hq & Hnd & Hsub & Hl) Hst].
  simpl in Hq, Hl.
  case_bool_decide as Hvd; [|by apply IH].
  destruct (getitem adj v) as [ws|e] eqn:Hws; [|done].
  pose proof (chain_visit_fold_max s l (discovered ++ [v]) ws (Z.max mx l)
                stack) as Hmax.
  destruct (chain_visit_fold_spec s l (discovered ++ [v]) ws (Z.max mx l)
              stack) as [_ Hpush].
  destruct (fold_left _ ws _) as [m' st']. simpl in Hmax, Hpush.
  assert (Hndq : NoDup (q ++ [v])).
  { apply NoDup_app. split; [done|]. split; [|apply NoDup_singleton].
    intros x Hx ->%list_elem_of_singleton. by apply Hvd, Hsub. }
  apply IH.
  - destruct Hmax as [->|(-> & H2 & Hin)].
    + destruct (Z.max_spec mx l) as [[_ ->]|[_ ->]]; [|done].
      exists q, v. split; [done|]. split; [done|]. by left.
    + exists q, v. split; [done|]. split; [done|]. right.
      split; [lia|]. split; [lia|]. by exists ws.
  - rewrite Forall_forall in Hst.
    eapply Forall_impl; [exact Hpush|]. intros e [He|[He Hd]].
    + destruct (Hst _ He) as (q' & ? & ? & Hsub' & ?).
      exists q'. split_and!; try done.
      intros x Hx. apply elem_of_app. left. by apply Hsub'.
    + exists (q ++ [v]). split_and!; try done.
      * apply chain_step; [done|]. by exists ws.
      * intros x [Hx|Hx]%elem_of_app; apply elem_of_app; [left|by right].
        by apply Hsub.
      * rewrite length_app. simpl. lia.
Qed.

Lemma chain_loop_mono fuel adj s mx discovered stack r :
  chain_loop fuel adj s mx discovered stack = Some (Ok r) → mx ≤ r.
Proof.
  revert mx discovered stack.
  induction fuel as [|fuel IH]; intros mx discovered stack.
  { destruct stack as [|[v l] stack]; simpl; [|done]. intros [= <-]. lia. }
  destruct stack as [|[v l] stack]; simpl; [intros [= <-]; lia|].
  case_bool_decide as Hvd; [|by apply IH].
  destruct (getitem adj v) as [ws|e] eqn:Hws; [|done].
  destruct (chain_visit_fold_spec s l (discovered ++ [v]) ws (Z.max mx l)
              stack) as [Hm _].
  destruct (fold_left _ ws _) as [m' st']. simpl in Hm.
  intros Hr%IH. lia.
Qed.

(** With an entry on the stack that is still to be discovered, the result
    is at least 1. *)
Lemma chain_loop_positive fuel adj s mx discovered stack r :
  Forall (λ e : Z * Z, 1 ≤ e.2) stack →
  (∃ e : Z * Z, e ∈ stack ∧ e.1 ∉ discovered) →
  chain_loop fuel adj s mx discovered stack = Some (Ok r) → 1 ≤ r.
Proof.
  revert mx discovered stack.
  induction fuel as [|fuel IH]; intros mx discovered stack Hst (e & He & Hd).
  { destruct stack as [|[v l] stack]; simpl; [|done].
    by apply elem_of_nil in He. }
  destruct stack as [|[v l] stack]; simpl; [by apply elem_of_nil in He|].
  apply Forall_cons in Hst as [Hl Hst]. simpl in Hl.
  case_bool_decide as Hvd.
  - destruct (getitem adj v) as [ws|e'] eqn:Hws; [|done].
    destruct (chain_visit_fold_spec s l (discovered ++ [v]) ws (Z.max mx l)
                stack) as [Hm _].
    destruct (fold_left _ ws _) as [m' st']. simpl in Hm.
    intros Hr%chain_loop_mono. lia.
  - apply IH; [done|]. exists e. split; [|done].
    apply elem_of_cons in He as [->|He]; [|done]. simpl in Hd.
    exfalso. tauto.
Qed.

(** When [longest_chain_from_node] is 0. *)
Lemma longest_chain_from_node_zero {item} (g : Graph item) (s : Z) ws r :
  getitem (adj_list g) s = Ok ws →
  longest_chain_from_node g s = Ok r →
  r = 0 ↔ Forall (λ w, w = s) ws.
Proof.
  intros Hws Hr. pose proof (longest_chain_from_node_total g s) as Ht.
  rewrite Hr in Ht. unfold chain_fuel in Ht. cbn [chain_loop] in Ht.
  rewrite bool_decide_eq_true_2 in Ht by apply not_elem_of_nil.
  rewrite Hws in Ht. simpl app in Ht. change (Z.max 0 0) with 0 in Ht.
  destruct (decide (Forall (λ w, w = s) ws)) as [Hall|Hnot].
  - rewrite (chain_visit_fold_self s ws Hall) in Ht.
    destruct (2 * _)%nat; simpl in Ht; injection Ht as <-; done.
  - split; [|done]. intros ->. exfalso.
    apply not_Forall_Exists in Hnot; [|apply _].
    apply Exists_exists in Hnot as (w & Hw & Hne). unfold compose in Hne.
    pose proof (chain_visit_fold_push s 0 [s] ws 0 [] (w, 0 + 1)) as Hpush.
    destruct (chain_visit_fold_spec s 0 [s] ws 0 []) as [_ Hst].
    destruct (fold_left _ ws _) as [m' st']. simpl in Hpush, Hst.
    apply chain_loop_positive in Ht; [lia| |].
    + eapply Forall_impl; [exact Hst|]. intros e [?%elem_of_nil|[_ ->]]; [done|].
      lia.
    + exists (w, 0 + 1). split.
      * apply Hpush. right. split_and!; try done.
        by intros ->%list_elem_of_singleton.
      * simpl. by intros ->%list_elem_of_singleton.
Qed.

(** X20: behind the length that [longest_chain_from_node] returns there
    is a chain.  On an adjacency list that names only its own indices, from
    a start [0 <= s < N], the call returns a number [r] for which there is
    a walk from [s] along the adjacency list that visits no node twice and
    has [r] steps, or one of [r - 1 >= 2] steps from whose end [s] is
    listed as a neighbour, the ring closed by one more step. *)
Theorem longest_chain_from_node_sound {item} (g : Graph item) (s : Z) :
  adj_closed (adj_list g) → 0 ≤ s < Z.of_nat (length (adj_list g)) →
  ∃ r, longest_chain_from_node g s = Ok r
       ∧ chain_of_length (adj_list g) s r.
Proof.
  intros Hcl Hs.
  destruct (longest_chain_from_node_closed g s Hcl Hs) as (r & Hr & _).
  exists r. split; [done|].
  pose proof (longest_chain_from_node_total g s) as Ht. rewrite Hr in Ht.
  eapply chain_loop_sound; [| |exact Ht].
  - exists [], s. split; [constructor|].
    split; [apply NoDup_singleton|by left].
  - apply Forall_singleton. exists []. simpl.
    split; [constructor|]. split; [constructor|]. split; [|done].
    by intros x ?%elem_of_nil.
Qed.

Lemma longest_chain_from_node_sound_witness :
  ∃ r, longest_chain_from_node
         (mkGraph 0%nat [[1; 2]; [0; 2]; [0; 1]; []]
            (default_positions (item:=unit)) None) 0
       = Ok r
       ∧ chain_of_length [[1; 2]; [0; 2]; [0; 1]; []] 0 r.
Proof.
  apply (longest_chain_from_node_sound
           (mkGraph 0%nat [[1; 2]; [0; 2]; [0; 1]; []] default_positions None)
           0).
  - unfold adj_closed. simpl. repeat first [lia | constructor].
  - simpl. lia.
Defined.

(** X21: when [longest_chain_from_node] is 0.  On an adjacency list that
    names only its own indices, from a start [0 <= s < N], the length
    returned is not negative, and it is 0 exactly when the start has no
    neighbour listed but, possibly, itself. *)
Theorem longest_chain_from_node_zero_iff {item} (g : Graph item) (s : Z) :
  adj_closed (adj_list g) → 0 ≤ s < Z.of_nat (length (adj_list g)) →
  ∃ ws r, getitem (adj_list g) s = Ok ws
          ∧ longest_chain_from_node g s = Ok r
          ∧ 0 ≤ r ∧ (r = 0 ↔ Forall (λ w, w = s) ws).
Proof.
  intros Hcl Hs.
  destruct (longest_chain_from_node_closed g s Hcl Hs) as (r & Hr & Hpos & _).
  assert (is_Some (adj_list g !! Z.to_nat s)) as [ws Hws].
  { apply lookup_lt_is_Some_2. lia. }
  apply getitem_nat in Hws. rewrite Z2Nat.id in Hws by lia.
  exists ws, r. split; [done|]. split; [done|]. split; [done|].
  by apply (longest_chain_from_node_zero g s ws r).
Qed.

Lemma longest_chain_from_node_zero_iff_witness :
  ∃ ws r, getitem [[1]; [0]; [2]] 2 = Ok ws
          ∧ longest_chain_from_node
              (mkGraph 0%nat [[1]; [0]; [2]]
                 (default_positions (item:=unit)) None) 2
            = Ok r
          ∧ 0 ≤ r ∧ (r = 0 ↔ Forall (λ w, w = 2) ws).
Proof.
  apply (longest_chain_from_node_zero_iff
           (mkGraph 0%nat [[1]; [0]; [2]] default_positions None) 2).
  - unfold adj_closed. simpl. repeat first [lia | constructor].
  - simpl. lia.
Defined.

(** ** What a signature counts *)

Lemma induced_on_zero_diagonal R s idx : induced_on R s idx → zero_diagonal s.
Proof.
  intros (Ls & _ & He) a x Hx. pose proof Hx as (row & Ha & _)%entry_Some.
  assert (a < length idx)%nat as [u Hu]%lookup_lt_is_Some.
  { rewrite <-Ls. by eapply lookup_lt_Some. }
  rewrite (He a a u u Hu Hu), decide_True in Hx by done. congruence.
Qed.

(** On a Graph whose adjacency list was read off a square matrix with a
    zero diagonal, [longest_chain] is 0 exactly when there is no bond. *)
Lemma chain_zero_iff_no_bonds {item} (sg : Graph item) s :
  adj_list sg = neighbours s → square s → zero_diagonal s →
  ∃ z, longest_chain sg = Ok z ∧ (z = 0 ↔ unique_bonds_of (Arr2 s) = []).
Proof.
  intros Hadj Hsq Hzd.
  assert (Hcl : adj_closed (adj_list sg)).
  { rewrite Hadj. by apply neighbours_closed. }
  assert (Hlen : length (adj_list sg) = length s).
  { rewrite Hadj. unfold neighbours. apply length_fmap. }
  destruct (longest_chain_closed sg Hcl) as (z & Hlc & _ & Hall & Hmax).
  exists z. split; [done|]. split.
  - intros ->. destruct (unique_bonds_of (Arr2 s)) as [|b bs] eqn:Eb; [done|].
    exfalso.
    assert (b ∈ unique_bonds_of (Arr2 s)) as Hb by (rewrite Eb; left).
    apply elem_of_unique_bonds_of in Hb as (a & c & He & _).
    pose proof He as (row & Ha & Hc)%entry_Some.
    assert (a < length s)%nat as Hlt by by eapply lookup_lt_Some.
    destruct (Hall a) as (za & Hza & Hle); [lia|].
    destruct (longest_chain_from_node_closed sg (Z.of_nat a) Hcl)
      as (za' & Hza' & Hpos & _); [lia|].
    assert (za' = za) as -> by congruence.
    assert (is_Some (neighbours s !! a)) as [nb Hnb].
    { apply lookup_lt_is_Some_2. unfold neighbours. by rewrite length_fmap. }
    assert (Hget : getitem (adj_list sg) (Z.of_nat a) = Ok nb).
    { rewrite Hadj. by apply getitem_nat. }
    assert (za = 0) as Hz0 by lia.
    apply (longest_chain_from_node_zero sg _ nb za Hget Hza) in Hz0.
    assert (Z.of_nat c ∈ nb) as Hcn.
    { apply (elem_of_neighbours _ _ _ _ Hnb). eauto. }
    apply (proj1 (Forall_forall _ _) Hz0) in Hcn.
    apply Nat2Z.inj in Hcn as ->. apply Hzd in He. lia.
  - intros Eb. destruct Hmax as [->|(i & Hi & Hzi)]; [done|].
    assert (is_Some (neighbours s !! i)) as [nb Hnb].
    { apply lookup_lt_is_Some_2. by rewrite <-Hadj. }
    assert (Hget : getitem (adj_list sg) (Z.of_nat i) = Ok nb).
    { rewrite Hadj. by apply getitem_nat. }
    apply (longest_chain_from_node_zero sg _ nb z Hget Hzi).
    apply Forall_forall. intros w Hw. exfalso.
    apply (elem_of_neighbours _ _ _ _ Hnb) in Hw as (j & -> & He).
    assert ([Z.min (Z.of_nat i) (Z.of_nat j); Z.max (Z.of_nat i) (Z.of_nat j)]
            ∈ unique_bonds_of (Arr2 s)) as Hin.
    { apply elem_of_unique_bonds_of. eauto. }
    rewrite Eb in Hin. by apply elem_of_nil in Hin.
Qed.

Section SignatureFacts.
Context {item : Type}.
Implicit Types (g : Graph item) (h : heap).

Lemma get_cns_subgraphs_induced g R h (ps : list item) :
  built_on g R h → square R →
  positions g = PosArray ps → length ps = length R →
  ∃ sgs h', get_cns_subgraphs g h = (Ok sgs, h') ∧ h `prefix_of` h'
    ∧ Forall2 (λ bond sg,
                 ∃ (i j : nat) cn s,
                   bond = [Z.of_nat i; Z.of_nat j]
                   ∧ common_neighbours R i j cn
                   ∧ built_on sg s h' ∧ induced_on R s cn)
              (unique_bonds_of (Arr2 R)) sgs.
Proof.
  intros Hb Hsq Hp Hlen. unfold get_cns_subgraphs.
  unfold mbind at 1, py_bind at 1. rewrite (unique_bonds_read _ _ _ (proj1 Hb)).
  edestruct (mapP_Ok_Forall2
    (λ bond, '(i, j) ← lift (unpack2 bond);
             ai ← lift (getitem (adj_list g) i);
             aj ← lift (getitem (adj_list g) j);
             make_subgraph g (NdInt (np_intersect1d ai aj)))
    (λ h', h `prefix_of` h')
    (λ bond sg h',
       ∃ (i j : nat) cn s,
         bond = [Z.of_nat i; Z.of_nat j] ∧ common_neighbours R i j cn
         ∧ built_on sg s h' ∧ induced_on R s cn)
    (unique_bonds_of (Arr2 R)))
    as (sgs & h' & Hm & _ & Hpre & HF); [| |reflexivity|].
  - intros bond sg h1 h2 (i & j & cn & s & -> & Hcn & Hs & Hind) _ Hp12.
    exists i, j, cn, s. split_and!; try done. by eapply built_on_prefix.
  - intros bond h1 Hbond Hh1.
    destruct (unique_bonds_of_range R bond Hsq Hbond) as (i & j & -> & Hi & Hj).
    destruct Hb as [HR Hadj].
    assert (is_Some (neighbours R !! i)) as [ai Hai].
    { apply lookup_lt_is_Some_2. unfold neighbours. by rewrite length_fmap. }
    assert (is_Some (neighbours R !! j)) as [aj Haj].
    { apply lookup_lt_is_Some_2. unfold neighbours. by rewrite length_fmap. }
    set (idx := np_intersect1d ai aj).
    assert (Hrange : Forall (λ z, 0 ≤ z < Z.of_nat (length R)) idx).
    { apply Forall_forall. intros z [Hz _]%elem_of_np_intersect1d.
      pose proof (neighbours_closed R Hsq) as Hc. unfold adj_closed in Hc.
      unfold neighbours in Hc at 1. rewrite length_fmap in Hc.
      apply (proj1 (Forall_forall _ _)
               (proj1 (Forall_forall _ _) Hc ai
                  (list_elem_of_lookup_2 _ _ _ Hai)) z Hz). }
    destruct (make_subgraph_induced g h1 R ps (NdInt idx) (Z.to_nat <$> idx))
      as (s & ps' & Hms & Ls & Ss & _ & He & _); [|done|done|done| | |].
    { by eapply prefix_lookup_Some. }
    { simpl. f_equal. symmetry. apply of_nat_to_nat_fmap.
      eapply Forall_impl; [exact Hrange|]. simpl. lia. }
    { apply Forall_fmap. eapply Forall_impl; [exact Hrange|]. simpl. lia. }
    eexists _, (h1 ++ [Arr2 s]). split_and!.
    + unfold mbind, py_bind, lift. simpl.
      rewrite Hadj, (getitem_nat _ _ _ Hai), (getitem_nat _ _ _ Haj). exact Hms.
    + etrans; [done|]. by apply prefix_app_r.
    + by apply prefix_app_r.
    + exists i, j, (Z.to_nat <$> idx), s. split; [done|].
      split; [split|split; [split; [|done]|by split_and!]].
      * apply NoDup_fmap_2_strong; [|apply np_intersect1d_NoDup].
        intros x y Hx Hy Hxy.
        apply (proj1 (Forall_forall _ _) Hrange) in Hx, Hy. lia.
      * intros k. rewrite list_elem_of_fmap. split.
        -- intros (z & -> & [Hzi Hzj]%elem_of_np_intersect1d).
           apply (elem_of_neighbours _ _ _ _ Hai) in Hzi as (u & -> & Hu).
           apply (elem_of_neighbours _ _ _ _ Haj) in Hzj as (v & Hv & Hv').
           apply Nat2Z.inj in Hv as <-. by rewrite Nat2Z.id.
        -- intros [Hu Hv]. exists (Z.of_nat k). split; [by rewrite Nat2Z.id|].
           apply elem_of_np_intersect1d. split.
           ++ apply (elem_of_neighbours _ _ _ _ Hai). eauto.
           ++ apply (elem_of_neighbours _ _ _ _ Haj). eauto.
      * simpl. by rewrite lookup_app_r, Nat.sub_diag.
  - exists sgs, h'. by split_and!.
Qed.

Lemma compute_signatures_induced g R h (ps : list item) :
  built_on g R h → square R →
  positions g = PosArray ps → length ps = length R →
  ∃ sigs h', compute_signatures g h = (Ok sigs, h')
    ∧ Forall2 (λ bond (sig : signature),
                 ∃ (i j : nat) cn,
                   bond = [Z.of_nat i; Z.of_nat j]
                   ∧ common_neighbours R i j cn
                   ∧ sig.1.1 = Z.of_nat (length cn)
                   ∧ sig.1.2 = Z.of_nat (linked_pairs (joined R) cn)
                   ∧ (sig.2 = 0 ↔ sig.1.2 = 0))
              (unique_bonds_of (Arr2 R)) sigs.
Proof.
  intros Hb Hsq Hp Hlen.
  destruct (get_cns_subgraphs_induced g R h ps Hb Hsq Hp Hlen)
    as (sgs & h1 & Hsgs & Hpre & HF).
  unfold compute_signatures. unfold mbind at 1, py_bind at 1. rewrite Hsgs.
  edestruct (mapP_Ok_Forall2
    (λ subgraph : Graph item,
       i ← number_of_nodes subgraph;
       j ← number_of_unique_bonds subgraph;
       k ← lift (longest_chain subgraph);
       mret (i, j, k))
    (λ h', h' = h1)
    (λ (sg : Graph item) (sig : signature) (_ : heap),
       ∃ s, built_on sg s h1 ∧ sig.1.1 = Z.of_nat (length s)
            ∧ sig.1.2 = Z.of_nat (length (unique_bonds_of (Arr2 s)))
            ∧ (sig.2 = 0 ↔ unique_bonds_of (Arr2 s) = [])) sgs)
    as (sigs & h' & Hm & -> & _ & HF2); [| |reflexivity|].
  - intros sg sig h2 h3 HQ _ _. exact HQ.
  - intros sg h2 Hsg ->.
    apply list_elem_of_lookup in Hsg as [k Hk].
    destruct (Forall2_lookup_r _ _ _ _ _ HF Hk)
      as (bond & _ & (i & j & cn & s & _ & _ & Hbs & Hind)).
    destruct Hbs as [Hs Hadj].
    destruct (chain_zero_iff_no_bonds sg s Hadj) as (z & Hz & Hz0).
    { apply Hind. }
    { by eapply induced_on_zero_diagonal. }
    eexists _, h1. split_and!; [|done|done|].
    + unfold mbind, py_bind.
      rewrite (number_of_nodes_read _ _ _ Hs),
              (number_of_unique_bonds_read _ _ _ Hs).
      unfold lift. rewrite Hz. reflexivity.
    + exists s. simpl. by split_and!.
  - exists sigs, h1. split; [done|].
    eapply Forall2_chain; [|exact HF|exact HF2]. simpl.
    intros bond sg sig (i & j & cn & s & -> & Hcn & [Hs _] & Ls & Ss & He)
      (s' & [Hs' _] & Hn & Hbnd & Hz0).
    assert (s' = s) as -> by congruence.
    exists i, j, cn. split; [done|]. split; [done|]. split; [congruence|].
    split.
    + rewrite Hbnd. f_equal. by apply induced_bonds_count.
    + rewrite Hz0, Hbnd. destruct (unique_bonds_of (Arr2 s)); simpl; [done|].
      split; [done|lia].
Qed.
End SignatureFacts.

(** X22: what a signature counts.  On a Graph as constructed over a square
    matrix, with a position per node, [compute_signatures] returns one
    signature [(n, b, l)] per bond [(i, j)] of [unique_bonds], in the same
    order, in which [n] is the number of common neighbours of [i] and [j],
    the nodes [k] with a 1 at [(i, k)] and at [(j, k)]; [b] is the number
    of pairs of these common neighbours that the matrix joins, in one
    direction or the other; and [l] is 0 exactly when [b] is. *)
Theorem signature_counts {item} (g : Graph item) (h : heap)
    (R : list (list Z)) (ps : list item) :
  h !! adj_mat g = Some (Arr2 R) → adj_list g = neighbours R → square R →
  positions g = PosArray ps → length ps = length R →
  ∃ bonds sigs h',
    unique_bonds g h = (Ok bonds, h)
    ∧ compute_signatures g h = (Ok sigs, h')
    ∧ Forall2 (λ bond (sig : signature),
                 ∃ (i j : nat) cn,
                   bond = [Z.of_nat i; Z.of_nat j]
                   ∧ common_neighbours R i j cn
                   ∧ sig.1.1 = Z.of_nat (length cn)
                   ∧ sig.1.2 = Z.of_nat (linked_pairs (joined R) cn)
                   ∧ (sig.2 = 0 ↔ sig.1.2 = 0))
              bonds sigs.
Proof.
  intros Ha Hadj Hsq Hp Hlen.
  destruct (compute_signatures_induced g R h ps (conj Ha Hadj) Hsq Hp Hlen)
    as (sigs & h' & Hsigs & HF).
  exists (unique_bonds_of (Arr2 R)), sigs, h'. split; [|done].
  by apply unique_bonds_read.
Qed.

Lemma signature_counts_witness :
  ∃ bonds sigs h',
    unique_bonds (mkGraph 0%nat [[1; 2; 3]; [0; 2; 3]; [0; 1]; [0; 1]]
                    (PosArray [(); (); (); ()]) None)
      [Arr2 [[0; 1; 1; 1]; [1; 0; 1; 1]; [1; 1; 0; 0]; [1; 1; 0; 0]]]
    = (Ok bonds,
       [Arr2 [[0; 1; 1; 1]; [1; 0; 1; 1]; [1; 1; 0; 0]; [1; 1; 0; 0]]])
    ∧ compute_signatures (mkGraph 0%nat [[1; 2; 3]; [0; 2; 3]; [0; 1]; [0; 1]]
                            (PosArray [(); (); (); ()]) None)
        [Arr2 [[0; 1; 1; 1]; [1; 0; 1; 1]; [1; 1; 0; 0]; [1; 1; 0; 0]]]
      = (Ok sigs, h')
    ∧ Forall2 (λ bond (sig : signature),
                 ∃ (i j : nat) cn,
                   bond = [Z.of_nat i; Z.of_nat j]
                   ∧ common_neighbours
                       [[0; 1; 1; 1]; [1; 0; 1; 1]; [1; 1; 0; 0]; [1; 1; 0; 0]]
                       i j cn
                   ∧ sig.1.1 = Z.of_nat (length cn)
                   ∧ sig.1.2
                     = Z.of_nat
                         (linked_pairs
                            (joined [[0; 1; 1; 1]; [1; 0; 1; 1]; [1; 1; 0; 0];
                                     [1; 1; 0; 0]]) cn)
                   ∧ (sig.2 = 0 ↔ sig.1.2 = 0))
              bonds sigs.
Proof.
  apply (signature_counts
           (mkGraph 0%nat [[1; 2; 3]; [0; 2; 3]; [0; 1]; [0; 1]]
              (PosArray [(); (); (); ()]) None)
           [Arr2 [[0; 1; 1; 1]; [1; 0; 1; 1]; [1; 1; 0; 0]; [1; 1; 0; 0]]]
           [[0; 1; 1; 1]; [1; 0; 1; 1]; [1; 1; 0; 0]; [1; 1; 0; 0]]
           [(); (); (); ()]).
  - reflexivity.
  - vm_compute. reflexivity.
  - repeat constructor.
  - reflexivity.
  - reflexivity.
Defined.

(** ** Groups and coordination *)

(** X23: the grouping respects the number of neighbours.  Whenever
    [get_CNAPs] returns on a Graph constructed on a square, symmetric
    matrix with zero diagonal, two nodes that [group_CNAPs] puts in one
    group have adjacency lists of the same length. *)
Theorem grouped_nodes_same_degree {item} (h0 : heap) (a : loc)
    (rows : list (list Z)) (pos : positions_t item) (fill_diag : bool)
    (root : option Z) (g : Graph item) (h : heap) (cnaps : list CNAP)
    (h2 : heap) :
  h0 !! a = Some (Arr2 rows) →
  square rows → symmetric rows → zero_diagonal rows →
  Graph_init a pos fill_diag root h0 = (Ok g, h) →
  get_CNAPs g h = (Ok cnaps, h2) →
  ∀ grp m n nbm nbn,
    grp ∈ (group_CNAPs cnaps).2 → m ∈ grp → n ∈ grp →
    adj_list g !! m = Some nbm → adj_list g !! n = Some nbn →
    length nbm = length nbn.
Proof.
  intros Ha Hsq Hsym Hz Hg Hcn grp m n nbm nbn Hgrp Hm Hn Hnbm Hnbn.
  destruct (Graph_init_built _ _ _ _ _ _ _ _ Ha Hg) as (Hb & _ & _ & _).
  assert (HRr : (if fill_diag then zeroed rows else rows) = rows).
  { destruct fill_diag; [by apply zeroed_id | done]. }
  rewrite HRr in Hb.
  unfold group_CNAPs in Hgrp. simpl in Hgrp.
  apply list_elem_of_fmap in Hgrp as (key & -> & _).
  apply elem_of_matching in Hm, Hn.
  pose proof (get_CNAPs_counts g rows h cnaps h2 Hb Hsym Hz Hcn) as Hcount.
  pose proof (Hcount m key Hm) as Cm. pose proof (Hcount n key Hn) as Cn.
  rewrite (proj2 Hb) in Hnbm, Hnbn.
  rewrite (incident_degree rows m nbm Hsym Hz Hnbm) in Cm.
  rewrite (incident_degree rows n nbn Hsym Hz Hnbn) in Cn. lia.
Qed.

Lemma grouped_nodes_same_degree_witness :
  [0; 1; 2]%nat
  ∈ (group_CNAPs
       [[((1, 0, 0), 2)]; [((1, 0, 0), 2)]; [((1, 0, 0), 2)]; []]).2
  ∧ length [1; 2] = length [0; 2].
Proof.
  assert (Hgrp : [0; 1; 2]%nat
                 ∈ (group_CNAPs
                      [[((1, 0, 0), 2)]; [((1, 0, 0), 2)]; [((1, 0, 0), 2)];
                       []]).2).
  { vm_compute. left. }
  split; [exact Hgrp|].
  refine (grouped_nodes_same_degree
           [Arr2 [[0; 1; 1; 0]; [1; 0; 1; 0]; [1; 1; 0; 0]; [0; 0; 0; 0]]]
           0%nat [[0; 1; 1; 0]; [1; 0; 1; 0]; [1; 1; 0; 0]; [0; 0; 0; 0]]
           (PosArray [(); (); (); ()]) true None
           (mkGraph 0%nat [[1; 2]; [0; 2]; [0; 1]; []]
              (PosArray [(); (); (); ()]) None)
           [Arr2 [[0; 1; 1; 0]; [1; 0; 1; 0]; [1; 1; 0; 0]; [0; 0; 0; 0]]]
           [[((1, 0, 0), 2)]; [((1, 0, 0), 2)]; [((1, 0, 0), 2)]; []]
           [Arr2 [[0; 1; 1; 0]; [1; 0; 1; 0]; [1; 1; 0; 0]; [0; 0; 0; 0]];
            Arr2 [[0]]; Arr2 [[0]]; Arr2 [[0]]]
           _ _ _ _ _ _
           [0; 1; 2]%nat 0%nat 1%nat [1; 2] [0; 2] _ _ _ _ _).
  - reflexivity.
  - repeat constructor.
  - intros [|[|[|[|i]]]] [|[|[|[|j]]]]; reflexivity.
  - intros [|[|[|[|i]]]] x; unfold entry; simpl; congruence.
  - vm_compute. reflexivity.
  - vm_compute. reflexivity.
  - exact Hgrp.
  - repeat constructor.
  - repeat constructor.
  - reflexivity.
  - reflexivity.
Defined.
